(** * jsonproxy: a shallow embedding of the token codec, the authorization
    loop and the JSON response filter, with the properties of the
    specification stated over it.

    Go strings and byte slices are sequences of bytes; they are modelled by
    Rocq's [string] (a list of [ascii], one per byte).  Go maps that the
    program ranges over (a [Role], a JSON object) are modelled by the list of
    their entries in the order the [range] loop visits them; the role
    registry, which is only ever looked up, is a [gmap]. *)

From Stdlib Require Import ZArith Ascii String List Lia Bool Permutation.
From stdpp Require Import base option list strings gmap.

Import ListNotations.
Local Open Scope string_scope.
Local Open Scope Z_scope.

(** ** Errors and results *)

(** The error values the modelled code can produce. *)
Inductive error : Type :=
| ErrBadPattern                 (* path.ErrBadPattern *)
| ErrUnexpectedEOF              (* binary.Read on a short buffer *)
| ErrRandom                     (* crypto/rand.Read failed *)
| ErrAuthFailed                 (* cipher: message authentication failed *)
| ErrJSON                       (* encoding/json syntax or marshal error *)
| ErrTransport                  (* http.RoundTripper failure *)
| ErrMsg (msg : string).        (* errors.New(msg) *)

(** Go's [(value, error)] return convention. *)
Inductive result (A : Type) : Type :=
| Ok (a : A)
| Err (e : error).
Arguments Ok {A} a.
Arguments Err {A} e.

Definition bind {A B : Type} (r : result A) (k : A -> result B) : result B :=
  match r with
  | Ok a => k a
  | Err e => Err e
  end.

#[export] Instance result_bind : MBind result :=
  fun A B (k : A -> result B) (r : result A) => bind r k.
#[export] Instance result_ret : MRet result := @Ok.

Definition is_ok {A : Type} (r : result A) : bool :=
  match r with Ok _ => true | Err _ => false end.

(** ** Bytes *)

Definition byte_val (c : ascii) : Z := Z.of_nat (nat_of_ascii c).

(** [s[n:]] *)
Fixpoint skip (n : nat) (s : string) : string :=
  match n, s with
  | O, _ => s
  | S n', String _ s' => skip n' s'
  | S _, EmptyString => EmptyString
  end.

(** [s[i]], read only at indices the surrounding code has checked. *)
Definition byte_at (s : string) (i : nat) : Z :=
  match String.get i s with
  | Some c => byte_val c
  | None => 0
  end.

Definition is_empty (s : string) : bool :=
  match s with EmptyString => true | String _ _ => false end.

Definition slash : ascii := "/"%char.

(** [strings.IndexByte(s, '/') >= 0] *)
Fixpoint has_slash (s : string) : bool :=
  match s with
  | EmptyString => false
  | String c s' => Ascii.eqb c slash || has_slash s'
  end.

(** ** unicode/utf8.DecodeRuneInString *)

Module utf8.

Definition RuneError : Z := 65533.

(* the [first] table: information about the first byte of an encoding *)
Definition xx : Z := 241.   (* 0xF1: invalid, size 1 *)
Definition as_ : Z := 240.  (* 0xF0: ASCII, size 1 *)
Definition s1 : Z := 2.     (* 0x02: accept 0, size 2 *)
Definition s2 : Z := 19.    (* 0x13: accept 1, size 3 *)
Definition s3 : Z := 3.     (* 0x03: accept 0, size 3 *)
Definition s4 : Z := 35.    (* 0x23: accept 2, size 3 *)
Definition s5 : Z := 52.    (* 0x34: accept 3, size 4 *)
Definition s6 : Z := 4.     (* 0x04: accept 0, size 4 *)
Definition s7 : Z := 68.    (* 0x44: accept 4, size 4 *)

Definition first (b : Z) : Z :=
  if b <? 128 then as_            (* 0x00-0x7F *)
  else if b <? 194 then xx        (* 0x80-0xC1 *)
  else if b <? 224 then s1        (* 0xC2-0xDF *)
  else if b =? 224 then s2        (* 0xE0 *)
  else if b <? 237 then s3        (* 0xE1-0xEC *)
  else if b =? 237 then s4        (* 0xED *)
  else if b <? 240 then s3        (* 0xEE-0xEF *)
  else if b =? 240 then s5        (* 0xF0 *)
  else if b <? 244 then s6        (* 0xF1-0xF3 *)
  else if b =? 244 then s7        (* 0xF4 *)
  else xx.                        (* 0xF5-0xFF *)

Definition locb : Z := 128.  (* 0b10000000 *)
Definition hicb : Z := 191.  (* 0b10111111 *)

Definition acceptRanges (i : Z) : Z * Z :=
  if i =? 0 then (locb, hicb)
  else if i =? 1 then (160, hicb)
  else if i =? 2 then (locb, 159)
  else if i =? 3 then (144, hicb)
  else if i =? 4 then (locb, 143)
  else (0, 0).

Definition maskx : Z := 63.
Definition mask2 : Z := 31.
Definition mask3 : Z := 15.
Definition mask4 : Z := 7.

(** Returns the rune and its width in bytes. *)
Definition DecodeRuneInString (s : string) : Z * nat :=
  let n := String.length s in
  if (n <? 1)%nat then (RuneError, 0%nat)
  else
    let s0 := byte_at s 0 in
    let x := first s0 in
    if as_ <=? x then
      (* x is as_ (ASCII) or xx (invalid): the low bit selects RuneError *)
      ((if Z.testbit x 0 then RuneError else s0), 1%nat)
    else
      let sz := Z.to_nat (Z.land x 7) in
      let '(lo, hi) := acceptRanges (Z.shiftr x 4) in
      if (n <? sz)%nat then (RuneError, 1%nat)
      else
        let b1 := byte_at s 1 in
        if (b1 <? lo) || (hi <? b1) then (RuneError, 1%nat)
        else if (sz <=? 2)%nat then
          (Z.lor (Z.shiftl (Z.land s0 mask2) 6) (Z.land b1 maskx), 2%nat)
        else
          let b2 := byte_at s 2 in
          if (b2 <? locb) || (hicb <? b2) then (RuneError, 1%nat)
          else if (sz <=? 3)%nat then
            (Z.lor (Z.lor (Z.shiftl (Z.land s0 mask3) 12)
                          (Z.shiftl (Z.land b1 maskx) 6))
                   (Z.land b2 maskx), 3%nat)
          else
            let b3 := byte_at s 3 in
            if (b3 <? locb) || (hicb <? b3) then (RuneError, 1%nat)
            else
              (Z.lor (Z.lor (Z.lor (Z.shiftl (Z.land s0 mask4) 18)
                                   (Z.shiftl (Z.land b1 maskx) 12))
                            (Z.shiftl (Z.land b2 maskx) 6))
                     (Z.land b3 maskx), 4%nat).

End utf8.

(** ** path.Match (Go standard library, as of Go 1.16 and later)

    The repository calls [path.Match] both on URL paths and on JSON
    key-paths.  The definitions below follow the standard library function
    by function: [scanChunk], [getEsc], [matchChunk] and [Match]. *)

Module path.

Definition star_c : ascii := "*"%char.
Definition backslash : ascii := "\"%char.
Definition lbracket : ascii := "["%char.
Definition rbracket : ascii := "]"%char.
Definition caret : ascii := "^"%char.
Definition dash : ascii := "-"%char.
Definition qmark : ascii := "?"%char.
Definition dot : ascii := "."%char.

(** The leading loop of [scanChunk]: drop stars, remember whether any. *)
Fixpoint strip_stars (pattern : string) (star : bool) : bool * string :=
  match pattern with
  | String c p' => if Ascii.eqb c star_c then strip_stars p' true
                   else (star, pattern)
  | EmptyString => (star, pattern)
  end.

Definition cons_fst (c : ascii) (p : string * string) : string * string :=
  (String c (fst p), snd p).

(** The [Scan:] loop of [scanChunk]: split at the first star that is not
    inside a character class. *)
Fixpoint scan (pattern : string) (inrange : bool) : string * string :=
  match pattern with
  | EmptyString => (EmptyString, EmptyString)
  | String c p' =>
      if Ascii.eqb c backslash then
        match p' with
        | EmptyString => (String c EmptyString, EmptyString)
        | String d p'' => cons_fst c (cons_fst d (scan p'' inrange))
        end
      else if Ascii.eqb c lbracket then cons_fst c (scan p' true)
      else if Ascii.eqb c rbracket then cons_fst c (scan p' false)
      else if Ascii.eqb c star_c then
        if inrange then cons_fst c (scan p' inrange)
        else (EmptyString, pattern)
      else cons_fst c (scan p' inrange)
  end.

(** [scanChunk] gets the next segment of [pattern], which is a non-star
    string possibly preceded by a star. *)
Definition scanChunk (pattern : string) : bool * string * string :=
  let '(star, p) := strip_stars pattern false in
  let '(chunk, rest) := scan p false in
  (star, chunk, rest).

(** [getEsc] gets a possibly-escaped character from [chunk], for a
    character class. *)
Definition getEsc (chunk : string) : result (Z * string) :=
  match chunk with
  | EmptyString => Err ErrBadPattern
  | String c t =>
      if Ascii.eqb c dash || Ascii.eqb c rbracket then Err ErrBadPattern
      else
        let chunk1 := if Ascii.eqb c backslash then t else chunk in
        if is_empty chunk1 then Err ErrBadPattern
        else
          let '(r, n) := utf8.DecodeRuneInString chunk1 in
          let nchunk := skip n chunk1 in
          if ((r =? utf8.RuneError) && (n =? 1)%nat) || is_empty nchunk
          then Err ErrBadPattern
          else Ok (r, nchunk)
  end.

Definition starts_with (c : ascii) (s : string) : bool :=
  match s with
  | String d _ => Ascii.eqb d c
  | EmptyString => false
  end.

(** [s[1:]] *)
Definition tail (s : string) : string := skip 1 s.

Definition in_range (lo r hi : Z) : bool := (lo <=? r) && (r <=? hi).

(** The range loop of a character class: returns whether some range
    contained [r], and the chunk after the closing bracket.  Every
    iteration consumes at least one byte of [chunk]; [fuel] bounds the
    number of iterations. *)
Fixpoint class_loop (fuel : nat) (chunk : string) (r : Z)
         (matched : bool) (nrange : nat) : result (bool * string) :=
  match fuel with
  | O => Err ErrBadPattern
  | S fuel' =>
      if starts_with rbracket chunk && (0 <? nrange)%nat then
        Ok (matched, tail chunk)
      else
        '(lo, chunk1) ← getEsc chunk;
        '(hi, chunk2) ← (if starts_with dash chunk1 then getEsc (tail chunk1)
                         else Ok (lo, chunk1));
        class_loop fuel' chunk2 r (matched || in_range lo r hi) (S nrange)
  end.

(** [matchChunk] checks whether [chunk] matches the beginning of [s].  The
    result is [Ok (Some rest)] when it does, [Ok None] when it does not and
    [Err] when the chunk is malformed.  After the match fails the loop goes
    on over [chunk], checking that it is well formed, without reading [s]. *)
Fixpoint matchChunk_loop (fuel : nat) (chunk s : string) (failed : bool)
  : result (option string) :=
  match fuel with
  | O => Ok (if failed then None else Some s)
  | S fuel' =>
      match chunk with
      | EmptyString => Ok (if failed then None else Some s)
      | String c chunk' =>
          let failed := failed || is_empty s in
          if Ascii.eqb c lbracket then
            (* character class *)
            let '(r, s) := if failed then (0, s)
                           else let '(r, n) := utf8.DecodeRuneInString s in
                                (r, skip n s) in
            (* possibly negated *)
            let negated := starts_with caret chunk' in
            let chunk' := if negated then tail chunk' else chunk' in
            (* parse all ranges *)
            '(matched, chunk') ← class_loop (S (String.length chunk')) chunk' r false 0;
            matchChunk_loop fuel' chunk' s
                            (failed || Bool.eqb matched negated)
          else if Ascii.eqb c qmark then
            if failed then matchChunk_loop fuel' chunk' s failed
            else
              let '(_, n) := utf8.DecodeRuneInString s in
              matchChunk_loop fuel' chunk' (skip n s) (starts_with slash s)
          else if Ascii.eqb c backslash then
            match chunk' with
            | EmptyString => Err ErrBadPattern
            | String d chunk'' =>
                (* fallthrough to the literal case *)
                if failed then matchChunk_loop fuel' chunk'' s failed
                else matchChunk_loop fuel' chunk'' (tail s)
                                     (negb (starts_with d s))
            end
          else
            if failed then matchChunk_loop fuel' chunk' s failed
            else matchChunk_loop fuel' chunk' (tail s)
                                 (negb (starts_with c s))
      end
  end.

Definition matchChunk (chunk s : string) : result (option string) :=
  matchChunk_loop (String.length chunk) chunk s false.

(** The loop of [Match] that, after a star, looks for a match of [chunk]
    skipping [i+1] bytes of [name], never past a slash.  [last] says that
    [chunk] is the last chunk of the pattern. *)
Fixpoint star_skip (chunk : string) (last : bool) (name : string)
  : result (option string) :=
  match name with
  | EmptyString => Ok None
  | String c name' =>
      if Ascii.eqb c slash then Ok None
      else
        m ← matchChunk chunk name';
        match m with
        | Some t =>
            (* if we're the last chunk, make sure we exhausted the name *)
            if last && negb (is_empty t) then star_skip chunk last name'
            else Ok (Some t)
        | None => star_skip chunk last name'
        end
  end.

(** Before returning false with no error, [Match] checks that the
    remainder of the pattern is syntactically valid. *)
Fixpoint check_rest (fuel : nat) (pattern : string) : result unit :=
  match fuel with
  | O => Ok tt
  | S fuel' =>
      if is_empty pattern then Ok tt
      else
        let '(_, chunk, rest) := scanChunk pattern in
        _ ← matchChunk chunk EmptyString;
        check_rest fuel' rest
  end.

(** The [Pattern:] loop of [Match].  Each iteration removes a non-empty
    prefix from [pattern]; [fuel] bounds the number of iterations. *)
Fixpoint Match_loop (fuel : nat) (pattern name : string) : result bool :=
  match fuel with
  | O => Ok (is_empty name)
  | S fuel' =>
      if is_empty pattern then Ok (is_empty name)
      else
        let '(star, chunk, rest) := scanChunk pattern in
        if star && is_empty chunk then
          (* Trailing * matches rest of string unless it has a /. *)
          Ok (negb (has_slash name))
        else
          (* Look for match at current position. *)
          m ← matchChunk chunk name;
          let here := match m with
                      | Some t => if is_empty t || negb (is_empty rest)
                                  then Some t else None
                      | None => None
                      end in
          match here with
          | Some t => Match_loop fuel' rest t
          | None =>
              m' ← (if star then star_skip chunk (is_empty rest) name
                    else Ok None);
              match m' with
              | Some t => Match_loop fuel' rest t
              | None => _ ← check_rest (String.length rest) rest; Ok false
              end
          end
  end.

(** [Match] reports whether [name] matches the shell pattern. *)
Definition Match (pattern name : string) : result bool :=
  Match_loop (String.length pattern) pattern name.

(** *** path.Clean and path.Join *)

(** The output buffer of [Clean] is kept reversed: its head is the byte
    written last, its length is [out.w]. *)

(** [out.w--] followed by the loop that removes bytes down to the last
    slash, but not below [dotdot]. *)
Fixpoint backtrack (rout : list ascii) (dotdot : nat) : list ascii :=
  match rout with
  | [] => []
  | c :: rout' =>
      if (dotdot <? length rout')%nat && negb (Ascii.eqb c slash)
      then backtrack rout' dotdot
      else rout'
  end.

(** Copies a path element to the buffer: bytes up to the next slash. *)
Fixpoint copy_element (p : string) (rout : list ascii) : string * list ascii :=
  match p with
  | String c p' => if Ascii.eqb c slash then (p, rout)
                   else copy_element p' (c :: rout)
  | EmptyString => (p, rout)
  end.

(** The main loop of [Clean] over the unread part [p] of the path. *)
Fixpoint clean_loop (fuel : nat) (p : string) (rooted : bool)
         (rout : list ascii) (dotdot : nat) : list ascii :=
  match fuel with
  | O => rout
  | S fuel' =>
      match p with
      | EmptyString => rout
      | String c p1 =>
          if Ascii.eqb c slash then
            (* empty path element *)
            clean_loop fuel' p1 rooted rout dotdot
          else if Ascii.eqb c dot && (is_empty p1 || starts_with slash p1) then
            (* . element *)
            clean_loop fuel' p1 rooted rout dotdot
          else if Ascii.eqb c dot && starts_with dot p1 &&
                  (is_empty (tail p1) || starts_with slash (tail p1)) then
            (* .. element: remove to last / *)
            let p2 := tail p1 in
            if (dotdot <? length rout)%nat then
              (* can backtrack *)
              clean_loop fuel' p2 rooted (backtrack rout dotdot) dotdot
            else if negb rooted then
              (* cannot backtrack, but not rooted, so append .. element. *)
              let rout1 := if (0 <? length rout)%nat then slash :: rout
                           else rout in
              let rout2 := dot :: dot :: rout1 in
              clean_loop fuel' p2 rooted rout2 (length rout2)
            else
              clean_loop fuel' p2 rooted rout dotdot
          else
            (* real path element: add slash if needed, copy element *)
            let w := length rout in
            let rout1 := if (rooted && negb (w =? 1)%nat) ||
                            (negb rooted && negb (w =? 0)%nat)
                         then slash :: rout else rout in
            let '(p', rout2) := copy_element p rout1 in
            clean_loop fuel' p' rooted rout2 dotdot
      end
  end.

(** [Clean] returns the shortest path name equivalent to [path]. *)
Definition Clean (path : string) : string :=
  match path with
  | EmptyString => "."
  | String c p1 =>
      let rooted := Ascii.eqb c slash in
      let rout := if rooted
                  then clean_loop (String.length path) p1 true [slash] 1
                  else clean_loop (String.length path) path false [] 0 in
      match rout with
      | [] => "."
      | _ => string_of_list_ascii (rev rout)
      end
  end.

(** The second loop of [Join]: empty leading elements are ignored, later
    elements are appended after a slash. *)
Fixpoint join_loop (elem : list string) (buf : string) : string :=
  match elem with
  | [] => buf
  | e :: elem' =>
      if negb (is_empty buf) || negb (is_empty e) then
        join_loop elem' ((if negb (is_empty buf) then buf +:+ "/" else buf) +:+ e)
      else join_loop elem' buf
  end.

(** [Join] joins the elements with slashes and cleans the result; it is
    the empty string when all elements are empty. *)
Definition Join (elem : list string) : string :=
  let size := fold_left (fun n e => (n + String.length e)%nat) elem 0%nat in
  if (size =? 0)%nat then ""
  else Clean (join_loop elem "").

End path.

(** ** Rules, roles and JSON values *)

(** [Rule] defines how the proxy behaves for a particular path pattern. *)
Record Rule : Type := {
  Methods : list string;
  ResponseKeys : list string
}.

(** [Role] maps patterns of permitted URL paths to rules: the entries of
    the Go map in the order a [range] loop visits them. *)
Definition Role : Type := list (string * Rule).

(** What [json.Unmarshal] stores in an [interface{}], and what the filter
    builds from it.  [JNilSlice] is the nil [[]interface{}] that the filter
    returns for an array none of whose elements survived; a parsed array is
    never nil.  A JSON object lists its members in [range] order; a number
    is a [float64], given by the 64 bits of its IEEE 754 encoding. *)
#[warnings="-register-all"]
Inductive value : Type :=
| JNull
| JBool (b : bool)
| JNumber (f : Z)
| JString (s : string)
| JNilSlice
| JArray (elems : list value)
| JObject (members : list (string * value)).

(** ** The response filter (proxy.go) *)

(** The inner loop of [checkFilter] over the response keys of one rule. *)
Fixpoint check_keys (patterns : list string) (keyPath : string) : result bool :=
  match patterns with
  | [] => Ok false
  | keyPattern :: patterns' =>
      matched ← path.Match keyPattern keyPath;
      if matched : bool then Ok true else check_keys patterns' keyPath
  end.

(** The outer loop of [checkFilter] over the rules. *)
Fixpoint check_rules (rules : list Rule) (keyPath : string) : result bool :=
  match rules with
  | [] => Ok false
  | rule :: rules' =>
      matched ← check_keys (ResponseKeys rule) keyPath;
      if matched : bool then Ok true else check_rules rules' keyPath
  end.

Definition checkFilter (rules : list Rule) (keys : list string) : result bool :=
  check_rules rules (path.Join keys).

(** The loop of [filterJSON] over the elements of a non-empty array: [vf]
    collects the filtered elements that matched. *)
Definition filter_elems (f : value -> result (value * bool))
  : list value -> list value -> result (list value) :=
  fix loop (vt vf : list value) : result (list value) :=
    match vt with
    | [] => Ok vf
    | ve :: vt' =>
        match f ve with
        | Err e => Err e
        | Ok (ve', matched) => loop vt' (if matched : bool then (vf ++ [ve'])%list else vf)
        end
    end.

(** The loop of [filterJSON] over the members of a non-empty object.  The
    keys of a Go map are distinct, so that [vf[k] = ve] adds an entry to
    [vf]. *)
Definition filter_members (f : string -> value -> result (value * bool))
  : list (string * value) -> list (string * value)
    -> result (list (string * value)) :=
  fix loop (vt vf : list (string * value)) : result (list (string * value)) :=
    match vt with
    | [] => Ok vf
    | (k, ve) :: vt' =>
        match f k ve with
        | Err e => Err e
        | Ok (ve', matched) =>
            loop vt' (if matched : bool then (vf ++ [(k, ve')])%list else vf)
        end
    end.

(** [var vf []interface{}] after the loop: nil when nothing was appended. *)
Definition slice_of (vf : list value) : value :=
  match vf with
  | [] => JNilSlice
  | _ :: _ => JArray vf
  end.

Definition nonempty {A : Type} (l : list A) : bool :=
  match l with [] => false | _ :: _ => true end.

Fixpoint filterJSON (v : value) (rules : list Rule) (keys : list string)
  : result (value * bool) :=
  match v with
  | JArray ((_ :: _) as vt) =>
      vf ← filter_elems (fun ve => filterJSON ve rules keys) vt [];
      Ok (slice_of vf, nonempty vf)
  | JObject ((_ :: _) as vt) =>
      vf ← filter_members (fun k ve => filterJSON ve rules (keys ++ [k])%list) vt [];
      Ok (JObject vf, nonempty vf)
  | _ =>
      matched ← checkFilter rules keys;
      Ok (v, matched)
  end.

(** The filter as [filterBytes] applies it to the parsed body: from the
    empty key path, and dropping the [matched] flag of the root. *)
Definition Filter (v : value) (rules : list Rule) : result value :=
  '(filtered, _) ← filterJSON v rules [];
  Ok filtered.

(** [encoding/json], of which only the interface is used. *)
Record JSONCodec : Type := {
  Unmarshal : string -> result value;
  Marshal : value -> result string
}.

Definition filterBytes (json : JSONCodec) (input : string) (rules : list Rule)
  : result string :=
  parsed ← Unmarshal json input;
  '(filtered, _) ← filterJSON parsed rules [];
  Marshal json filtered.

(** ** The token codec (Auth) *)

(** [time.Time], by seconds since the Unix epoch and nanoseconds within the
    second. *)
Record Time : Type := {
  sec : Z;
  nsec : Z
}.

(** January 1, year 1, 00:00:00 UTC in Unix seconds. *)
Definition zero_time_sec : Z := -62135596800.

Definition IsZero (t : Time) : bool := (sec t =? zero_time_sec) && (nsec t =? 0).

(** [t.Unix()] *)
Definition Unix (t : Time) : Z := sec t.

(** [time.Unix(sec, nsec)] for [0 <= nsec < 1e9]. *)
Definition time_Unix (s n : Z) : Time := {| sec := s; nsec := n |}.

(** [t.Truncate(time.Second)]: the timestamp at second precision. *)
Definition truncate_second (t : Time) : Time := {| sec := sec t; nsec := 0 |}.

(** [Key] describes a set of roles associated with an upstream API key. *)
Record Key : Type := {
  CreatedAt : Time;
  Roles : list string;
  APIKey : string
}.

(** [cipher.AEAD], with [dst] and the additional data fixed as the codec
    fixes them: [Seal] returns the sealed bytes that Go appends to [dst],
    [Open] the plaintext or nothing when authentication fails. *)
Record AEAD : Type := {
  NonceSize : nat;
  Overhead : nat;
  Seal : string -> string -> string;
  Open : string -> string -> option string
}.

(** [Auth] holds the AES block; [cipher.NewGCM] is called on it by each
    operation and its result depends on the block only. *)
Record Auth : Type := {
  NewGCM : result AEAD
}.

(** What the codec takes from its environment: the clock, and the bytes
    that the [i]-th call of [rand.Read] of one [Generate] puts in a buffer of
    the given length ([None] when it fails). *)
Record Env : Type := {
  Now : Time;
  rand_Read : nat -> nat -> option string
}.

(** [uint32(x)] of an [int64] *)
Definition uint32 (x : Z) : Z := x mod 2 ^ 32.

Definition byte_of (z : Z) : ascii := ascii_of_nat (Z.to_nat (z mod 256)).

(** [binary.Write(&buf, binary.BigEndian, v)] for a [uint32]. *)
Definition put_uint32_be (v : Z) : string :=
  String (byte_of (Z.shiftr v 24))
    (String (byte_of (Z.shiftr v 16))
       (String (byte_of (Z.shiftr v 8))
          (String (byte_of v) EmptyString))).

(** [binary.Read(buf, binary.BigEndian, &ut)] for a [uint32]: the value
    and the unread bytes. *)
Definition read_uint32_be (data : string) : result (Z * string) :=
  match data with
  | String b0 (String b1 (String b2 (String b3 rest))) =>
      Ok (Z.lor (Z.lor (Z.lor (Z.shiftl (byte_val b0) 24)
                              (Z.shiftl (byte_val b1) 16))
                       (Z.shiftl (byte_val b2) 8))
                (byte_val b3), rest)
  | EmptyString => Err (ErrMsg "EOF")
  | _ => Err ErrUnexpectedEOF
  end.

Definition NUL : ascii := "000"%char.
Definition colon : ascii := ":"%char.

(** [bytes.Contains(s, []byte{c})] *)
Fixpoint contains_byte (c : ascii) (s : string) : bool :=
  match s with
  | EmptyString => false
  | String d s' => Ascii.eqb d c || contains_byte c s'
  end.

(** [bytes.Split(s, []byte{sep})]: the parts of [s] between the
    separators; always at least one part. *)
Fixpoint bytes_Split (s : string) (sep : ascii) : list string :=
  match s with
  | EmptyString => [EmptyString]
  | String c s' =>
      if Ascii.eqb c sep then EmptyString :: bytes_Split s' sep
      else match bytes_Split s' sep with
           | part :: parts => String c part :: parts
           | [] => [String c EmptyString]
           end
  end.

(** The loop of [Generate] that writes each role followed by a NUL. *)
Fixpoint write_roles (roles : list string) (buf : string) : string :=
  match roles with
  | [] => buf
  | role :: roles' => write_roles roles' (buf +:+ role +:+ String NUL EmptyString)
  end.

(** The plaintext that [Generate] seals. *)
Definition serialize (key : Key) : string :=
  write_roles (Roles key) (put_uint32_be (uint32 (Unix (CreatedAt key))))
  +:+ APIKey key.

(** The retry loop of [Generate]: attempt [i], with [n] attempts left. *)
Fixpoint generate_loop (n i : nat) (aead : AEAD) (env : Env) (buf : string)
  : result string :=
  match n with
  | O => Err (ErrMsg "Failed to generate a valid ciphertext")
  | S n' =>
      match rand_Read env i (NonceSize aead) with
      | None => Err ErrRandom
      | Some nonce =>
          (* Avoid ciphertexts that contain the ':' character since
             it's used as the delimiter in HTTP basic auth. *)
          let ciphertext := nonce +:+ Seal aead nonce buf in
          if negb (contains_byte colon ciphertext) then Ok ciphertext
          else generate_loop n' (S i) aead env buf
      end
  end.

(** The key as [Generate] leaves it: a zero [CreatedAt] is set to now. *)
Definition stamp (env : Env) (key : Key) : Key :=
  if IsZero (CreatedAt key)
  then {| CreatedAt := Now env; Roles := Roles key; APIKey := APIKey key |}
  else key.

(** [Generate] encrypts a key using authenticated AES-GCM.  It returns the
    key as the call leaves it behind the pointer, and the token. *)
Definition Generate (a : Auth) (env : Env) (key : Key) : Key * result string :=
  let key := stamp env key in
  (key, aead ← NewGCM a; generate_loop 100 0 aead env (serialize key)).

(** [ciphertext[:n]] *)
Fixpoint take (n : nat) (s : string) : string :=
  match n, s with
  | S n', String c s' => String c (take n' s')
  | _, _ => EmptyString
  end.

(** [Auth.Open] decrypts a key encrypted using the same secret. *)
Definition Auth_Open (a : Auth) (ciphertext : string) : result Key :=
  aead ← NewGCM a;
  let ns := NonceSize aead in
  if (String.length ciphertext <=? ns)%nat
  then Err (ErrMsg "Provided key data is invalid")
  else
    match Open aead (take ns ciphertext) (skip ns ciphertext) with
    | None => Err ErrAuthFailed
    | Some data =>
        '(ut, rest) ← read_uint32_be data;
        let parts := bytes_Split rest NUL in
        Ok {| CreatedAt := time_Unix ut 0;
              Roles := removelast parts;
              APIKey := List.last parts EmptyString |}
    end.

(** ** The proxy (proxy.go) *)

Definition StatusUnauthorized : Z := 401.

Definition Header : Type := list (string * list string).

(** The part of an inbound [http.Request] that the handler reads;
    [BasicAuth] is the result of [r.BasicAuth()]. *)
Record Request : Type := {
  Method : string;
  URLPath : string;
  BasicAuth : option (string * string)
}.

(** The part of the upstream [http.Response] that the handler reads. *)
Record Response : Type := {
  StatusCode : Z;
  ResHeader : Header
}.

(** [Proxy]: [request] stands for the method of that name, the single round
    trip to the upstream with the API key; it yields the body and the
    response, or the error of the transport. *)
Record Proxy : Type := {
  KeyOpener : string -> result Key;
  ProxyRoles : gmap string Role;
  request : Request -> string -> result (string * Response)
}.

(** What the handler hands to the writer: [ErrorEnvelope] is the JSON
    encoding of an [errResponse], [RawBody] a body. *)
Inductive payload : Type :=
| ErrorEnvelope (code message : string)
| RawBody (body : string).

(** [http.Header]: a map from header keys to their values. *)
Abbreviation HeaderMap := (gmap string (list string)).

(** The values under a key of the map itself, none when the key is
    absent. *)
Definition values (h : HeaderMap) (key : string) : list string :=
  default [] (h !! key).

Section header.

(** [textproto.CanonicalMIMEHeaderKey] *)
Variable canon : string -> string.

(** [h.Get(key)]: the first value under the canonical key, or the empty
    string. *)
Definition Header_Get (h : HeaderMap) (key : string) : string :=
  match h !! canon key with
  | Some (v :: _) => v
  | _ => EmptyString
  end.

(** [h.Set(key, value)] *)
Definition Header_Set (h : HeaderMap) (key value : string) : HeaderMap :=
  <[canon key := [value]]> h.

(** [h.Add(key, value)] *)
Definition Header_Add (h : HeaderMap) (key value : string) : HeaderMap :=
  <[canon key := (values h (canon key) ++ [value])%list]> h.

(** [h.Del(key)] *)
Definition Header_Del (h : HeaderMap) (key : string) : HeaderMap :=
  delete (canon key) h.

(** [copyHeader(dst, src)], with the entries of [src] in the order in which
    the [range] loop visits them. *)
Definition copyHeader (dst : HeaderMap) (src : list (string * list string))
  : HeaderMap :=
  fold_left (fun dst kvv =>
               fold_left (fun dst v => Header_Add dst (fst kvv) v) (snd kvv) dst)
            src dst.

End header.

(** [http.ResponseWriter], by the contract of the interface.  [w_Header] is
    the header map of the writer as the handler finds it.  [WriteHeader]
    sends the status with the header map as it is at the call, so that a
    change made to the map afterwards has no effect on the response (the
    handler declares no trailer); it is taken to return, as the writers of
    net/http do for a status from 100 to 999.  [w_Write] is [Write] of the
    bytes of a payload, which may fail. *)
Record ResponseWriter : Type := {
  w_Header : HeaderMap;
  w_Write : payload -> result unit
}.

(** What the handler did with the writer when it returns: the status it
    passed to [WriteHeader], the header map at that call (the header of the
    response), the payload it passed to [Write], and the header map of the
    writer at the return. *)
Record Written : Type := {
  status : Z;
  header : HeaderMap;
  sent : payload;
  header_after : HeaderMap
}.

(** How a call of the handler ends: it returns, or it panics, after
    [WriteHeader] was called with a status or before. *)
Inductive served : Type :=
| Returned (w : Written)
| Panicked (committed : option Z) (e : error).

(** [err.Error()] *)
Definition error_string (e : error) : string :=
  match e with
  | ErrBadPattern => "syntax error in pattern"
  | ErrUnexpectedEOF => "unexpected EOF"
  | ErrRandom => "rand.Read failed"
  | ErrAuthFailed => "cipher: message authentication failed"
  | ErrJSON => "json error"
  | ErrTransport => "transport error"
  | ErrMsg msg => msg
  end.

(** [respond(w, unauthorizedResp with message, http.StatusUnauthorized)]:
    the content type is set in the header map, [WriteHeader] is called with
    the status, and the envelope is encoded to the writer; [respond] panics
    with the error of the encoder, which is that of [Write]. *)
Definition respond_unauthorized (canon : string -> string) (w : ResponseWriter)
           (message : string) : served :=
  let h := Header_Set canon (w_Header w) "Content-Type" "application/json" in
  match w_Write w (ErrorEnvelope "unauthorized" message) with
  | Err err => Panicked (Some StatusUnauthorized) err
  | Ok _ =>
      Returned {| status := StatusUnauthorized;
                  header := h;
                  sent := ErrorEnvelope "unauthorized" message;
                  header_after := h |}
  end.

Definition authenticate (p : Proxy) (r : Request) : result Key :=
  match BasicAuth r with
  | None => Err (ErrMsg "Unable to parse Authorization header")
  | Some (user, _) =>
      match KeyOpener p user with
      | Err _ => Err (ErrMsg "Invalid password provided")
      | Ok key => Ok key
      end
  end.

(** The loop over the methods of a rule: some method is the wildcard or
    the request's method. *)
Fixpoint method_allowed (methods : list string) (method : string) : bool :=
  match methods with
  | [] => false
  | m :: methods' =>
      if String.eqb m "*" || String.eqb m method then true
      else method_allowed methods' method
  end.

(** How the authorization loops end: with the matched rules, with the
    response for a role that does not exist, or with a panic on the error
    of [path.Match]. *)
Inductive authz : Type :=
| Matched (matches : list Rule)
| UnknownRole (role : string)
| MatchPanic (e : error).

(** The loop over the (pattern, rule) entries of one role. *)
Fixpoint match_role (rr : Role) (urlpath method : string) (matches : list Rule)
  : result (list Rule) :=
  match rr with
  | [] => Ok matches
  | (pattern, rule) :: rr' =>
      matched ← path.Match pattern urlpath;
      if negb matched then match_role rr' urlpath method matches
      else if method_allowed (Methods rule) method
           then match_role rr' urlpath method (matches ++ [rule])%list
           else match_role rr' urlpath method matches
  end.

(** The loop over the roles of the key. *)
Fixpoint authorize (registry : gmap string Role) (roles : list string)
         (urlpath method : string) (matches : list Rule) : authz :=
  match roles with
  | [] => Matched matches
  | role :: roles' =>
      match registry !! role with
      | None => UnknownRole role
      | Some rr =>
          match match_role rr urlpath method matches with
          | Err e => MatchPanic e
          | Ok matches' => authorize registry roles' urlpath method matches'
          end
      end
  end.

Definition hopHeaders : list string :=
  ["Connection"; "Keep-Alive"; "Proxy-Authenticate"; "Proxy-Authorization";
   "Te"; "Trailers"; "Transfer-Encoding"; "Upgrade"].

(** [for _, h := range hopHeaders { res.Header.Del(h) }], on the entries
    of [res.Header]: [Del] deletes the entry under the canonical form of the
    name. *)
Definition del_hop_headers (canon : string -> string) (h : Header) : Header :=
  List.filter
    (fun kv => negb (existsb (String.eqb (fst kv)) (map canon hopHeaders))) h.

(** [ServeHTTP(w, r)].  On the relay path the handler calls
    [w.WriteHeader(res.StatusCode)] first and [copyHeader(w.Header(),
    res.Header)] after it: the response goes out with the header map as the
    writer had it, and the headers of the upstream only reach the map.  The
    result of the last [w.Write(body)] is not looked at. *)
Definition ServeHTTP (canon : string -> string) (w : ResponseWriter)
           (json : JSONCodec) (p : Proxy) (r : Request) : served :=
  match authenticate p r with
  | Err err => respond_unauthorized canon w (error_string err)
  | Ok key =>
      match authorize (ProxyRoles p) (Roles key) (URLPath r) (Method r) [] with
      | UnknownRole role =>
          respond_unauthorized canon w ("Role " +:+ role +:+ " does not exist")
      | MatchPanic e => Panicked None e
      | Matched matches =>
          if (length matches =? 0)%nat then
            respond_unauthorized canon w
              "You do not have permission to access this resource"
          else
            match request p r (APIKey key) with
            | Err err => Panicked None err
            | Ok (body, res) =>
                let after :=
                  copyHeader canon (w_Header w)
                             (del_hop_headers canon (ResHeader res)) in
                if StatusCode res <? 300 then
                  match filterBytes json body matches with
                  | Err err => Panicked (Some (StatusCode res)) err
                  | Ok body' =>
                      Returned {| status := StatusCode res;
                                  header := w_Header w;
                                  sent := RawBody body';
                                  header_after := after |}
                  end
                else
                  Returned {| status := StatusCode res;
                              header := w_Header w;
                              sent := RawBody body;
                              header_after := after |}
            end
      end
  end.

(** ** The vocabulary of the properties *)

(** Values that [filterJSON] tests against the whitelist directly. *)
Definition is_leaf (v : value) : bool :=
  match v with
  | JArray (_ :: _) | JObject (_ :: _) => false
  | _ => true
  end.

(** Some response key of some rule matches the key path. *)
Definition whitelisted (rules : list Rule) (keyPath : string) : Prop :=
  exists rule pattern,
    In rule rules /\ In pattern (ResponseKeys rule) /\
    path.Match pattern keyPath = Ok true.

(** No response key of any rule is reported malformed on the key path. *)
Definition well_formed_on (rules : list Rule) (keyPath : string) : Prop :=
  forall rule pattern,
    In rule rules -> In pattern (ResponseKeys rule) ->
    exists b, path.Match pattern keyPath = Ok b.

(** The filtered children that matched, in order. *)
Definition kept (results : list (value * bool)) : list value :=
  map fst (List.filter snd results).

Definition kept_members (results : list (string * (value * bool)))
  : list (string * value) :=
  map (fun kr => (fst kr, fst (snd kr))) (List.filter (fun kr => snd (snd kr)) results).

(** Rules none of whose response keys is malformed. *)
Definition rules_well_formed (rules : list Rule) : Prop :=
  forall rule pattern,
    In rule rules -> In pattern (ResponseKeys rule) ->
    exists b, path.Match pattern EmptyString = Ok b.

(** A rule of a role is selected: its pattern matches the path and its
    methods cover the method. *)
Definition selects (rr : Role) (urlpath method : string) (rule : Rule) : Prop :=
  exists pattern,
    In (pattern, rule) rr /\
    path.Match pattern urlpath = Ok true /\
    (In "*" (Methods rule) \/ In method (Methods rule)).

(** No malformed pattern among those of the role, for this path. *)
Definition role_well_formed_on (rr : Role) (urlpath : string) : Prop :=
  forall pattern rule,
    In (pattern, rule) rr -> exists b, path.Match pattern urlpath = Ok b.

(** The number of slashes of a string: one less than its number of
    segments. *)
Fixpoint count_slash (s : string) : nat :=
  match s with
  | EmptyString => 0
  | String c s' => if Ascii.eqb c slash then S (count_slash s') else count_slash s'
  end.

(** Patterns made of literal bytes, stars and question marks only: no
    character class and no escape. *)
Fixpoint plain (pattern : string) : bool :=
  match pattern with
  | EmptyString => true
  | String c p' =>
      negb (Ascii.eqb c path.lbracket) && negb (Ascii.eqb c path.backslash) &&
      plain p'
  end.

(** The rest of a path after one of its elements: nothing, or a slash and
    more. *)
Definition at_boundary (p : string) : Prop :=
  p = EmptyString \/ path.starts_with slash p = true.

(** What [Join] appends to a buffer that is not empty. *)
Fixpoint slash_joined (elem : list string) : string :=
  match elem with
  | [] => EmptyString
  | e :: elem' => String slash (e +:+ slash_joined elem')
  end.

(** A string without NUL byte. *)
Definition no_nul (s : string) : Prop := contains_byte NUL s = false.

(** The AEAD opens what it sealed, under the same nonce of the right size,
    and sealing adds the bytes of the tag. *)
Record AEAD_correct (aead : AEAD) : Prop := {
  open_seal : forall nonce plaintext,
    String.length nonce = NonceSize aead ->
    Open aead nonce (Seal aead nonce plaintext) = Some plaintext;
  seal_length : forall nonce plaintext,
    String.length (Seal aead nonce plaintext)
    = (String.length plaintext + Overhead aead)%nat;
  overhead_pos : (0 < Overhead aead)%nat
}.

(** [rand.Read] fills the whole buffer when it succeeds. *)
Definition rand_fills (env : Env) : Prop :=
  forall i n b, rand_Read env i n = Some b -> String.length b = n.

(** Attempt [j] of [Generate] on plaintext [buf] read a nonce and sealed
    to a byte sequence that contains a colon. *)
Definition attempt_has_colon (aead : AEAD) (env : Env) (buf : string) (j : nat)
  : Prop :=
  exists nonce,
    rand_Read env j (NonceSize aead) = Some nonce /\
    contains_byte colon (nonce +:+ Seal aead nonce buf) = true.

(** The roles as [Generate] writes them: each followed by a NUL. *)
Fixpoint roles_bytes (roles : list string) : string :=
  match roles with
  | [] => EmptyString
  | role :: roles' => role +:+ String NUL (roles_bytes roles')
  end.

(** The same JSON value, up to the order in which the members of its
    objects are listed: two lists of the entries of one Go map. *)
#[warnings="-register-all"]
Inductive same_json : value -> value -> Prop :=
| same_null : same_json JNull JNull
| same_bool b : same_json (JBool b) (JBool b)
| same_number f : same_json (JNumber f) (JNumber f)
| same_string s : same_json (JString s) (JString s)
| same_nil : same_json JNilSlice JNilSlice
| same_array l l' :
    Forall2 same_json l l' -> same_json (JArray l) (JArray l')
| same_object m m1 m' :
    Permutation m m1 ->
    Forall2 (fun kv kv' => fst kv = fst kv' /\ same_json (snd kv) (snd kv')) m1 m' ->
    same_json (JObject m) (JObject m').

(** ** Induction over JSON values *)

Section value_induction.
Variable P : value -> Prop.
Hypothesis Hnull : P JNull.
Hypothesis Hbool : forall b, P (JBool b).
Hypothesis Hnumber : forall f, P (JNumber f).
Hypothesis Hstring : forall s, P (JString s).
Hypothesis Hnil : P JNilSlice.
Hypothesis Harray : forall elems, Forall P elems -> P (JArray elems).
Hypothesis Hobject :
  forall members, Forall (fun kv => P (snd kv)) members -> P (JObject members).

Fixpoint value_induction (v : value) : P v :=
  match v with
  | JNull => Hnull
  | JBool b => Hbool b
  | JNumber f => Hnumber f
  | JString s => Hstring s
  | JNilSlice => Hnil
  | JArray elems =>
      Harray elems
        ((fix all (l : list value) : Forall P l :=
            match l with
            | [] => @List.Forall_nil _ P
            | x :: l' => @List.Forall_cons _ P x l' (value_induction x) (all l')
            end) elems)
  | JObject members =>
      Hobject members
        ((fix all (l : list (string * value))
            : Forall (fun kv => P (snd kv)) l :=
            match l with
            | [] => @List.Forall_nil _ _
            | kv :: l' => @List.Forall_cons _ _ kv l' (value_induction (snd kv)) (all l')
            end) members)
  end.
End value_induction.

(** ** The scenario of the repository's tests *)

Module Fixtures.

(** Modelled from the spec: the role file [test-roles.json] that the
    repository's tests load is not among the sources; the two rules, the
    role and the registry below are those of the end-to-end scenario of the
    specification (section 8), with which the expectations of [TestProxy]
    agree. *)
Definition rule_two_segments : Rule :=
  {| Methods := ["GET"]; ResponseKeys := ["id"; "jobs"; "jobs/*"] |}.

Definition rule_four_segments : Rule :=
  {| Methods := ["GET"; "POST"]; ResponseKeys := ["name/first"] |}.

Definition candidates : Role :=
  [("/candidates/*", rule_two_segments);
   ("/candidates/*/*/*", rule_four_segments)].

Definition registry : gmap string Role := {[ "candidates" := candidates ]}.

(** The [float64] 123. *)
Definition float64_123 : Z := 4638355772470722560.

Definition jobs : value :=
  JArray [JObject [("name", JString "me"); ("day", JString "night")];
          JObject [("other", JString "stuff")]].

(** [testResponseJSON] *)
Definition testResponse : value :=
  JObject [("id", JNumber float64_123);
           ("secret", JString "stuff");
           ("jobs", jobs);
           ("name", JObject [("first", JString "Mister"); ("last", JString "T")])].

(** [testFilteredJSON] *)
Definition testFiltered : value :=
  JObject [("id", JNumber float64_123); ("jobs", jobs)].

(** [testFilteredNameJSON] *)
Definition testFilteredName : value :=
  JObject [("name", JObject [("first", JString "Mister")])].

(** A stand-in for AES-GCM that is an AEAD by construction: sealing puts
    a one-byte tag before the plaintext, opening checks the tag. *)
Definition tag_aead : AEAD :=
  {| NonceSize := 12;
     Overhead := 1;
     Seal := fun _ plaintext => String "#" plaintext;
     Open := fun _ sealed =>
               match sealed with
               | String c plaintext =>
                   if Ascii.eqb c "#" then Some plaintext else None
               | EmptyString => None
               end |}.

Definition auth : Auth := {| NewGCM := Ok tag_aead |}.

Fixpoint fill (c : ascii) (n : nat) : string :=
  match n with
  | O => EmptyString
  | S n' => String c (fill c n')
  end.

(** A random source whose first three nonces are all colons. *)
Definition env : Env :=
  {| Now := time_Unix 1445000000 0;
     rand_Read := fun i n => Some (fill (if (i <? 3)%nat then ":" else "N")%char n) |}.

(** A random source that only ever yields colons. *)
Definition env_colons : Env :=
  {| Now := time_Unix 1445000000 0;
     rand_Read := fun _ n => Some (fill ":"%char n) |}.

Definition key : Key :=
  {| CreatedAt := time_Unix 1445000000 500;
     Roles := ["candidates"];
     APIKey := "bar" |}.

(** The key as it comes back from the token. *)
Definition key_opened : Key :=
  {| CreatedAt := truncate_second (CreatedAt key);
     Roles := Roles key;
     APIKey := APIKey key |}.

(** A key whose timestamp does not fit in 32 bits. *)
Definition key_2106 : Key :=
  {| CreatedAt := time_Unix (2 ^ 32 + 5) 0;
     Roles := ["candidates"];
     APIKey := "bar" |}.

(** A key with a role that the registry does not have. *)
Definition key_unknown : Key :=
  {| CreatedAt := time_Unix 1445000000 0;
     Roles := ["candidates"; "unknown"];
     APIKey := "bar" |}.

Definition token_of (k : Key) : string :=
  match snd (Generate auth env k) with
  | Ok token => token
  | Err _ => EmptyString
  end.



Definition upstream_body : string := "{upstream body}".

(** A JSON codec that knows one document. *)
Definition json : JSONCodec :=
  {| Unmarshal := fun input => if String.eqb input upstream_body
                               then Ok testResponse else Err ErrJSON;
     Marshal := fun _ => Ok "{filtered body}" |}.

Definition upstream (code : Z) : Request -> string -> result (string * Response) :=
  fun _ _ => Ok (upstream_body,
                 {| StatusCode := code;
                    ResHeader := [("Foo", ["bar"]); ("Connection", ["close"])] |}).

Definition proxy (code : Z) : Proxy :=
  {| KeyOpener := Auth_Open auth;
     ProxyRoles := registry;
     request := upstream code |}.


Definition get (k : Key) (urlpath : string) : Request :=
  {| Method := "GET"; URLPath := urlpath; BasicAuth := Some (token_of k, "") |}.

(** The header keys of the scenario are canonical as written. *)
Definition canon : string -> string := fun key => key.

(** The writer of a new response: no header yet, and every write is
    taken. *)
Definition writer : ResponseWriter :=
  {| w_Header := ∅; w_Write := fun _ => Ok tt |}.

End Fixtures.

(** ** The key issuance API (api.go) *)

Definition StatusOK : Z := 200.
Definition StatusNotFound : Z := 404.

(** [keyRequest]: the decoded body of a request for a key. *)
Record keyRequest : Type := {
  req_Roles : list string;
  req_APIKey : string
}.

(** [API]: [KeyGen] takes a pointer to the key, which it may change; it
    yields the key as the call leaves it and the token.  [KeyEncoder] encodes
    the token for the response. *)
Record API : Type := {
  KeyGen : Key -> Key * result string;
  KeyEncoder : string -> string;
  APIRoles : gmap string Role
}.

(** The part of an inbound request that [generateKey] reads. *)
Record APIRequest : Type := {
  api_Method : string;
  api_Body : string
}.

(** What [respond] encodes: an [errResponse] (an empty message is omitted
    from the JSON) or a [keyResponse]. *)
Inductive api_payload : Type :=
| ErrorBody (code message : string)
| KeyBody (key : string) (req : keyRequest).

Record APIWritten : Type := {
  api_status : Z;
  api_header : Header;
  api_sent : api_payload
}.

(** How a call of [generateKey] ends: it returns, having written a
    response, or it panics on the error of [KeyGen]. *)
Inductive api_served : Type :=
| APIReturned (w : APIWritten)
| APIPanicked (e : error).

(** [respond(w, data, status)]: the content type is set, [WriteHeader] is
    called unless the status is 0 (the first write then implies 200), and the
    data are encoded to the writer, which takes them. *)
Definition respond (data : api_payload) (status : Z) : api_served :=
  APIReturned {| api_status := if status =? 0 then StatusOK else status;
                 api_header := [("Content-Type", ["application/json"])];
                 api_sent := data |}.

(** The loop of [generateKey] over the requested roles: the first that the
    registry does not have. *)
Fixpoint missing_role (registry : gmap string Role) (roles : list string)
  : option string :=
  match roles with
  | [] => None
  | role :: roles' =>
      match registry !! role with
      | None => Some role
      | Some _ => missing_role registry roles'
      end
  end.

(** The zero [time.Time] of a [Key] literal without [CreatedAt]. *)
Definition zero_time : Time := {| sec := zero_time_sec; nsec := 0 |}.

(** [generateKey]; [decode] stands for [json.NewDecoder(r.Body).Decode] into
    a [keyRequest]. *)
Definition generateKey (decode : string -> result keyRequest) (a : API)
           (r : APIRequest) : api_served :=
  if negb (String.eqb (api_Method r) "POST") then
    respond (ErrorBody "not_found" "") StatusNotFound
  else
    match decode (api_Body r) with
    | Err _ =>
        respond (ErrorBody "invalid_request" "Unable to parse body as JSON.")
                StatusNotFound
    | Ok req =>
        match missing_role (APIRoles a) (req_Roles req) with
        | Some role =>
            respond (ErrorBody "not_found" ("Role " +:+ role +:+ " does not exist"))
                    StatusNotFound
        | None =>
            let key := {| CreatedAt := zero_time;
                          Roles := req_Roles req;
                          APIKey := req_APIKey req |} in
            match snd (KeyGen a key) with
            | Err err => APIPanicked err
            | Ok ciphertext =>
                respond (KeyBody (KeyEncoder a ciphertext) req) StatusOK
            end
        end
    end.

(** The wiring of [build] (main.go): the API and the proxy share the [Auth]
    and the registry. *)
Definition build_api (auth : Auth) (env : Env) (encode : string -> string)
           (roles : gmap string Role) : API :=
  {| KeyGen := Generate auth env; KeyEncoder := encode; APIRoles := roles |}.

Definition build_proxy (auth : Auth) (roles : gmap string Role)
           (transport : Request -> string -> result (string * Response)) : Proxy :=
  {| KeyOpener := Auth_Open auth; ProxyRoles := roles; request := transport |}.

(** ** The outbound request (Proxy.request in proxy.go) *)

(** [strings.Join(elems, sep)] *)
Fixpoint strings_Join (elems : list string) (sep : string) : string :=
  match elems with
  | [] => EmptyString
  | [e] => e
  | e :: elems' => e +:+ sep +:+ strings_Join elems' sep
  end.

(** The header maps of the inbound request [r] and of [outreq]: one map
    that both share after [*outreq = *r], or two maps once [outreq.Header]
    has been replaced by a copy. *)
Inductive headers : Type :=
| Shared (h : HeaderMap)
| Copied (inbound outbound : HeaderMap).

(** [r.Header] *)
Definition r_Header (s : headers) : HeaderMap :=
  match s with
  | Shared h => h
  | Copied inbound _ => inbound
  end.

(** [outreq.Header] *)
Definition outreq_Header (s : headers) : HeaderMap :=
  match s with
  | Shared h => h
  | Copied _ outbound => outbound
  end.

(** [copiedHeaders]: whether [outreq.Header] has been replaced by a copy. *)
Definition copiedHeaders (s : headers) : bool :=
  match s with
  | Shared _ => false
  | Copied _ _ => true
  end.

(** A write through [outreq.Header]: it shows in [r.Header] as long as the
    map is shared. *)
Definition on_outreq (f : HeaderMap -> HeaderMap) (s : headers) : headers :=
  match s with
  | Shared h => Shared (f h)
  | Copied inbound outbound => Copied inbound (f outbound)
  end.

(** The part of the inbound [http.Request] that [request] reads. *)
Record Incoming : Type := {
  in_Method : string;
  in_URL : string;
  in_Header : HeaderMap;
  in_RemoteAddr : string
}.

(** The part of [outreq] that [request] sets or inherits. *)
Record Outgoing : Type := {
  out_Method : string;
  out_URL : string;
  out_Host : string;
  out_Header : HeaderMap
}.

(** The upstream of a [Proxy]: the host of [UpstreamURL], its
    [ResolveReference], and [RoundTrip] of the transport followed by
    [ioutil.ReadAll] of the body. *)
Record Upstream : Type := {
  UpstreamHost : string;
  ResolveReference : string -> string;
  RoundTrip : Outgoing -> result (string * Response)
}.

Section outbound.

(** [textproto.CanonicalMIMEHeaderKey], [base64.StdEncoding.EncodeToString]
    and [net.SplitHostPort]. *)
Variable canon : string -> string.
Variable base64 : string -> string.
Variable SplitHostPort : string -> result (string * string).

(** [outreq.SetBasicAuth(username, password)] *)
Definition SetBasicAuth (s : headers) (username password : string) : headers :=
  on_outreq (fun h => Header_Set canon h "Authorization"
                        ("Basic " +:+ base64 (username +:+ ":" +:+ password))) s.

(** The body of the loop over [hopHeaders]: the header is deleted from
    [outreq.Header] when [Get] finds a value that is not empty, after
    [outreq.Header] has been replaced by a copy of [r.Header] if it was still
    shared. *)
Definition remove_hop (s : headers) (h : string) : headers :=
  if negb (is_empty (Header_Get canon (outreq_Header s) h)) then
    let s' := match s with
              | Shared m => Copied m (copyHeader canon ∅ (map_to_list m))
              | Copied _ _ => s
              end in
    on_outreq (fun m => Header_Del canon m h) s'
  else s.

(** The client address is appended to [X-Forwarded-For]. *)
Definition forward_for (s : headers) (clientIP : string) : headers :=
  let clientIP :=
    match outreq_Header s !! "X-Forwarded-For" with
    | Some prior => strings_Join prior ", " +:+ ", " +:+ clientIP
    | None => clientIP
    end in
  on_outreq (fun h => Header_Set canon h "X-Forwarded-For" clientIP) s.

(** The headers as [request] leaves them before the round trip.  Between
    the loop and the client address, [request] dumps [outreq] to the log,
    which reads the request only. *)
Definition prepare_headers (r : Incoming) (apiKey : string) : headers :=
  let s := SetBasicAuth (Shared (in_Header r)) apiKey EmptyString in
  let s := fold_left remove_hop hopHeaders s in
  match SplitHostPort (in_RemoteAddr r) with
  | Ok (clientIP, _) => forward_for s clientIP
  | Err _ => s
  end.

(** [outreq] as it is passed to the transport: the method is that of the
    inbound request, the URL is resolved against the upstream and the host is
    that of the upstream. *)
Definition outreq (up : Upstream) (r : Incoming) (apiKey : string) : Outgoing :=
  {| out_Method := in_Method r;
     out_URL := ResolveReference up (in_URL r);
     out_Host := UpstreamHost up;
     out_Header := outreq_Header (prepare_headers r apiKey) |}.

(** [Proxy.request]: the header map of the inbound request as the call
    leaves it, and the body and the response of the single round trip, or its
    error. *)
Definition Proxy_request (up : Upstream) (r : Incoming) (apiKey : string)
  : HeaderMap * result (string * Response) :=
  (r_Header (prepare_headers r apiKey), RoundTrip up (outreq up r apiKey)).

End outbound.

(** The header keys that [request] names are canonical already. *)
Definition canon_fixes_named_keys (canon : string -> string) : Prop :=
  Forall (fun key => canon key = key)
         ("Authorization" :: "X-Forwarded-For" :: hopHeaders).

(** A header map all of whose keys are canonical, as the server parses
    it. *)
Definition canonical_keys (canon : string -> string) (h : HeaderMap) : Prop :=
  forall key, is_Some (h !! key) -> canon key = key.

(** A list of the entries of a map, each once, in some order. *)
Definition enumerates (entries : list (string * list string)) (h : HeaderMap)
  : Prop :=
  NoDup (map fst entries) /\
  forall key vv, In (key, vv) entries <-> h !! key = Some vv.

(** ** Further vocabulary: the codec and the filter *)

(** The number of bytes the roles take in the plaintext: each role and the
    NUL after it. *)
Fixpoint roles_size (roles : list string) : nat :=
  match roles with
  | [] => 0
  | role :: roles' => String.length role + 1 + roles_size roles'
  end.

(** The leaves of a value, each with the key path under which [filterJSON]
    tests it, in the order of the traversal. *)
Fixpoint leaves (v : value) (keys : list string) : list (list string * value) :=
  match v with
  | JArray ((_ :: _) as vt) => flat_map (fun ve => leaves ve keys) vt
  | JObject ((_ :: _) as vt) =>
      flat_map (fun kv => leaves (snd kv) (keys ++ [fst kv])%list) vt
  | _ => [(keys, v)]
  end.

(** [checkFilter] answers true, without error, for the key path of a leaf. *)
Definition passes (rules : list Rule) (leaf : list string * value) : bool :=
  match checkFilter rules (fst leaf) with
  | Ok true => true
  | _ => false
  end.

(** The members of an object that pass as leaves when the object is at
    the key path [keys]: each under [keys] followed by its name. *)
Definition passing_members (rules : list Rule) (keys : list string)
           (members : list (string * value)) : list (string * value) :=
  List.filter (fun kv => passes rules ((keys ++ [fst kv])%list, snd kv)) members.

(** The members of a non-empty object all of whose members are leaves. *)
Definition flat_object (members : list (string * value)) : Prop :=
  members <> [] /\ Forall (fun kv => is_leaf (snd kv) = true) members.

(** What the traversal returns for a value none of whose leaves matched: a
    leaf itself, nil for an array, the empty map for an object. *)
Definition emptied (v : value) : value :=
  match v with
  | JArray (_ :: _) => JNilSlice
  | JObject (_ :: _) => JObject []
  | _ => v
  end.


(** Patterns without metacharacter: no star, question mark, opening
    bracket or backslash. *)
Fixpoint literal (pattern : string) : bool :=
  match pattern with
  | EmptyString => true
  | String c p' =>
      negb (Ascii.eqb c path.star_c) && negb (Ascii.eqb c path.qmark) &&
      negb (Ascii.eqb c path.lbracket) && negb (Ascii.eqb c path.backslash) &&
      literal p'
  end.

(** What follows a prefix in a string that starts with it. *)
Fixpoint strip_prefix (prefix s : string) : option string :=
  match prefix, s with
  | EmptyString, _ => Some s
  | String c prefix', String d s' =>
      if Ascii.eqb d c then strip_prefix prefix' s' else None
  | String _ _, EmptyString => None
  end.

(** The response key patterns of a list of rules. *)
Definition response_patterns (rules : list Rule) : list string :=
  flat_map ResponseKeys rules.

(** An entry of a role grants the request: its pattern matches the path,
    without error, and its methods cover the method. *)
Definition grants (urlpath method : string) (entry : string * Rule) : bool :=
  match path.Match (fst entry) urlpath with
  | Ok true => method_allowed (Methods (snd entry)) method
  | _ => false
  end.

(** Two registries with the same roles, the entries of each role listed in
    some order: two iterations over the same Go maps. *)
Definition same_registry (registry registry' : gmap string Role) : Prop :=
  forall role,
    match registry !! role, registry' !! role with
    | Some rr, Some rr' => Permutation rr rr'
    | None, None => True
    | _, _ => False
    end.

(** No pattern of the registry is malformed: neither a path pattern, on the
    path of the request, nor a response key. *)
Definition registry_well_formed_on (registry : gmap string Role)
           (urlpath : string) : Prop :=
  forall role rr,
    registry !! role = Some rr ->
    role_well_formed_on rr urlpath /\ rules_well_formed (map snd rr).

(** The proxy with another transport. *)
Definition with_request (p : Proxy)
           (f : Request -> string -> result (string * Response)) : Proxy :=
  {| KeyOpener := KeyOpener p; ProxyRoles := ProxyRoles p; request := f |}.

(** ** Further scenarios *)

Module Samples.

(** A key whose credential carries a NUL byte. *)
Definition key_nul : Key :=
  {| CreatedAt := time_Unix 1445000000 0;
     Roles := ["candidates"];
     APIKey := "admin" +:+ String NUL "bar" |}.

(** A rule that grants a method and no response key. *)
Definition rule_no_keys : Rule := {| Methods := ["GET"]; ResponseKeys := [] |}.

(** The response keys of [Fixtures.rule_two_segments], as three rules of one
    key each, in another order. *)
Definition rules_split : list Rule :=
  [{| Methods := []; ResponseKeys := ["jobs/*"] |};
   {| Methods := []; ResponseKeys := ["id"] |};
   {| Methods := []; ResponseKeys := ["jobs"; "id"] |}].

(** The proxy of the tests with the entries of its role in the other
    order. *)
Definition proxy_reversed : Proxy :=
  {| KeyOpener := Auth_Open Fixtures.auth;
     ProxyRoles := {[ "candidates" := rev Fixtures.candidates ]};
     request := Fixtures.upstream 200 |}.

(** [testKeyGen] of the tests of the API: the roles, each followed by a
    NUL, and the credential, in the clear. *)
Definition testKeyGen (key : Key) : Key * result string :=
  (key, Ok (write_roles (Roles key) EmptyString +:+ APIKey key)).

(** The API of [TestAPIGenerateKey]. *)
Definition test_api : API :=
  {| KeyGen := testKeyGen;
     KeyEncoder := fun b => b;
     APIRoles := {[ "foo" := [] ]} |}.

(** A decoder that knows one body. *)
Definition decode_request (roles : list string) (credential : string)
  : string -> result keyRequest :=
  fun body => if String.eqb body "{request}"
              then Ok {| req_Roles := roles; req_APIKey := credential |}
              else Err ErrJSON.

Definition post (body : string) : APIRequest :=
  {| api_Method := "POST"; api_Body := body |}.

(** The API and the proxy as [build] wires them, on the registry of the
    tests; the token is not encoded. *)
Definition api : API :=
  build_api Fixtures.auth Fixtures.env (fun b => b) Fixtures.registry.

(** The header keys of the scenarios are canonical as written; the
    credential is not encoded. *)
Definition canon : string -> string := fun key => key.
Definition base64 : string -> string := fun s => s.

Definition SplitHostPort (hostport : string) : result (string * string) :=
  if String.eqb hostport "10.0.0.7:4000" then Ok ("10.0.0.7", "4000")
  else Err (ErrMsg "missing port in address").

(** An inbound request that has been through a proxy, asks to close the
    connection, and carries a header without value. *)
Definition inbound_header : HeaderMap :=
  {[ "Authorization" := ["Basic token:"];
     "Connection" := ["close"];
     "Accept" := ["*/*"];
     "X-Forwarded-For" := ["1.1.1.1"; "2.2.2.2"];
     "X-Empty" := [] ]}.

Definition inbound : Incoming :=
  {| in_Method := "GET";
     in_URL := "/candidates/baz";
     in_Header := inbound_header;
     in_RemoteAddr := "10.0.0.7:4000" |}.

(** The same request without a hop-by-hop header. *)
Definition inbound_plain : Incoming :=
  {| in_Method := "GET";
     in_URL := "/candidates/baz";
     in_Header := {[ "Authorization" := ["Basic token:"]; "Accept" := ["*/*"] ]};
     in_RemoteAddr := "10.0.0.7:4000" |}.

Definition upstream_site : Upstream :=
  {| UpstreamHost := "upstream.example";
     ResolveReference := fun url => "http://upstream.example" +:+ url;
     RoundTrip := fun _ => Ok (Fixtures.upstream_body,
                               {| StatusCode := 200; ResHeader := [] |}) |}.

(** A source of randomness that gives a nonce of colons and then
    fails. *)
Definition env_second_read_fails : Env :=
  {| Now := time_Unix 1445000000 0;
     rand_Read := fun i n => match i with
                             | O => Some (Fixtures.fill ":"%char n)
                             | S _ => None
                             end |}.

(** A writer whose connection is gone: every write fails. *)
Definition writer_closed : ResponseWriter :=
  {| w_Header := ∅; w_Write := fun _ => Err (ErrMsg "write: broken pipe") |}.

(** A writer that holds a header already. *)
Definition writer_dated : ResponseWriter :=
  {| w_Header := {[ "Date" := ["today"] ]}; w_Write := fun _ => Ok tt |}.

(** The proxy of the tests in front of an upstream that answers 200 with a
    body that is not JSON. *)
Definition proxy_not_json : Proxy :=
  {| KeyOpener := Auth_Open Fixtures.auth;
     ProxyRoles := Fixtures.registry;
     request := fun _ _ =>
                  Ok ("<html>", {| StatusCode := 200;
                                   ResHeader := [("Foo", ["bar"])] |}) |}.

(** The proxy of the tests in front of an upstream that cannot be
    reached. *)
Definition proxy_unreachable : Proxy :=
  {| KeyOpener := Auth_Open Fixtures.auth;
     ProxyRoles := Fixtures.registry;
     request := fun _ _ => Err ErrTransport |}.

(** [textproto.CanonicalMIMEHeaderKey]: a key with a byte that is not a
    token byte is left as it is; in another key the first letter and each
    letter after a hyphen are made upper case, the other letters lower
    case. *)
Definition validHeaderFieldByte (c : ascii) : bool :=
  let n := nat_of_ascii c in
  ((48 <=? n)%nat && (n <=? 57)%nat) || ((65 <=? n)%nat && (n <=? 90)%nat) ||
  ((97 <=? n)%nat && (n <=? 122)%nat) ||
  existsb (Ascii.eqb c) (list_ascii_of_string "!#$%&'*+-.^_`|~").

Fixpoint canonical (upper : bool) (s : string) : string :=
  match s with
  | EmptyString => EmptyString
  | String c s' =>
      let n := nat_of_ascii c in
      let c' := if upper && (97 <=? n)%nat && (n <=? 122)%nat
                then ascii_of_nat (n - 32)
                else if negb upper && (65 <=? n)%nat && (n <=? 90)%nat
                     then ascii_of_nat (n + 32)
                     else c in
      String c' (canonical (Ascii.eqb c' "-") s')
  end.

Definition CanonicalMIMEHeaderKey (s : string) : string :=
  if forallb validHeaderFieldByte (list_ascii_of_string s)
  then canonical true s else s.

(** The proxy of the tests in front of an upstream whose header map has a
    key without value and keys that are not canonical. *)
Definition proxy_lower_case : Proxy :=
  {| KeyOpener := Auth_Open Fixtures.auth;
     ProxyRoles := Fixtures.registry;
     request := fun _ _ =>
                  Ok (Fixtures.upstream_body,
                      {| StatusCode := 200;
                         ResHeader := [("X-Empty", []);
                                       ("connection", ["close"]);
                                       ("Keep-Alive", ["5"]);
                                       ("foo", ["bar"; "baz"])] |}) |}.

End Samples.

(** * Properties *)

(** ** path.Match, path.Clean and path.Join on the tables of Go's tests *)

Example Match_tests :
  map (fun '(p, n) => path.Match p n)
      [("abc","abc"); ("*","abc"); ("*c","abc"); ("a*","a"); ("a*","abc");
       ("a*","ab/c"); ("a*/b","abc/b"); ("a*/b","a/c/b");
       ("a*b*c*d*e*/f","axbxcxdxe/f"); ("a*b*c*d*e*/f","axbxcxdxexxx/f");
       ("a*b*c*d*e*/f","axbxcxdxe/xxx/f"); ("a*b*c*d*e*/f","axbxcxdxexxx/fff");
       ("a*b?c*x","abxbbxdbxebxczzx"); ("a*b?c*x","abxbbxdbxebxczzy");
       ("ab[c]","abc"); ("ab[b-d]","abc"); ("ab[e-g]","abc"); ("ab[^c]","abc");
       ("ab[^b-d]","abc"); ("ab[^e-g]","abc"); ("a\*b","a*b"); ("a\*b","ab");
       ("a?b","a/b"); ("a*b","a/b"); ("[\]a]","]"); ("[\-]","-");
       ("[x\-]","x"); ("[x\-]","-"); ("[x\-]","z"); ("[\-x]","x");
       ("[\-x]","-"); ("[\-x]","a"); ("*x","xxx")]
  = map Ok
      [true; true; true; true; true;
       false; true; false;
       true; true;
       false; false;
       true; false;
       true; true; false; false;
       false; true; true; false;
       false; false; true; true;
       true; true; false; true;
       true; false; true].
Proof. vm_compute. reflexivity. Qed.

Example Match_utf8_tests :
  map (fun '(p, n) => path.Match p n)
      [("a?b","a☺b"); ("a[^a]b","a☺b"); ("a???b","a☺b");
       ("a[^a][^a][^a]b","a☺b"); ("[a-ζ]*","α"); ("*[a-ζ]","A")]
  = map Ok [true; true; false; false; true; false].
Proof. vm_compute. reflexivity. Qed.

Example Match_bad_pattern_tests :
  map (fun '(p, n) => path.Match p n)
      [("[]a]","]"); ("[-]","-"); ("[x-]","x"); ("[x-]","-"); ("[x-]","z");
       ("[-x]","x"); ("[-x]","-"); ("[-x]","a"); ("\","a"); ("[a-b-c]","a");
       ("[","a"); ("[^","a"); ("[^bc","a"); ("a[","a"); ("a[","ab");
       ("a[","x"); ("a/b[","x")]
  = repeat (Err ErrBadPattern) 17.
Proof. vm_compute. reflexivity. Qed.

Example Clean_tests :
  map path.Clean
      [""; "abc"; "abc/def"; "a/b/c"; "."; ".."; "../.."; "../../abc"; "/abc";
       "/"; "abc/"; "abc/def/"; "a/b/c/"; "./"; "../"; "../../"; "/abc/";
       "abc//def//ghi"; "//abc"; "///abc"; "//abc//"; "abc//";
       "abc/./def"; "/./abc/def"; "abc/.";
       "abc/def/ghi/../jkl"; "abc/def/../ghi/../jkl"; "abc/def/..";
       "abc/def/../.."; "/abc/def/../.."; "abc/def/../../..";
       "/abc/def/../../.."; "abc/def/../../../ghi/jkl/../../../mno";
       "abc/./../def"; "abc//./../def"; "abc/../../././../def"]
  = ["."; "abc"; "abc/def"; "a/b/c"; "."; ".."; "../.."; "../../abc"; "/abc";
     "/"; "abc"; "abc/def"; "a/b/c"; "."; ".."; "../.."; "/abc";
     "abc/def/ghi"; "/abc"; "/abc"; "/abc"; "abc";
     "abc/def"; "/abc/def"; "abc";
     "abc/def/jkl"; "abc/jkl"; "abc";
     "."; "/"; "..";
     "/"; "../../mno";
     "def"; "def"; "../../def"].
Proof. vm_compute. reflexivity. Qed.

Example Join_tests :
  map path.Join
      [[]; [""]; ["a"]; ["a"; "b"]; ["a"; ""]; [""; "b"]; ["/"; "a"];
       ["/"; ""]; ["a/"; "b"]; ["a/"; ""]; [""; ""]]
  = [""; ""; "a"; "a/b"; "a"; "b"; "/a"; "/"; "a/b"; "a"; ""].
Proof. vm_compute. reflexivity. Qed.

(** ** The loops of the filter *)

Lemma bind_Ok {A B : Type} (r : result A) (k : A -> result B) (b : B) :
  r ≫= k = Ok b -> exists a, r = Ok a /\ k a = Ok b.
Proof.
  destruct r as [a|e]; cbn; intros H; [eauto | discriminate].
Qed.

Lemma bind_Ok_eq {A B : Type} (a : A) (k : A -> result B) : Ok a ≫= k = k a.
Proof. reflexivity. Qed.

Lemma bind_Err_eq {A B : Type} (e : error) (k : A -> result B) :
  Err e ≫= k = Err e.
Proof. reflexivity. Qed.

Lemma filter_elems_app f vt vf r :
  filter_elems f vt vf = Ok r ->
  exists sv, r = (vf ++ sv)%list /\
             Forall (fun x => exists ve, In ve vt /\ f ve = Ok (x, true)) sv /\
             (sv = [] -> Forall (fun ve => exists x, f ve = Ok (x, false)) vt).
Proof.
  revert vf r. induction vt as [|ve vt IH]; cbn; intros vf r H.
  - injection H as <-. exists []. rewrite app_nil_r. auto.
  - destruct (f ve) as [[ve' matched]|e] eqn:Hf; [|discriminate].
    apply IH in H as (sv & -> & Hsv & Hnone).
    assert (Hsv' : Forall (fun x => exists ve0, In ve0 (ve :: vt) /\
                                   f ve0 = Ok (x, true)) sv).
    { eapply List.Forall_impl; [|exact Hsv]. cbn. intros x (ve0 & Hin & Hx). eauto. }
    destruct matched.
    + exists (ve' :: sv). rewrite <- app_assoc. cbn. split; [reflexivity|].
      split; [|discriminate].
      constructor; [exists ve; cbn; auto | exact Hsv'].
    + exists sv. split; [reflexivity|]. split; [exact Hsv'|].
      intros Hnil. constructor; [eauto | auto].
Qed.

Lemma filter_elems_keep f vt vf :
  Forall (fun x => f x = Ok (x, true)) vt ->
  filter_elems f vt vf = Ok (vf ++ vt)%list.
Proof.
  intros H. revert vf. induction H as [|x vt Hx _ IH]; cbn; intros vf.
  - now rewrite app_nil_r.
  - rewrite Hx, IH, <- app_assoc. reflexivity.
Qed.

Lemma filter_members_app f vt vf r :
  filter_members f vt vf = Ok r ->
  exists sv, r = (vf ++ sv)%list /\
             Forall (fun kx => exists ve, In (fst kx, ve) vt /\
                                          f (fst kx) ve = Ok (snd kx, true)) sv /\
             (sv = [] ->
              Forall (fun kv => exists x, f (fst kv) (snd kv) = Ok (x, false)) vt).
Proof.
  revert vf r. induction vt as [|[k ve] vt IH]; cbn; intros vf r H.
  - injection H as <-. exists []. rewrite app_nil_r. auto.
  - destruct (f k ve) as [[ve' matched]|e] eqn:Hf; [|discriminate].
    apply IH in H as (sv & -> & Hsv & Hnone).
    assert (Hsv' : Forall (fun kx => exists ve0, In (fst kx, ve0) ((k, ve) :: vt) /\
                                    f (fst kx) ve0 = Ok (snd kx, true)) sv).
    { eapply List.Forall_impl; [|exact Hsv]. cbn. intros x (ve0 & Hin & Hx). eauto. }
    destruct matched.
    + exists ((k, ve') :: sv). rewrite <- app_assoc. cbn. split; [reflexivity|].
      split; [|discriminate].
      constructor; [exists ve; cbn; auto | exact Hsv'].
    + exists sv. split; [reflexivity|]. split; [exact Hsv'|].
      intros Hnil. constructor; [cbn; eauto | auto].
Qed.

Lemma filter_members_keep f vt vf :
  Forall (fun kx => f (fst kx) (snd kx) = Ok (snd kx, true)) vt ->
  filter_members f vt vf = Ok (vf ++ vt)%list.
Proof.
  intros H. revert vf. induction H as [|[k x] vt Hx _ IH]; cbn; intros vf.
  - now rewrite app_nil_r.
  - cbn in Hx. rewrite Hx, IH, <- app_assoc. reflexivity.
Qed.

(** Unfolding equations of [filterJSON]. *)
Lemma filterJSON_array ve vt rules keys :
  filterJSON (JArray (ve :: vt)) rules keys =
  vf ← filter_elems (fun x => filterJSON x rules keys) (ve :: vt) [];
  Ok (slice_of vf, nonempty vf).
Proof. reflexivity. Qed.

Lemma filterJSON_object kv vt rules keys :
  filterJSON (JObject (kv :: vt)) rules keys =
  vf ← filter_members (fun k x => filterJSON x rules (keys ++ [k])%list)
                      (kv :: vt) [];
  Ok (JObject vf, nonempty vf).
Proof. reflexivity. Qed.

Lemma filterJSON_leaf v rules keys :
  is_leaf v = true ->
  filterJSON v rules keys = (matched ← checkFilter rules keys; Ok (v, matched)).
Proof.
  destruct v as [| | | | |[|]|[|]]; cbn; intros H; try reflexivity; discriminate.
Qed.

(** A subtree that the filter keeps is kept unchanged by a second pass. *)
Lemma filterJSON_kept_again v :
  forall rules keys v',
    filterJSON v rules keys = Ok (v', true) ->
    filterJSON v' rules keys = Ok (v', true).
Proof.
  induction v as [| | | | |elems IH|members IH] using value_induction;
    intros rules keys v' H;
    try (rewrite filterJSON_leaf in H by reflexivity;
         apply bind_Ok in H as (m & Hc & Hm); injection Hm as <- ->;
         rewrite filterJSON_leaf by reflexivity; now rewrite Hc).
  - destruct elems as [|ve vt].
    { rewrite filterJSON_leaf in H by reflexivity.
      apply bind_Ok in H as (m & Hc & Hm); injection Hm as <- ->.
      rewrite filterJSON_leaf by reflexivity; now rewrite Hc. }
    rewrite filterJSON_array in H.
    apply bind_Ok in H as (vf & Hloop & Hres). injection Hres as <- Hne.
    apply filter_elems_app in Hloop as (sv & -> & Hsv & _).
    destruct sv as [|x sv]; [discriminate|].
    change (slice_of ([] ++ x :: sv)%list) with (JArray (x :: sv)).
    rewrite filterJSON_array.
    rewrite filter_elems_keep; [reflexivity|].
    eapply List.Forall_impl; [|exact Hsv]. intros y (ve0 & Hin & Hy).
    rewrite List.Forall_forall in IH. eapply IH; eauto.
  - destruct members as [|kv vt].
    { rewrite filterJSON_leaf in H by reflexivity.
      apply bind_Ok in H as (m & Hc & Hm); injection Hm as <- ->.
      rewrite filterJSON_leaf by reflexivity; now rewrite Hc. }
    rewrite filterJSON_object in H.
    apply bind_Ok in H as (vf & Hloop & Hres). injection Hres as <- Hne.
    apply filter_members_app in Hloop as (sv & -> & Hsv & _).
    destruct sv as [|x sv]; [discriminate|].
    change ([] ++ x :: sv)%list with (x :: sv).
    rewrite filterJSON_object.
    rewrite filter_members_keep; [reflexivity|].
    eapply List.Forall_impl; [|exact Hsv]. intros [k y] (ve0 & Hin & Hy).
    rewrite List.Forall_forall in IH. eapply (IH (k, ve0)); eauto.
Qed.

(** ** path.Match: whether a pattern is malformed does not depend on the name *)

Module path_facts.
Import path.

Lemma class_loop_indep fuel : forall chunk r m n b c,
  class_loop fuel chunk r m n = Ok (b, c) ->
  forall r' m', exists b', class_loop fuel chunk r' m' n = Ok (b', c).
Proof.
  induction fuel as [|fuel IH]; intros chunk r m n b c H r' m'; [discriminate|].
  cbn [class_loop] in *.
  destruct (starts_with rbracket chunk && (0 <? n)%nat).
  - injection H as <- <-. eauto.
  - apply bind_Ok in H as ([lo chunk1] & -> & H). cbn in H |- *.
    apply bind_Ok in H as ([hi chunk2] & -> & H).
    cbn. eapply IH. exact H.
Qed.

Lemma matchChunk_loop_indep fuel : forall chunk s failed x,
  matchChunk_loop fuel chunk s failed = Ok x ->
  forall s' failed', exists x', matchChunk_loop fuel chunk s' failed' = Ok x'.
Proof.
  induction fuel as [|fuel IH]; intros chunk s failed x H s' failed';
    [cbn; eauto|].
  cbn [matchChunk_loop] in *.
  destruct chunk as [|c chunk']; [eauto|].
  destruct (Ascii.eqb c lbracket).
  - set (rs := if failed || is_empty s then _ else _) in H.
    set (rs' := if failed' || is_empty s' then _ else _).
    destruct rs as [r t], rs' as [r' t'].
    set (ch := if starts_with caret chunk' then tail chunk' else chunk') in *.
    apply bind_Ok in H as ([b c1] & Hc & H).
    destruct (class_loop_indep _ _ _ _ _ _ _ Hc r' false) as (b' & ->).
    cbn. eapply IH. exact H.
  - destruct (Ascii.eqb c qmark).
    + destruct (failed || is_empty s), (failed' || is_empty s');
        repeat match goal with
               | |- context [let '(_, _) := ?e in _] => destruct e
               | H : context [let '(_, _) := ?e in _] |- _ => destruct e
               end; eapply IH; exact H.
    + destruct (Ascii.eqb c backslash).
      * destruct chunk' as [|d chunk'']; [discriminate|].
        destruct (failed || is_empty s), (failed' || is_empty s');
          eapply IH; exact H.
      * destruct (failed || is_empty s), (failed' || is_empty s');
          eapply IH; exact H.
Qed.

Lemma matchChunk_indep chunk s x :
  matchChunk chunk s = Ok x -> forall s', exists x', matchChunk chunk s' = Ok x'.
Proof.
  intros H s'. eapply matchChunk_loop_indep. exact H.
Qed.

(** Once the match has failed it stays failed. *)
Lemma matchChunk_loop_failed fuel : forall chunk s x,
  matchChunk_loop fuel chunk s true = Ok x -> x = None.
Proof.
  induction fuel as [|fuel IH]; intros chunk s x H; cbn [matchChunk_loop] in H.
  - now injection H as <-.
  - destruct chunk as [|c chunk']; [now injection H as <-|].
    cbn [orb] in H.
    destruct (Ascii.eqb c lbracket).
    + apply bind_Ok in H as ([b c1] & _ & H). cbn in H. eapply IH. exact H.
    + destruct (Ascii.eqb c qmark); [eapply IH; exact H|].
      destruct (Ascii.eqb c backslash); [|eapply IH; exact H].
      destruct chunk'; [discriminate|]. eapply IH. exact H.
Qed.

(** Against the empty name only the empty chunk matches. *)
Lemma matchChunk_empty_name chunk t :
  matchChunk chunk EmptyString = Ok (Some t) -> chunk = EmptyString /\ t = EmptyString.
Proof.
  unfold matchChunk. destruct chunk as [|c chunk']; cbn [String.length matchChunk_loop].
  - intros H. now injection H as <-.
  - cbn [orb is_empty]. intros H. exfalso.
    destruct (Ascii.eqb c lbracket).
    + apply bind_Ok in H as ([b c1] & _ & H). cbn in H.
      apply matchChunk_loop_failed in H. discriminate.
    + destruct (Ascii.eqb c qmark);
        [apply matchChunk_loop_failed in H; discriminate|].
      destruct (Ascii.eqb c backslash).
      * destruct chunk'; [discriminate|].
        apply matchChunk_loop_failed in H; discriminate.
      * apply matchChunk_loop_failed in H; discriminate.
Qed.

Lemma strip_stars_length p : forall star star' p',
  strip_stars p star = (star', p') -> (String.length p' <= String.length p)%nat.
Proof.
  induction p as [|c p IH]; cbn; intros star star' p' H.
  - injection H as <- <-. cbn. lia.
  - destruct (Ascii.eqb c star_c).
    + apply IH in H. lia.
    + injection H as <- <-. cbn. lia.
Qed.

Lemma strip_stars_head p : forall star star' p',
  strip_stars p star = (star', p') -> starts_with star_c p' = false.
Proof.
  induction p as [|c p IH]; cbn; intros star star' p' H.
  - now injection H as <- <-.
  - destruct (Ascii.eqb c star_c) eqn:Hc.
    + eapply IH. exact H.
    + injection H as <- <-. cbn. exact Hc.
Qed.

Lemma scan_length n : forall p inrange chunk rest,
  (String.length p <= n)%nat ->
  scan p inrange = (chunk, rest) ->
  (String.length chunk + String.length rest = String.length p)%nat.
Proof.
  induction n as [|n IH]; intros p inrange chunk rest Hn H.
  - destruct p; [|cbn in Hn; lia]. cbn in H. now injection H as <- <-.
  - destruct p as [|c p]; [cbn in H; now injection H as <- <-|].
    cbn [scan] in H. cbn [String.length] in Hn.
    assert (Hcons : forall d q b ch rs,
               (String.length q <= n)%nat ->
               cons_fst d (scan q b) = (ch, rs) ->
               (String.length ch + String.length rs = S (String.length q))%nat).
    { intros d q b ch rs Hq Hs. destruct (scan q b) as [a r] eqn:Hq'.
      unfold cons_fst in Hs. cbn in Hs. injection Hs as <- <-.
      apply IH in Hq'; [|exact Hq]. cbn. lia. }
    destruct (Ascii.eqb c backslash).
    { destruct p as [|d p]; [injection H as <- <-; reflexivity|].
      cbn [String.length] in *.
      destruct (scan p inrange) as [a r] eqn:Hp.
      unfold cons_fst in H. cbn in H. injection H as <- <-.
      apply IH in Hp; [|lia]. cbn. lia. }
    destruct (Ascii.eqb c lbracket); [eapply Hcons; [lia|exact H]|].
    destruct (Ascii.eqb c rbracket); [eapply Hcons; [lia|exact H]|].
    destruct (Ascii.eqb c star_c).
    { destruct inrange; [eapply Hcons; [lia|exact H]|].
      injection H as <- <-. reflexivity. }
    eapply Hcons; [lia|exact H].
Qed.

(** A chunk that [scan] returns from a pattern not starting with a star is
    empty only when the pattern is. *)
Lemma scan_chunk_empty p rest :
  starts_with star_c p = false ->
  scan p false = (EmptyString, rest) -> p = EmptyString /\ rest = EmptyString.
Proof.
  destruct p as [|c p]; cbn [scan starts_with]; intros Hs H.
  - now injection H as <-.
  - exfalso. rewrite Hs in H.
    destruct (Ascii.eqb c backslash).
    { destruct p; [discriminate|]. unfold cons_fst in H. discriminate. }
    destruct (Ascii.eqb c lbracket); [unfold cons_fst in H; discriminate|].
    destruct (Ascii.eqb c rbracket); unfold cons_fst in H; discriminate.
Qed.

Lemma scanChunk_spec pattern star chunk rest :
  scanChunk pattern = (star, chunk, rest) ->
  (String.length chunk + String.length rest <= String.length pattern)%nat /\
  (chunk = EmptyString -> rest = EmptyString) /\
  (pattern <> EmptyString -> (String.length rest < String.length pattern)%nat).
Proof.
  unfold scanChunk. destruct (strip_stars pattern false) as [st p] eqn:Hst.
  destruct (scan p false) as [ch rs] eqn:Hsc. intros H. injection H as <- <- <-.
  pose proof (strip_stars_length _ _ _ _ Hst) as Hlen.
  pose proof (strip_stars_head _ _ _ _ Hst) as Hhead.
  pose proof (scan_length _ _ _ _ _ (Nat.le_refl _) Hsc) as Hsum.
  split; [lia|]. split.
  - intros ->. apply scan_chunk_empty in Hsc; tauto.
  - intros Hne. destruct ch as [|c ch].
    + apply scan_chunk_empty in Hsc as [-> ->]; [|exact Hhead].
      destruct pattern; [congruence|]. cbn. lia.
    + cbn in Hsum. lia.
Qed.

Lemma check_rest_empty fuel : check_rest fuel EmptyString = Ok tt.
Proof. destruct fuel; reflexivity. Qed.

Lemma check_rest_fuel fuel1 : forall fuel2 pattern,
  (String.length pattern <= fuel1)%nat ->
  (String.length pattern <= fuel2)%nat ->
  check_rest fuel1 pattern = check_rest fuel2 pattern.
Proof.
  induction fuel1 as [|fuel1 IH]; intros fuel2 pattern H1 H2.
  - destruct pattern; [|cbn in H1; lia]. now rewrite !check_rest_empty.
  - destruct fuel2 as [|fuel2].
    { destruct pattern; [|cbn in H2; lia]. now rewrite !check_rest_empty. }
    cbn [check_rest]. destruct (is_empty pattern) eqn:He; [reflexivity|].
    destruct (scanChunk pattern) as [[star chunk] rest] eqn:Hs.
    apply scanChunk_spec in Hs as (_ & _ & Hlt).
    assert (Hne : pattern <> EmptyString) by (intros ->; discriminate).
    specialize (Hlt Hne).
    rewrite (IH fuel2 rest) by lia. reflexivity.
Qed.

(** A pattern on which [Match] returns without error is well formed. *)
Lemma Match_loop_ok_check_rest fuel : forall pattern name b,
  (String.length pattern <= fuel)%nat ->
  Match_loop fuel pattern name = Ok b ->
  check_rest fuel pattern = Ok tt.
Proof.
  induction fuel as [|fuel IH]; intros pattern name b Hlen H; [reflexivity|].
  cbn [Match_loop check_rest] in *.
  destruct (is_empty pattern) eqn:He; [reflexivity|].
  assert (Hne : pattern <> EmptyString) by (intros ->; discriminate).
  destruct (scanChunk pattern) as [[star chunk] rest] eqn:Hs.
  apply scanChunk_spec in Hs as (_ & Hempty & Hlt). specialize (Hlt Hne).
  destruct (star && is_empty chunk) eqn:Htrail.
  - apply andb_true_iff in Htrail as [_ Hc].
    destruct chunk; [|discriminate]. rewrite (Hempty eq_refl).
    cbn. apply check_rest_empty.
  - apply bind_Ok in H as (m & Hm & H).
    destruct (matchChunk_indep _ _ _ Hm EmptyString) as (x' & ->). cbn.
    assert (Hrest : forall t, Match_loop fuel rest t = Ok b ->
                              check_rest fuel rest = Ok tt).
    { intros t Ht. eapply IH; [lia | exact Ht]. }
    match type of H with
    | match ?here with _ => _ end = _ => destruct here as [t|]
    end; [eapply Hrest; exact H|].
    apply bind_Ok in H as (m' & _ & H).
    destruct m' as [t|]; [eapply Hrest; exact H|].
    apply bind_Ok in H as ([] & Hc & _).
    rewrite (check_rest_fuel fuel (String.length rest) rest) by lia.
    exact Hc.
Qed.

Lemma star_skip_total chunk last x0 :
  matchChunk chunk EmptyString = Ok x0 ->
  forall name, exists m, star_skip chunk last name = Ok m.
Proof.
  intros Hc name. induction name as [|c name IH]; cbn [star_skip]; [eauto|].
  destruct (Ascii.eqb c slash); [eauto|].
  destruct (matchChunk_indep _ _ _ Hc name) as (m & ->). cbn.
  destruct m as [t|]; [|exact IH].
  destruct (last && negb (is_empty t)); [exact IH | eauto].
Qed.

(** On a well-formed pattern [Match] returns without error for every
    name. *)
Lemma check_rest_Match_loop_total fuel : forall pattern name,
  (String.length pattern <= fuel)%nat ->
  check_rest fuel pattern = Ok tt ->
  exists b, Match_loop fuel pattern name = Ok b.
Proof.
  induction fuel as [|fuel IH]; intros pattern name Hlen H; [cbn; eauto|].
  cbn [Match_loop check_rest] in *.
  destruct (is_empty pattern) eqn:He; [eauto|].
  assert (Hne : pattern <> EmptyString) by (intros ->; discriminate).
  destruct (scanChunk pattern) as [[star chunk] rest] eqn:Hs.
  apply scanChunk_spec in Hs as (_ & Hempty & Hlt). specialize (Hlt Hne).
  destruct (star && is_empty chunk); [eauto|].
  apply bind_Ok in H as (m0 & Hm0 & H).
  destruct (matchChunk_indep _ _ _ Hm0 name) as (m & ->). cbn.
  assert (Hnext : forall t, exists b, Match_loop fuel rest t = Ok b).
  { intros t. apply IH; [lia | exact H]. }
  match goal with
  | |- exists b, match ?here with _ => _ end = _ => destruct here as [t|]
  end; [apply Hnext|].
  assert (Hskip : exists m', (if star then star_skip chunk (is_empty rest) name
                              else Ok None) = Ok m').
  { destruct star; [|eauto]. eapply star_skip_total. exact Hm0. }
  destruct Hskip as (m' & ->). cbn.
  destruct m' as [t|]; [apply Hnext|].
  rewrite (check_rest_fuel (String.length rest) fuel rest) by lia.
  rewrite H. cbn. eauto.
Qed.

(** Whether [Match] reports [ErrBadPattern] depends on the pattern only. *)
Theorem Match_error_independent pattern name b :
  Match pattern name = Ok b -> forall name', exists b', Match pattern name' = Ok b'.
Proof.
  unfold Match. intros H name'.
  apply check_rest_Match_loop_total; [lia|].
  eapply Match_loop_ok_check_rest; [|exact H]. lia.
Qed.

End path_facts.

(** ** The whitelist test *)

Lemma check_keys_true patterns keyPath :
  check_keys patterns keyPath = Ok true ->
  exists pattern, In pattern patterns /\ path.Match pattern keyPath = Ok true.
Proof.
  induction patterns as [|p ps IH]; cbn [check_keys]; intros H; [discriminate|].
  apply bind_Ok in H as ([|] & Hm & H).
  - exists p. split; [left; reflexivity | exact Hm].
  - destruct (IH H) as (q & Hin & Hq). exists q. split; [right|]; assumption.
Qed.

Lemma check_keys_false patterns keyPath :
  check_keys patterns keyPath = Ok false ->
  forall pattern, In pattern patterns -> path.Match pattern keyPath = Ok false.
Proof.
  induction patterns as [|p ps IH]; cbn [check_keys]; intros H q Hin;
    [destruct Hin|].
  apply bind_Ok in H as ([|] & Hm & H); [discriminate|].
  destruct Hin as [<-|Hin]; [exact Hm | now apply IH].
Qed.

Lemma check_keys_total patterns keyPath :
  (forall pattern, In pattern patterns ->
                   exists b, path.Match pattern keyPath = Ok b) ->
  exists m, check_keys patterns keyPath = Ok m.
Proof.
  induction patterns as [|p ps IH]; cbn [check_keys]; intros H; [eauto|].
  destruct (H p (or_introl eq_refl)) as ([|] & ->); cbn; [eauto|].
  apply IH. intros q Hq. apply H. now right.
Qed.

Lemma check_rules_true rules keyPath :
  check_rules rules keyPath = Ok true -> whitelisted rules keyPath.
Proof.
  induction rules as [|r rs IH]; cbn [check_rules]; intros H; [discriminate|].
  apply bind_Ok in H as ([|] & Hm & H).
  - apply check_keys_true in Hm as (p & Hin & Hp).
    exists r, p. split; [left; reflexivity|]. split; assumption.
  - destruct (IH H) as (r' & p & Hr & Hin & Hp).
    exists r', p. split; [right; assumption|]. split; assumption.
Qed.

Lemma check_rules_false rules keyPath :
  check_rules rules keyPath = Ok false ->
  forall rule pattern,
    In rule rules -> In pattern (ResponseKeys rule) ->
    path.Match pattern keyPath = Ok false.
Proof.
  induction rules as [|r rs IH]; cbn [check_rules]; intros H r' p Hr Hp;
    [destruct Hr|].
  apply bind_Ok in H as ([|] & Hm & H); [discriminate|].
  destruct Hr as [<-|Hr].
  - eapply check_keys_false; eassumption.
  - eapply IH; eassumption.
Qed.

Lemma check_rules_total rules keyPath :
  well_formed_on rules keyPath -> exists m, check_rules rules keyPath = Ok m.
Proof.
  induction rules as [|r rs IH]; cbn [check_rules]; intros H; [eauto|].
  destruct (check_keys_total (ResponseKeys r) keyPath) as ([|] & ->).
  - intros p Hp. eapply H; [left; reflexivity | exact Hp].
  - cbn. eauto.
  - cbn. apply IH. intros r' p Hr Hp. eapply H; [right|]; eassumption.
Qed.

(** What [checkFilter] answers, whenever it answers. *)
Lemma checkFilter_spec rules keys m :
  checkFilter rules keys = Ok m ->
  (m = true <-> whitelisted rules (path.Join keys)).
Proof.
  unfold checkFilter. intros H. destruct m.
  - split; [intros _; now apply check_rules_true | reflexivity].
  - split; [discriminate|].
    intros (r & p & Hr & Hp & Hm).
    rewrite (check_rules_false _ _ H r p Hr Hp) in Hm. discriminate.
Qed.

(** A pass that drops everything has tested some key path against every
    pattern without finding one malformed. *)
Lemma filterJSON_dropped_tested v :
  forall rules keys v',
    filterJSON v rules keys = Ok (v', false) ->
    exists keys0, checkFilter rules keys0 = Ok false.
Proof.
  induction v as [| | | | |elems IH|members IH] using value_induction;
    intros rules keys v' H;
    try (rewrite filterJSON_leaf in H by reflexivity;
         apply bind_Ok in H as (m & Hc & Hm); injection Hm as <- ->;
         exists keys; exact Hc).
  - destruct elems as [|ve vt].
    { rewrite filterJSON_leaf in H by reflexivity.
      apply bind_Ok in H as (m & Hc & Hm); injection Hm as <- ->.
      exists keys; exact Hc. }
    rewrite filterJSON_array in H.
    apply bind_Ok in H as (vf & Hloop & Hres). injection Hres as <- Hne.
    apply filter_elems_app in Hloop as (sv & -> & _ & Hnone).
    destruct sv as [|x sv]; [|discriminate].
    specialize (Hnone eq_refl).
    apply List.Forall_inv in Hnone as (x & Hx).
    apply List.Forall_inv in IH. eapply IH. exact Hx.
  - destruct members as [|[k ve] vt].
    { rewrite filterJSON_leaf in H by reflexivity.
      apply bind_Ok in H as (m & Hc & Hm); injection Hm as <- ->.
      exists keys; exact Hc. }
    rewrite filterJSON_object in H.
    apply bind_Ok in H as (vf & Hloop & Hres). injection Hres as <- Hne.
    apply filter_members_app in Hloop as (sv & -> & _ & Hnone).
    destruct sv as [|x sv]; [|discriminate].
    specialize (Hnone eq_refl).
    apply List.Forall_inv in Hnone as (x & Hx).
    apply List.Forall_inv in IH. eapply IH. exact Hx.
Qed.

Lemma checkFilter_root_total rules keys0 :
  checkFilter rules keys0 = Ok false -> exists m, checkFilter rules [] = Ok m.
Proof.
  unfold checkFilter. intros H. apply check_rules_total.
  intros r p Hr Hp.
  eapply path_facts.Match_error_independent.
  eapply check_rules_false; eassumption.
Qed.

(** When [Filter v R] returns a value, filtering that value again with the
    same rules returns it unchanged. *)
Lemma Filter_fixed_point (v : value) (R : list Rule) (v' : value) :
  Filter v R = Ok v' -> Filter v' R = Ok v'.
Proof.
  unfold Filter. intros H.
  apply bind_Ok in H as ([w m] & H & Hw). injection Hw as ->.
  destruct m.
  - now rewrite (filterJSON_kept_again _ _ _ _ H).
  - assert (Hleaf : is_leaf v' = true -> exists m, filterJSON v' R [] = Ok (v', m)).
    { intros Hl. rewrite filterJSON_leaf by exact Hl.
      destruct (filterJSON_dropped_tested _ _ _ _ H) as (keys0 & Hk).
      destruct (checkFilter_root_total _ _ Hk) as (m & ->). cbn. eauto. }
    assert (Hv' : is_leaf v' = true).
    { destruct v as [| | | | |[|ve vt]|[|kv vt]];
        try (rewrite filterJSON_leaf in H by reflexivity;
             apply bind_Ok in H as (m & _ & Hm); injection Hm as <- _;
             reflexivity).
      - rewrite filterJSON_array in H.
        apply bind_Ok in H as ([|x vf] & _ & Hres); [|discriminate].
        now injection Hres as <-.
      - rewrite filterJSON_object in H.
        apply bind_Ok in H as ([|x vf] & _ & Hres); [|discriminate].
        now injection Hres as <-. }
    destruct (Hleaf Hv') as (m & ->). reflexivity.
Qed.

(** ** The traversal in terms of the results of the children *)

Lemma filter_elems_mapM f vt : forall vf,
  filter_elems f vt vf = (results ← mapM f vt; Ok (vf ++ kept results)%list).
Proof.
  induction vt as [|ve vt IH]; intros vf; cbn.
  - now rewrite app_nil_r.
  - destruct (f ve) as [[x m]|e]; cbn; [|reflexivity].
    rewrite IH. destruct (mapM f vt) as [results|e]; cbn; [|reflexivity].
    unfold kept. cbn. destruct m; cbn; [|reflexivity].
    now rewrite <- app_assoc.
Qed.

Lemma filter_members_mapM f vt : forall vf,
  filter_members f vt vf =
  (results ← mapM (fun kv => r ← f (fst kv) (snd kv); Ok (fst kv, r)) vt;
   Ok (vf ++ kept_members results)%list).
Proof.
  induction vt as [|[k ve] vt IH]; intros vf; cbn.
  - now rewrite app_nil_r.
  - destruct (f k ve) as [[x m]|e]; cbn; [|reflexivity].
    rewrite IH.
    destruct (mapM _ vt) as [results|e]; cbn; [|reflexivity].
    unfold kept_members. cbn. destruct m; cbn; [|reflexivity].
    now rewrite <- app_assoc.
Qed.

Lemma filterJSON_array_mapM ve vt rules keys :
  filterJSON (JArray (ve :: vt)) rules keys =
  (results ← mapM (fun x => filterJSON x rules keys) (ve :: vt);
   Ok (slice_of (kept results), nonempty (kept results))).
Proof.
  rewrite filterJSON_array, filter_elems_mapM.
  destruct (mapM _ (ve :: vt)) as [results|e]; reflexivity.
Qed.

Lemma filterJSON_object_mapM kv vt rules keys :
  filterJSON (JObject (kv :: vt)) rules keys =
  (results ← mapM (fun kx => r ← filterJSON (snd kx) rules (keys ++ [fst kx])%list;
                             Ok (fst kx, r)) (kv :: vt);
   Ok (JObject (kept_members results), nonempty (kept_members results))).
Proof.
  rewrite filterJSON_object, filter_members_mapM.
  destruct (mapM _ (kv :: vt)) as [results|e]; reflexivity.
Qed.

Lemma rules_well_formed_on rules keyPath :
  rules_well_formed rules -> well_formed_on rules keyPath.
Proof.
  intros H r p Hr Hp. destruct (H r p Hr Hp) as (b & Hb).
  eapply path_facts.Match_error_independent. exact Hb.
Qed.

Lemma checkFilter_total rules keys :
  rules_well_formed rules -> exists m, checkFilter rules keys = Ok m.
Proof.
  intros H. apply check_rules_total. now apply rules_well_formed_on.
Qed.

Lemma mapM_total {A B : Type} (f : A -> result B) (l : list A) :
  Forall (fun x => exists y, f x = Ok y) l -> exists ys, mapM f l = Ok ys.
Proof.
  induction 1 as [|x l (y & Hy) _ (ys & IH)]; cbn; [eauto|].
  rewrite Hy. cbn. rewrite IH. cbn. eauto.
Qed.

(** With well-formed rules the filter always returns a value. *)
Lemma filterJSON_total rules :
  rules_well_formed rules ->
  forall v keys, exists r, filterJSON v rules keys = Ok r.
Proof.
  intros Hwf v.
  induction v as [| | | | |elems IH|members IH] using value_induction;
    intros keys;
    try (rewrite filterJSON_leaf by reflexivity;
         destruct (checkFilter_total rules keys Hwf) as (m & ->); cbn; eauto).
  - destruct elems as [|ve vt].
    { rewrite filterJSON_leaf by reflexivity.
      destruct (checkFilter_total rules keys Hwf) as (m & ->); cbn; eauto. }
    rewrite filterJSON_array_mapM.
    destruct (mapM_total (fun x => filterJSON x rules keys) (ve :: vt))
      as (ys & ->); [|cbn; eauto].
    eapply List.Forall_impl; [|exact IH]. intros x Hx. apply Hx.
  - destruct members as [|kv vt].
    { rewrite filterJSON_leaf by reflexivity.
      destruct (checkFilter_total rules keys Hwf) as (m & ->); cbn; eauto. }
    rewrite filterJSON_object_mapM.
    match goal with |- context [mapM ?f _] =>
      destruct (mapM_total f (kv :: vt)) as (ys & ->); [|cbn; eauto] end.
    eapply List.Forall_impl; [|exact IH]. intros [k x] Hx. cbn in *.
    destruct (Hx (keys ++ [k])%list) as (r & ->). cbn. eauto.
Qed.

(** ** The scenario of the repository's tests *)

Example authorize_tests :
  map (fun '(p, m) => authorize Fixtures.registry ["candidates"] p m [])
      [("/foo", "GET"); ("/candidates", "GET"); ("/candidates/baz", "GET");
       ("/candidates/baz", "POST"); ("/candidates/baz/boz", "GET");
       ("/candidates/baz/boz/42", "GET"); ("/candidates/baz/boz/42", "POST")]
  = [Matched []; Matched []; Matched [Fixtures.rule_two_segments];
     Matched []; Matched [];
     Matched [Fixtures.rule_four_segments];
     Matched [Fixtures.rule_four_segments]].
Proof. vm_compute. reflexivity. Qed.

Example Filter_tests :
  Filter Fixtures.testResponse [Fixtures.rule_two_segments]
    = Ok Fixtures.testFiltered /\
  Filter Fixtures.testResponse [Fixtures.rule_four_segments]
    = Ok Fixtures.testFilteredName.
Proof. split; vm_compute; reflexivity. Qed.

(** ** The authorization loops *)

Lemma method_allowed_spec methods method :
  method_allowed methods method = true <->
  In "*" methods \/ In method methods.
Proof.
  induction methods as [|m ms IH]; cbn [method_allowed In].
  - split; [discriminate | tauto].
  - destruct (String.eqb m "*") eqn:Hstar; cbn [orb].
    + apply String.eqb_eq in Hstar. tauto.
    + destruct (String.eqb m method) eqn:Hm.
      * apply String.eqb_eq in Hm. tauto.
      * apply String.eqb_neq in Hstar, Hm. rewrite IH.
        split; [tauto|]. intros [[H|H]|[H|H]]; try tauto; congruence.
Qed.

Lemma match_role_spec rr urlpath method : forall acc matches,
  match_role rr urlpath method acc = Ok matches ->
  forall rule, In rule matches <-> In rule acc \/ selects rr urlpath method rule.
Proof.
  induction rr as [|[pattern r] rr IH]; cbn [match_role]; intros acc matches H rule.
  - injection H as <-. split; [tauto|].
    intros [Hin|(p & [] & _)]. exact Hin.
  - apply bind_Ok in H as (matched & Hm & H).
    assert (Hskip : forall acc',
               match_role rr urlpath method acc' = Ok matches ->
               (In rule acc' <-> In rule acc) ->
               ~ (path.Match pattern urlpath = Ok true /\
                  method_allowed (Methods r) method = true) ->
               In rule matches <-> In rule acc \/ selects (((pattern, r)) :: rr) urlpath method rule).
    { intros acc' Hacc' Hsame Hno. rewrite (IH _ _ Hacc' rule), Hsame.
      split.
      - intros [Hin|(p & Hp & Hmatch & Hmeth)]; [tauto|].
        right. exists p. split; [right; exact Hp | tauto].
      - intros [Hin|(p & [Heq|Hp] & Hmatch & Hmeth)]; [tauto| |].
        + injection Heq as <- <-. exfalso. apply Hno.
          split; [exact Hmatch | now apply method_allowed_spec].
        + right. exists p. tauto. }
    destruct matched; cbn [negb] in H.
    + destruct (method_allowed (Methods r) method) eqn:Hmeth.
      * rewrite (IH _ _ H rule), in_app_iff. cbn [In].
        apply method_allowed_spec in Hmeth. split.
        -- intros [[Hin|[<-|[]]]|(p & Hp & Hmatch & Hmeth')]; [tauto| |].
           ++ right. exists pattern. split; [left; reflexivity | tauto].
           ++ right. exists p. split; [right; exact Hp | tauto].
        -- intros [Hin|(p & [Heq|Hp] & Hmatch & Hmeth')]; [tauto| |].
           ++ injection Heq as <- <-. tauto.
           ++ right. exists p. tauto.
      * apply (Hskip acc H); [tauto|]. intros [_ Hc]. congruence.
    + apply (Hskip acc H); [tauto|]. intros [Hc _]. congruence.
Qed.

Lemma match_role_total rr urlpath method : forall acc,
  (forall pattern rule, In (pattern, rule) rr ->
                        exists b, path.Match pattern urlpath = Ok b) ->
  exists matches, match_role rr urlpath method acc = Ok matches.
Proof.
  induction rr as [|[pattern r] rr IH]; cbn [match_role]; intros acc H; [eauto|].
  destruct (H pattern r (or_introl eq_refl)) as (b & ->). cbn.
  assert (Hrest : forall acc', exists matches,
               match_role rr urlpath method acc' = Ok matches).
  { intros acc'. apply IH. intros p' r' Hin. eapply H. right. exact Hin. }
  destruct b; cbn; [|apply Hrest].
  destruct (method_allowed (Methods r) method); apply Hrest.
Qed.

(** What the completed loops have collected. *)
Lemma authorize_Matched registry roles urlpath method : forall acc matches,
  authorize registry roles urlpath method acc = Matched matches ->
  Forall (fun role => is_Some (registry !! role)) roles /\
  forall rule,
    In rule matches <->
    In rule acc \/
    exists role rr, In role roles /\ registry !! role = Some rr /\
                    selects rr urlpath method rule.
Proof.
  induction roles as [|role roles IH]; cbn [authorize]; intros acc matches H.
  - injection H as <-. split; [constructor|].
    intros rule. split; [tauto|]. intros [Hin|(r & rr & [] & _)]. exact Hin.
  - destruct (registry !! role) as [rr|] eqn:Hrole; [|discriminate].
    destruct (match_role rr urlpath method acc) as [acc'|e] eqn:Hrr; [|discriminate].
    destruct (IH _ _ H) as (Hall & Hrules).
    split; [constructor; [rewrite Hrole; eauto | exact Hall]|].
    intros rule. rewrite (Hrules rule), (match_role_spec _ _ _ _ _ Hrr rule).
    split.
    + intros [[Hin|Hsel]|(r & rr' & Hr & Hreg & Hsel)]; [tauto| |].
      * right. exists role, rr. split; [left; reflexivity | tauto].
      * right. exists r, rr'. split; [right; exact Hr | tauto].
    + intros [Hin|(r & rr' & [<-|Hr] & Hreg & Hsel)]; [tauto| |].
      * rewrite Hrole in Hreg. injection Hreg as <-. tauto.
      * right. exists r, rr'. tauto.
Qed.

Lemma authorize_total registry roles urlpath method : forall acc,
  Forall (fun role => exists rr, registry !! role = Some rr /\
                                 role_well_formed_on rr urlpath) roles ->
  exists matches, authorize registry roles urlpath method acc = Matched matches.
Proof.
  induction roles as [|role roles IH]; cbn [authorize]; intros acc H; [eauto|].
  apply List.Forall_cons_iff in H as ((rr & -> & Hwf) & H).
  destruct (match_role_total rr urlpath method acc Hwf) as (acc' & ->).
  apply IH. exact H.
Qed.



(** ** path.Match: stars and question marks stay within a segment *)

Module segment_facts.
Import path path_facts.

Lemma has_slash_count s : has_slash s = false -> count_slash s = 0%nat.
Proof.
  induction s as [|c s IH]; cbn; [reflexivity|].
  destruct (Ascii.eqb c slash); cbn; [discriminate | exact IH].
Qed.

Lemma byte_val_slash c : 128 <= byte_val c -> Ascii.eqb c slash = false.
Proof.
  intros H. apply Ascii.eqb_neq. intros ->. vm_compute in H. now apply H.
Qed.

Lemma byte_at_high s i :
  128 <= byte_at s i -> exists c, String.get i s = Some c /\ Ascii.eqb c slash = false.
Proof.
  unfold byte_at. destruct (String.get i s) as [c|]; [|lia].
  intros H. exists c. split; [reflexivity | now apply byte_val_slash].
Qed.

(** The width of a rune, and that the bytes after its first one are not
    ASCII. *)
Lemma decode_width s r n :
  s <> EmptyString ->
  utf8.DecodeRuneInString s = (r, n) ->
  n = 1%nat \/
  (n = 2%nat /\ 128 <= byte_at s 1) \/
  (n = 3%nat /\ 128 <= byte_at s 1 /\ 128 <= byte_at s 2) \/
  (n = 4%nat /\ 128 <= byte_at s 1 /\ 128 <= byte_at s 2 /\ 128 <= byte_at s 3).
Proof.
  intros Hs. unfold utf8.DecodeRuneInString.
  replace (String.length s <? 1)%nat with false
    by (destruct s; [congruence | reflexivity]).
  assert (Hx : In (utf8.first (byte_at s 0))
                  [utf8.as_; utf8.xx; utf8.s1; utf8.s2; utf8.s3; utf8.s4;
                   utf8.s5; utf8.s6; utf8.s7]).
  { unfold utf8.first.
    repeat match goal with
           | |- context [if ?b then _ else _] => destruct b
           end; cbn; tauto. }
  revert Hx. generalize (utf8.first (byte_at s 0)) as x.
  generalize (byte_at s 0) as b0, (byte_at s 1) as b1, (byte_at s 2) as b2,
             (byte_at s 3) as b3, (String.length s) as len.
  intros b0 b1 b2 b3 len x Hx H.
  destruct (utf8.as_ <=? x) eqn:Has; [injection H as _ <-; auto|].
  assert (Hlo : 128 <= fst (utf8.acceptRanges (Z.shiftr x 4))).
  { cbn [In] in Hx.
    repeat (destruct Hx as [<-|Hx]);
      try (vm_compute in Has; discriminate);
      try (vm_compute; discriminate).
    destruct Hx. }
  destruct (utf8.acceptRanges (Z.shiftr x 4)) as [lo hi]. cbn [fst] in Hlo.
  unfold utf8.locb, utf8.hicb in H.
  repeat match type of H with
         | (if ?b then _ else _) = _ => destruct b eqn:?
         end;
    injection H as _ <-; auto;
    repeat match goal with
           | E : (_ <? _) || (_ <? _) = false |- _ =>
               apply orb_false_iff in E as [?%Z.ltb_ge ?%Z.ltb_ge]
           end;
    first [ right; left; split; [reflexivity | lia]
          | right; right; left; split; [reflexivity | lia]
          | right; right; right; split; [reflexivity | lia] ].
Qed.

(** A rune that does not start with a slash contains none. *)
Lemma decode_skips_no_slash c s r n :
  Ascii.eqb c slash = false ->
  utf8.DecodeRuneInString (String c s) = (r, n) ->
  (1 <= n)%nat /\ count_slash (skip n (String c s)) = count_slash (String c s).
Proof.
  intros Hc H. apply decode_width in H; [|discriminate].
  destruct s as [|c1 [|c2 [|c3 s]]];
    destruct H as [->|[(-> & H1)|[(-> & H1 & H2)|(-> & H1 & H2 & H3)]]];
    (split; [lia|]);
    unfold byte_at in *; cbn [String.get] in *; try lia;
    repeat match goal with
           | E : 128 <= byte_val _ |- _ => apply byte_val_slash in E
           end;
    cbn [skip count_slash];
    repeat match goal with
           | E : Ascii.eqb _ slash = false |- _ => rewrite E; clear E
           end; reflexivity.
Qed.

Lemma plain_cons c p :
  plain (String c p) = true ->
  Ascii.eqb c lbracket = false /\ Ascii.eqb c backslash = false /\ plain p = true.
Proof.
  cbn [plain]. intros H.
  apply andb_true_iff in H as [H Hp]. apply andb_true_iff in H as [H1 H2].
  apply negb_true_iff in H1, H2. auto.
Qed.

Lemma qmark_not_slash c : Ascii.eqb c qmark = true -> Ascii.eqb c slash = false.
Proof. intros H%Ascii.eqb_eq. now subst. Qed.

Lemma star_not_slash c : Ascii.eqb c star_c = true -> Ascii.eqb c slash = false.
Proof. intros H%Ascii.eqb_eq. now subst. Qed.

(** A chunk without class or escape consumes as many slashes of the name
    as it contains. *)
Lemma matchChunk_loop_slashes fuel : forall chunk s t,
  plain chunk = true ->
  (String.length chunk <= fuel)%nat ->
  matchChunk_loop fuel chunk s false = Ok (Some t) ->
  count_slash s = (count_slash chunk + count_slash t)%nat.
Proof.
  induction fuel as [|fuel IH]; intros chunk s t Hp Hlen H.
  - destruct chunk; [|cbn in Hlen; lia]. cbn in H. now injection H as <-.
  - destruct chunk as [|c chunk']; [cbn in H; now injection H as <-|].
    apply plain_cons in Hp as (Hlb & Hbs & Hp).
    cbn [String.length] in Hlen.
    cbn [matchChunk_loop] in H. rewrite Hlb, Hbs in H. cbn [orb] in H.
    destruct s as [|d s'].
    { cbn [is_empty] in H. exfalso.
      destruct (Ascii.eqb c qmark);
        apply matchChunk_loop_failed in H; discriminate. }
    cbn [is_empty] in H.
    destruct (Ascii.eqb c qmark) eqn:Hq.
    + destruct (utf8.DecodeRuneInString (String d s')) as [r n] eqn:Hd.
      cbn [starts_with] in H.
      destruct (Ascii.eqb d slash) eqn:Hds;
        [apply matchChunk_loop_failed in H; discriminate|].
      apply decode_skips_no_slash in Hd as [_ Hd]; [|exact Hds].
      apply IH in H; [|exact Hp|lia].
      rewrite <- Hd, H. cbn [count_slash]. now rewrite (qmark_not_slash _ Hq).
    + cbn [starts_with tail skip] in H.
      destruct (Ascii.eqb d c) eqn:Hdc; cbn [negb] in H;
        [|apply matchChunk_loop_failed in H; discriminate].
      apply Ascii.eqb_eq in Hdc as ->.
      apply IH in H; [|exact Hp|lia].
      cbn [count_slash]. rewrite H. destruct (Ascii.eqb c slash); reflexivity.
Qed.

Lemma matchChunk_slashes chunk s t :
  plain chunk = true ->
  matchChunk chunk s = Ok (Some t) ->
  count_slash s = (count_slash chunk + count_slash t)%nat.
Proof.
  intros Hp H. eapply matchChunk_loop_slashes; [exact Hp | | exact H]. lia.
Qed.

Lemma star_skip_slashes chunk last name : forall t,
  plain chunk = true ->
  star_skip chunk last name = Ok (Some t) ->
  count_slash name = (count_slash chunk + count_slash t)%nat.
Proof.
  induction name as [|c name IH]; cbn [star_skip]; intros t Hp H; [discriminate|].
  destruct (Ascii.eqb c slash) eqn:Hc; [discriminate|].
  apply bind_Ok in H as (m & Hm & H).
  cbn [count_slash]. rewrite Hc.
  destruct m as [t'|]; [|now apply IH].
  destruct (last && negb (is_empty t')); [now apply IH|].
  injection H as <-. now apply matchChunk_slashes.
Qed.

Lemma strip_stars_plain p : forall star star' p',
  plain p = true ->
  strip_stars p star = (star', p') ->
  plain p' = true /\ count_slash p' = count_slash p.
Proof.
  induction p as [|c p IH]; intros star star' p' Hp H.
  - cbn in H. injection H as <- <-. auto.
  - cbn [strip_stars] in H. destruct (Ascii.eqb c star_c) eqn:Hc.
    + apply plain_cons in Hp as (_ & _ & Hp).
      destruct (IH _ _ _ Hp H) as [H1 H2]. split; [exact H1|].
      cbn [count_slash]. now rewrite (star_not_slash _ Hc).
    + injection H as <- <-. auto.
Qed.

Lemma scan_plain p : forall chunk rest,
  plain p = true ->
  scan p false = (chunk, rest) ->
  plain chunk = true /\ plain rest = true /\
  count_slash p = (count_slash chunk + count_slash rest)%nat.
Proof.
  induction p as [|c p IH]; intros chunk rest Hp H.
  - cbn in H. injection H as <- <-. auto.
  - pose proof Hp as Hp0.
    apply plain_cons in Hp as (Hlb & Hbs & Hp).
    cbn [scan] in H. rewrite Hlb, Hbs in H.
    assert (Hcons : cons_fst c (scan p false) = (chunk, rest) ->
              plain chunk = true /\ plain rest = true /\
              count_slash (String c p) = (count_slash chunk + count_slash rest)%nat).
    { destruct (scan p false) as [a b] eqn:Hs. unfold cons_fst. cbn [fst snd].
      intros Heq. injection Heq as <- <-.
      destruct (IH _ _ Hp eq_refl) as (Ha & Hb & Hcount).
      split; [cbn [plain]; now rewrite Hlb, Hbs, Ha|].
      split; [exact Hb|].
      cbn [count_slash]. rewrite Hcount. destruct (Ascii.eqb c slash); reflexivity. }
    destruct (Ascii.eqb c rbracket); [exact (Hcons H)|].
    destruct (Ascii.eqb c star_c); [|exact (Hcons H)].
    injection H as <- <-. auto.
Qed.

Lemma scanChunk_plain pattern star chunk rest :
  plain pattern = true ->
  scanChunk pattern = (star, chunk, rest) ->
  plain chunk = true /\ plain rest = true /\
  count_slash pattern = (count_slash chunk + count_slash rest)%nat.
Proof.
  unfold scanChunk. intros Hp H.
  destruct (strip_stars pattern false) as [st p] eqn:Hst.
  destruct (scan p false) as [ch rs] eqn:Hsc. injection H as <- <- <-.
  destruct (strip_stars_plain _ _ _ _ Hp Hst) as [Hp' Hcount].
  destruct (scan_plain _ _ _ Hp' Hsc) as (H1 & H2 & H3).
  rewrite <- Hcount. auto.
Qed.

Lemma Match_loop_slashes fuel : forall pattern name,
  plain pattern = true ->
  (String.length pattern <= fuel)%nat ->
  Match_loop fuel pattern name = Ok true ->
  count_slash name = count_slash pattern.
Proof.
  induction fuel as [|fuel IH]; intros pattern name Hp Hlen H.
  - destruct pattern; [|cbn in Hlen; lia]. cbn in H.
    destruct name; [reflexivity | discriminate].
  - cbn [Match_loop] in H.
    destruct (is_empty pattern) eqn:He.
    { destruct pattern; [|discriminate]. destruct name; [reflexivity | discriminate]. }
    assert (Hne : pattern <> EmptyString) by (intros ->; discriminate).
    destruct (scanChunk pattern) as [[star chunk] rest] eqn:Hs.
    destruct (scanChunk_plain _ _ _ _ Hp Hs) as (Hpc & Hpr & Hcount).
    apply scanChunk_spec in Hs as (_ & Hempty & Hlt). specialize (Hlt Hne).
    destruct (star && is_empty chunk) eqn:Htrail.
    + apply andb_true_iff in Htrail as [_ Hc]. destruct chunk; [|discriminate].
      rewrite (Hempty eq_refl) in Hcount. rewrite Hcount.
      injection H as H. apply negb_true_iff in H. now apply has_slash_count.
    + apply bind_Ok in H as (m & Hm & H).
      assert (Hnext : forall t0 t, Match_loop fuel rest t = Ok true ->
                 count_slash t0 = (count_slash chunk + count_slash t)%nat ->
                 count_slash t0 = count_slash pattern).
      { intros t0 t Ht Hc. rewrite Hc, Hcount. f_equal. apply IH; [exact Hpr|lia|exact Ht]. }
      destruct m as [t|].
      * pose proof (matchChunk_slashes _ _ _ Hpc Hm) as Hhere.
        destruct (is_empty t || negb (is_empty rest)); [eapply Hnext; eassumption|].
        apply bind_Ok in H as (m' & Hm' & H).
        destruct m' as [t'|].
        -- destruct star; [|discriminate].
           eapply Hnext; [exact H|]. eapply star_skip_slashes; eassumption.
        -- apply bind_Ok in H as (? & _ & H). discriminate.
      * apply bind_Ok in H as (m' & Hm' & H).
        destruct m' as [t'|].
        -- destruct star; [|discriminate].
           eapply Hnext; [exact H|]. eapply star_skip_slashes; eassumption.
        -- apply bind_Ok in H as (? & _ & H). discriminate.
Qed.

(** A pattern of literals, stars and question marks matches only names
    with as many slashes as it has itself: neither [*] nor [?] matches
    across a slash. *)
Theorem Match_same_segments pattern name :
  plain pattern = true ->
  path.Match pattern name = Ok true ->
  count_slash name = count_slash pattern.
Proof.
  intros Hp H. eapply Match_loop_slashes; [exact Hp | | exact H]. lia.
Qed.

End segment_facts.

(** ** path.Clean and path.Join: empty elements leave no trace *)

Module clean_facts.
Import path.
#[local] Arguments String.append !s1 s2 : simpl nomatch.

Lemma str_app_assoc (a b c : string) : (a +:+ b) +:+ c = a +:+ (b +:+ c).
Proof.
  induction a as [|x a IH]; simpl; [reflexivity | now rewrite IH].
Qed.

Lemma str_app_nil_r (a : string) : a +:+ EmptyString = a.
Proof.
  induction a as [|x a IH]; simpl; [reflexivity | now rewrite IH].
Qed.

Lemma str_length_app (a b : string) :
  String.length (a +:+ b) = (String.length a + String.length b)%nat.
Proof.
  induction a as [|x a IH]; simpl; [reflexivity | now rewrite IH].
Qed.

Lemma copy_element_length p : forall rout p' rout',
  copy_element p rout = (p', rout') -> (String.length p' <= String.length p)%nat.
Proof.
  induction p as [|c p IH]; cbn [copy_element]; intros rout p' rout' H.
  - injection H as <- _. lia.
  - destruct (Ascii.eqb c slash).
    + injection H as <- _. lia.
    + apply IH in H. cbn. lia.
Qed.

Lemma copy_element_cons c p rout :
  Ascii.eqb c slash = false ->
  copy_element (String c p) rout = copy_element p (c :: rout).
Proof. intros H. cbn [copy_element]. now rewrite H. Qed.

Lemma tail_length p : (String.length (tail p) <= String.length p)%nat.
Proof. destruct p; cbn; lia. Qed.

Lemma clean_loop_fuel f1 : forall f2 p rooted rout dotdot,
  (String.length p <= f1)%nat -> (String.length p <= f2)%nat ->
  clean_loop f1 p rooted rout dotdot = clean_loop f2 p rooted rout dotdot.
Proof.
  induction f1 as [|f1 IH]; intros f2 p rooted rout dotdot H1 H2.
  - destruct p; [|cbn in H1; lia]. destruct f2; reflexivity.
  - destruct f2 as [|f2]; [destruct p; [reflexivity | cbn in H2; lia]|].
    destruct p as [|c p1]; [reflexivity|].
    cbn [String.length] in H1, H2. cbn [clean_loop].
    pose proof (tail_length p1) as Htl.
    destruct (Ascii.eqb c slash) eqn:Hc; [apply IH; lia|].
    destruct (Ascii.eqb c dot && (is_empty p1 || starts_with slash p1));
      [apply IH; lia|].
    destruct (Ascii.eqb c dot && starts_with dot p1 &&
              (is_empty (tail p1) || starts_with slash (tail p1))).
    { destruct (dotdot <? length rout)%nat; [apply IH; lia|].
      destruct (negb rooted); apply IH; lia. }
    cbn [copy_element]. rewrite Hc.
    match goal with
    | |- context [copy_element p1 ?r] =>
        destruct (copy_element p1 r) as [p' rout2] eqn:Hce
    end.
    apply copy_element_length in Hce. apply IH; lia.
Qed.

Lemma at_boundary_slash z : at_boundary (String slash z).
Proof. right. reflexivity. Qed.

Lemma boundary_end_or_slash x y y' :
  at_boundary y -> at_boundary y' ->
  is_empty (x +:+ y) || starts_with slash (x +:+ y) =
  is_empty (x +:+ y') || starts_with slash (x +:+ y').
Proof.
  intros Hy Hy'. destruct x as [|c x]; cbn; [|reflexivity].
  assert (H : forall w, at_boundary w -> is_empty w || starts_with slash w = true).
  { intros w [->|Hw]; [reflexivity|]. rewrite Hw. apply orb_true_r. }
  now rewrite !H.
Qed.

Lemma boundary_not_dot y : at_boundary y -> starts_with dot y = false.
Proof.
  intros [->|H]; [reflexivity|].
  destruct y as [|c y]; [discriminate|]. cbn in *.
  apply Ascii.eqb_eq in H as ->. reflexivity.
Qed.

Lemma copy_element_boundary y rout :
  at_boundary y -> copy_element y rout = (y, rout).
Proof.
  intros [->|H]; [reflexivity|].
  destruct y as [|c y]; [discriminate|]. cbn in *. now rewrite H.
Qed.

(** Copying an element stops within [x] or at its end, whatever follows
    the boundary. *)
Lemma copy_element_app x : forall rout,
  exists x' rout',
    (String.length x' <= String.length x)%nat /\
    forall y, at_boundary y -> copy_element (x +:+ y) rout = (x' +:+ y, rout').
Proof.
  induction x as [|c x IH]; intros rout.
  - exists EmptyString, rout. split; [lia|]. intros y Hy. cbn.
    now apply copy_element_boundary.
  - destruct (Ascii.eqb c slash) eqn:Hc.
    + exists (String c x), rout. split; [lia|]. intros y _. cbn. now rewrite Hc.
    + destruct (IH (c :: rout)) as (x' & rout' & Hlen & Hcopy).
      exists x', rout'. split; [cbn; lia|]. intros y Hy. cbn. rewrite Hc.
      now apply Hcopy.
Qed.

(** A slash before a boundary is an empty path element: [Clean] skips it. *)
Lemma clean_loop_extra_slash n : forall x z rooted rout dotdot f1 f2,
  (String.length x <= n)%nat ->
  at_boundary z ->
  (String.length (x +:+ String slash z) <= f1)%nat ->
  (String.length (x +:+ z) <= f2)%nat ->
  clean_loop f1 (x +:+ String slash z) rooted rout dotdot =
  clean_loop f2 (x +:+ z) rooted rout dotdot.
Proof.
  induction n as [|n IH]; intros x z rooted rout dotdot f1 f2 Hn Hz Hf1 Hf2.
  - destruct x; [|cbn in Hn; lia]. cbn [String.append] in *.
    destruct f1 as [|f1]; [cbn in Hf1; lia|].
    cbn [clean_loop]. change (Ascii.eqb slash slash) with true. cbv iota.
    cbn [String.length] in Hf1. apply clean_loop_fuel; lia.
  - destruct x as [|c x1]; [apply (IH EmptyString); [cbn; lia|assumption..]|].
    cbn [String.length] in Hn. cbn [String.append String.length] in *.
    destruct f1 as [|f1]; [lia|]. destruct f2 as [|f2]; [lia|].
    pose proof (at_boundary_slash z) as Hsz.
    cbn [clean_loop].
    destruct (Ascii.eqb c slash) eqn:Hc; [apply IH; [lia|assumption|lia|lia]|].
    rewrite (boundary_end_or_slash x1 (String slash z) z Hsz Hz).
    destruct (Ascii.eqb c dot && (is_empty (x1 +:+ z) || starts_with slash (x1 +:+ z)));
      [apply IH; [lia|assumption|lia|lia]|].
    destruct x1 as [|d x2].
    + (* the element ends with [c] *)
      cbn [String.append String.length] in *. rewrite (boundary_not_dot _ Hsz), (boundary_not_dot _ Hz).
      rewrite andb_false_r. cbn [andb].
      rewrite !(copy_element_cons c) by exact Hc.
      rewrite (copy_element_boundary _ _ Hsz), (copy_element_boundary _ _ Hz).
      apply (IH EmptyString); [cbn; lia | assumption | cbn in *; lia | cbn in *; lia].
    + cbn [String.append String.length] in *. cbn [starts_with tail skip].
      rewrite (boundary_end_or_slash x2 (String slash z) z Hsz Hz).
      destruct (Ascii.eqb c dot && Ascii.eqb d dot &&
                (is_empty (x2 +:+ z) || starts_with slash (x2 +:+ z))).
      { destruct (dotdot <? length rout)%nat; [apply IH; [lia|assumption|lia|lia]|].
        destruct (negb rooted); apply IH; solve [lia | assumption]. }
      rewrite !(copy_element_cons c) by exact Hc.
      match goal with
      | |- context [copy_element (String d (x2 +:+ String slash z)) ?r] =>
          destruct (copy_element_app (String d x2) r) as (x' & rout' & Hlen & Hcopy)
      end.
      cbn [String.append] in Hcopy.
      rewrite (Hcopy _ Hsz), (Hcopy _ Hz).
      cbn [String.length] in Hlen.
      pose proof (str_length_app x' (String slash z)) as L1.
      pose proof (str_length_app x' z) as L2.
      pose proof (str_length_app x2 (String slash z)) as L3.
      pose proof (str_length_app x2 z) as L4.
      apply IH; [lia | assumption | lia | lia].
Qed.

Lemma Clean_extra_slash b z :
  b <> EmptyString -> at_boundary z ->
  Clean (b +:+ String slash z) = Clean (b +:+ z).
Proof.
  intros Hb Hz. destruct b as [|c b]; [congruence|].
  unfold Clean. cbn [String.append].
  pose proof (str_length_app b (String slash z)) as L1.
  pose proof (str_length_app b z) as L2.
  destruct (Ascii.eqb c slash).
  - rewrite (clean_loop_extra_slash (String.length b) b z true [slash] 1
               (String.length (String c (b +:+ String slash z)))
               (String.length (String c (b +:+ z))));
      [reflexivity|..]; cbn [String.length]; solve [lia | assumption].
  - pose proof (clean_loop_extra_slash (String.length (String c b)) (String c b) z
                  false [] 0
                  (String.length (String c (b +:+ String slash z)))
                  (String.length (String c (b +:+ z)))) as E.
    cbn [String.append] in E. rewrite E; [reflexivity|..];
      cbn [String.length]; solve [lia | assumption].
Qed.

Lemma join_loop_app l1 l2 buf :
  join_loop (l1 ++ l2)%list buf = join_loop l2 (join_loop l1 buf).
Proof.
  revert buf. induction l1 as [|e l1 IH]; intros buf; cbn [join_loop app];
    [reflexivity|].
  destruct (negb (is_empty buf) || negb (is_empty e)); apply IH.
Qed.

Lemma join_loop_nonempty l : forall buf,
  buf <> EmptyString -> join_loop l buf = buf +:+ slash_joined l.
Proof.
  induction l as [|e l IH]; intros buf Hb; cbn [join_loop slash_joined].
  - now rewrite str_app_nil_r.
  - destruct buf as [|c buf]; [congruence|]. cbn [is_empty negb orb].
    rewrite IH by discriminate.
    cbn [String.append]. f_equal.
    rewrite !str_app_assoc. reflexivity.
Qed.

Lemma slash_joined_boundary l : at_boundary (slash_joined l).
Proof. destruct l; [left | right]; reflexivity. Qed.

Lemma join_size_app l1 l2 a :
  fold_left (fun n e => (n + String.length e)%nat) (l1 ++ EmptyString :: l2)%list a =
  fold_left (fun n e => (n + String.length e)%nat) (l1 ++ l2)%list a.
Proof.
  rewrite !fold_left_app. cbn [fold_left String.length]. now rewrite Nat.add_0_r.
Qed.

(** An element that is the empty string contributes nothing to the
    joined path. *)
Theorem Join_empty_element l1 l2 :
  Join (l1 ++ EmptyString :: l2)%list = Join (l1 ++ l2)%list.
Proof.
  unfold Join. rewrite join_size_app.
  destruct (_ =? 0)%nat; [reflexivity|].
  rewrite !join_loop_app. cbn [join_loop].
  destruct (join_loop l1 EmptyString) as [|c b] eqn:Hb; [reflexivity|].
  cbn [is_empty negb orb].
  rewrite str_app_nil_r.
  rewrite (join_loop_nonempty l2 (String c b)) by discriminate.
  rewrite (join_loop_nonempty l2 (String c b +:+ "/")) by discriminate.
  rewrite str_app_assoc.
  change ("/" +:+ slash_joined l2) with (String slash (slash_joined l2)).
  apply Clean_extra_slash; [discriminate | apply slash_joined_boundary].
Qed.

Lemma join_size_ge l : forall a,
  (a <= fold_left (fun n e => (n + String.length e)%nat) l a)%nat.
Proof.
  induction l as [|e l IH]; intros a; cbn [fold_left]; [lia|].
  specialize (IH (a + String.length e)%nat). lia.
Qed.

Lemma join_size_pos l1 e l2 :
  e <> EmptyString ->
  (fold_left (fun n e => (n + String.length e)%nat) (l1 ++ e :: l2)%list 0
   =? 0)%nat = false.
Proof.
  intros He. apply Nat.eqb_neq. rewrite fold_left_app. cbn [fold_left].
  pose proof (join_size_ge l2 (fold_left (fun n e => (n + String.length e)%nat)
                                         l1 0 + String.length e)%nat) as H.
  destruct e as [|c e]; [congruence|]. cbn [String.length] in H |- *. lia.
Qed.

(** An element with a slash in it is joined like the two elements around
    the slash. *)
Lemma Join_slash_element l1 a b l2 :
  a <> EmptyString -> b <> EmptyString ->
  Join (l1 ++ (a +:+ "/" +:+ b) :: l2)%list = Join (l1 ++ a :: b :: l2)%list.
Proof.
  intros Ha Hb. unfold Join.
  rewrite (join_size_pos l1 (a +:+ "/" +:+ b) l2)
    by (destruct a; [congruence|discriminate]).
  rewrite (join_size_pos l1 a (b :: l2)) by exact Ha.
  rewrite !join_loop_app. cbn [join_loop].
  destruct a as [|ca a]; [congruence|]. destruct b as [|cb b]; [congruence|].
  cbn [String.append is_empty negb]. rewrite !orb_true_r.
  f_equal. f_equal.
  destruct (join_loop l1 EmptyString) as [|c buf];
    cbn [is_empty negb String.append orb]; rewrite ?str_app_assoc;
    cbn [String.append]; reflexivity.
Qed.

End clean_facts.

(** ** The token codec *)

Module codec_facts.
Import clean_facts.
#[local] Arguments String.append !s1 s2 : simpl nomatch.

Lemma byte_val_byte_of z : byte_val (byte_of z) = z mod 256.
Proof.
  unfold byte_val, byte_of.
  assert (H : 0 <= z mod 256 < 256) by (apply Z.mod_pos_bound; lia).
  rewrite nat_ascii_embedding by lia. lia.
Qed.

Lemma uint32_range x : 0 <= uint32 x < 2 ^ 32.
Proof. unfold uint32. apply Z.mod_pos_bound. lia. Qed.

Lemma uint32_id x : 0 <= x < 2 ^ 32 -> uint32 x = x.
Proof. intros H. unfold uint32. now apply Z.mod_small. Qed.

Lemma byte_bits v k n :
  0 <= k -> 0 <= n ->
  Z.testbit (Z.shiftl (Z.shiftr v k mod 256) k) n =
  if (k <=? n) && (n <? k + 8) then Z.testbit v n else false.
Proof.
  intros Hk Hn. rewrite Z.shiftl_spec by lia.
  destruct (k <=? n) eqn:Hkn; cbn [andb].
  - apply Z.leb_le in Hkn.
    change 256 with (2 ^ 8).
    destruct (n <? k + 8) eqn:Hn8.
    + apply Z.ltb_lt in Hn8.
      rewrite Z.mod_pow2_bits_low by lia.
      rewrite Z.shiftr_spec by lia. f_equal. lia.
    + apply Z.ltb_ge in Hn8. rewrite Z.mod_pow2_bits_high by lia. reflexivity.
  - apply Z.leb_gt in Hkn. apply Z.testbit_neg_r. lia.
Qed.

(** Reading back the four big-endian bytes of a 32-bit value. *)
Lemma read_put_uint32 v rest :
  0 <= v < 2 ^ 32 ->
  read_uint32_be (put_uint32_be v +:+ rest) = Ok (v, rest).
Proof.
  intros Hv. unfold put_uint32_be. cbn [String.append read_uint32_be].
  rewrite !byte_val_byte_of. do 2 f_equal.
  apply Z.bits_inj'. intros n Hn.
  rewrite !Z.lor_spec.
  rewrite (byte_bits v 24 n), (byte_bits v 16 n), (byte_bits v 8 n) by lia.
  replace (v mod 256) with (Z.shiftl (Z.shiftr v 0 mod 256) 0)
    by (rewrite Z.shiftr_0_r, Z.shiftl_0_r; reflexivity).
  rewrite (byte_bits v 0 n) by lia.
  destruct (Z.ltb_spec n 32) as [Hlt|Hge].
  - destruct (Z.leb_spec 24 n), (Z.leb_spec 16 n), (Z.leb_spec 8 n),
      (Z.leb_spec 0 n), (Z.ltb_spec n (24 + 8)), (Z.ltb_spec n (16 + 8)),
      (Z.ltb_spec n (8 + 8)), (Z.ltb_spec n (0 + 8));
      cbn [andb orb]; try lia;
      rewrite ?orb_false_r; reflexivity.
  - assert (Hbit : Z.testbit v n = false).
    { destruct (Z.eq_dec v 0) as [->|Hv0]; [apply Z.bits_0|].
      apply Z.bits_above_log2; [lia|].
      assert (Z.log2 v < 32) by (apply Z.log2_lt_pow2; lia). lia. }
    rewrite Hbit.
    repeat match goal with
           | |- context [if ?b then false else false] => destruct b
           end; reflexivity.
Qed.

Lemma contains_byte_app c a b :
  contains_byte c (a +:+ b) = contains_byte c a || contains_byte c b.
Proof.
  induction a as [|x a IH]; cbn [String.append contains_byte]; [reflexivity|].
  now rewrite IH, orb_assoc.
Qed.

Lemma bytes_Split_no_sep s sep :
  contains_byte sep s = false -> bytes_Split s sep = [s].
Proof.
  induction s as [|c s IH]; cbn [bytes_Split contains_byte]; [reflexivity|].
  intros H. apply orb_false_iff in H as [Hc Hs]. rewrite Hc, (IH Hs). reflexivity.
Qed.

Lemma bytes_Split_app a b sep :
  contains_byte sep a = false ->
  bytes_Split (a +:+ String sep b) sep = a :: bytes_Split b sep.
Proof.
  induction a as [|c a IH]; cbn [String.append bytes_Split contains_byte].
  - intros _. now rewrite Ascii.eqb_refl.
  - intros H. apply orb_false_iff in H as [Hc Ha]. rewrite Hc, (IH Ha). reflexivity.
Qed.

Lemma write_roles_bytes roles : forall buf,
  write_roles roles buf = buf +:+ roles_bytes roles.
Proof.
  induction roles as [|r roles IH]; intros buf; cbn [write_roles roles_bytes].
  - now rewrite str_app_nil_r.
  - rewrite IH, !str_app_assoc. reflexivity.
Qed.

Lemma serialize_bytes key :
  serialize key =
  put_uint32_be (uint32 (Unix (CreatedAt key)))
  +:+ (roles_bytes (Roles key) +:+ APIKey key).
Proof.
  unfold serialize. now rewrite write_roles_bytes, str_app_assoc.
Qed.

(** Splitting the payload on NUL gives back the roles and, last, the
    credential. *)
Lemma split_payload roles cred :
  Forall no_nul roles -> no_nul cred ->
  bytes_Split (roles_bytes roles +:+ cred) NUL = (roles ++ [cred])%list.
Proof.
  intros Hroles Hcred. induction Hroles as [|r roles Hr _ IH]; cbn [roles_bytes app].
  - cbn [String.append]. now apply bytes_Split_no_sep.
  - rewrite str_app_assoc. cbn [String.append].
    rewrite (bytes_Split_app _ _ _ Hr), IH. reflexivity.
Qed.

Lemma take_app a b : take (String.length a) (a +:+ b) = a.
Proof.
  induction a as [|c a IH]; cbn [String.length String.append take].
  - destruct b; reflexivity.
  - now rewrite IH.
Qed.

Lemma skip_app a b : skip (String.length a) (a +:+ b) = b.
Proof.
  induction a as [|c a IH]; cbn [String.length String.append skip];
    [reflexivity | exact IH].
Qed.

(** What the retry loop returns: the first attempt without colon, if the
    attempts before it all had one and none failed to read a nonce. *)
Lemma generate_loop_Ok n : forall i aead env buf token,
  generate_loop n i aead env buf = Ok token ->
  contains_byte colon token = false /\
  exists k nonce,
    (i <= k < i + n)%nat /\
    rand_Read env k (NonceSize aead) = Some nonce /\
    token = nonce +:+ Seal aead nonce buf /\
    forall j, (i <= j < k)%nat -> attempt_has_colon aead env buf j.
Proof.
  induction n as [|n IH]; intros i aead env buf token H; cbn [generate_loop] in H;
    [discriminate|].
  destruct (rand_Read env i (NonceSize aead)) as [nonce|] eqn:Hr; [|discriminate].
  destruct (contains_byte colon (nonce +:+ Seal aead nonce buf)) eqn:Hc;
    cbn [negb] in H.
  - destruct (IH _ _ _ _ _ H) as (Hno & k & nonce' & Hk & Hr' & Ht & Hbefore).
    split; [exact Hno|]. exists k, nonce'. split; [lia|].
    split; [exact Hr'|]. split; [exact Ht|].
    intros j Hj. destruct (Nat.eq_dec j i) as [->|Hne].
    + exists nonce. auto.
    + apply Hbefore. lia.
  - injection H as <-. split; [exact Hc|].
    exists i, nonce. split; [lia|]. split; [exact Hr|]. split; [reflexivity|].
    intros j Hj. lia.
Qed.

Lemma generate_loop_Err n : forall i aead env buf e,
  generate_loop n i aead env buf = Err e ->
  (e = ErrMsg "Failed to generate a valid ciphertext" /\
   forall j, (i <= j < i + n)%nat -> attempt_has_colon aead env buf j) \/
  (e = ErrRandom /\
   exists k, (i <= k < i + n)%nat /\
             rand_Read env k (NonceSize aead) = None /\
             forall j, (i <= j < k)%nat -> attempt_has_colon aead env buf j).
Proof.
  induction n as [|n IH]; intros i aead env buf e H; cbn [generate_loop] in H.
  - injection H as <-. left. split; [reflexivity|]. intros j Hj. lia.
  - destruct (rand_Read env i (NonceSize aead)) as [nonce|] eqn:Hr.
    + destruct (contains_byte colon (nonce +:+ Seal aead nonce buf)) eqn:Hc;
        cbn [negb] in H; [|discriminate].
      assert (Hi : attempt_has_colon aead env buf i) by (exists nonce; auto).
      destruct (IH _ _ _ _ _ H) as [(-> & Hall)|(-> & k & Hk & Hnone & Hbefore)].
      * left. split; [reflexivity|]. intros j Hj.
        destruct (Nat.eq_dec j i) as [->|Hne]; [exact Hi | apply Hall; lia].
      * right. split; [reflexivity|]. exists k. split; [lia|]. split; [exact Hnone|].
        intros j Hj.
        destruct (Nat.eq_dec j i) as [->|Hne]; [exact Hi | apply Hbefore; lia].
    + injection H as <-. right. split; [reflexivity|].
      exists i. split; [lia|]. split; [exact Hr|]. intros j Hj. lia.
Qed.

(** When every attempt seals to bytes with a colon, the loop gives up. *)
Lemma generate_loop_all_colon n : forall i aead env buf,
  (forall j, (i <= j < i + n)%nat -> attempt_has_colon aead env buf j) ->
  generate_loop n i aead env buf
  = Err (ErrMsg "Failed to generate a valid ciphertext").
Proof.
  induction n as [|n IH]; intros i aead env buf H; cbn [generate_loop];
    [reflexivity|].
  destruct (H i ltac:(lia)) as (nonce & -> & ->). cbn [negb].
  apply IH. intros j Hj. apply H. lia.
Qed.

(** [Open] reads back what [Generate] sealed. *)
Lemma Open_sealed a aead nonce key :
  NewGCM a = Ok aead ->
  AEAD_correct aead ->
  String.length nonce = NonceSize aead ->
  Forall no_nul (Roles key) ->
  no_nul (APIKey key) ->
  Auth_Open a (nonce +:+ Seal aead nonce (serialize key))
  = Ok {| CreatedAt := time_Unix (uint32 (Unix (CreatedAt key))) 0;
          Roles := Roles key;
          APIKey := APIKey key |}.
Proof.
  intros Hgcm Hae Hn Hroles Hcred. unfold Auth_Open. rewrite Hgcm. cbn.
  rewrite str_length_app, (seal_length _ Hae), <- Hn.
  pose proof (overhead_pos _ Hae) as Hov.
  replace (_ <=? _)%nat with false by (symmetry; apply Nat.leb_gt; lia).
  rewrite take_app, skip_app, (open_seal _ Hae) by exact Hn.
  rewrite serialize_bytes, read_put_uint32 by apply uint32_range. cbn.
  rewrite split_payload by assumption.
  now rewrite removelast_last, last_last.
Qed.

End codec_facts.

Example codec_tests :
  Auth_Open Fixtures.auth (Fixtures.token_of Fixtures.key)
  = Ok {| CreatedAt := time_Unix 1445000000 0;
          Roles := ["candidates"]; APIKey := "bar" |} /\
  snd (Generate Fixtures.auth Fixtures.env_colons Fixtures.key)
  = Err (ErrMsg "Failed to generate a valid ciphertext").
Proof. split; vm_compute; reflexivity. Qed.

Example ServeHTTP_tests :
  map (fun p => ServeHTTP Fixtures.canon Fixtures.writer Fixtures.json
                          (Fixtures.proxy 200) (Fixtures.get Fixtures.key p))
      ["/foo"; "/candidates/baz"]
  = [Returned {| status := 401;
                 header := {[ "Content-Type" := ["application/json"] ]};
                 sent := ErrorEnvelope
                           "unauthorized"
                           "You do not have permission to access this resource";
                 header_after := {[ "Content-Type" := ["application/json"] ]} |};
     Returned {| status := 200;
                 header := ∅;
                 sent := RawBody "{filtered body}";
                 header_after := {[ "Foo" := ["bar"] ]} |}].
Proof. vm_compute. reflexivity. Qed.

(** With the canonical keys of Go: the response goes out with the header
    of the writer; the hop-by-hop headers are deleted under their canonical
    names only; [copyHeader] adds all values under canonical keys and drops a
    key without value. *)
Example ServeHTTP_header_tests :
  map Samples.CanonicalMIMEHeaderKey
      ["foo"; "connection"; "x-forwarded-for"; "Keep-Alive"; "a b"; "TE"]
  = ["Foo"; "Connection"; "X-Forwarded-For"; "Keep-Alive"; "a b"; "Te"] /\
  ServeHTTP Samples.CanonicalMIMEHeaderKey Samples.writer_dated Fixtures.json
            Samples.proxy_lower_case (Fixtures.get Fixtures.key "/candidates/baz")
  = Returned {| status := 200;
                header := {[ "Date" := ["today"] ]};
                sent := RawBody "{filtered body}";
                header_after := {[ "Date" := ["today"];
                                   "Connection" := ["close"];
                                   "Foo" := ["bar"; "baz"] ]} |}.
Proof. split; vm_compute; reflexivity. Qed.

(** When the envelope cannot be written, [respond] panics; when the
    upstream cannot be reached, or its body is not JSON, the handler does. *)
Example ServeHTTP_panic_tests :
  ServeHTTP Fixtures.canon Samples.writer_closed Fixtures.json
            (Fixtures.proxy 200) (Fixtures.get Fixtures.key "/foo")
  = Panicked (Some 401) (ErrMsg "write: broken pipe") /\
  ServeHTTP Fixtures.canon Fixtures.writer Fixtures.json
            Samples.proxy_unreachable (Fixtures.get Fixtures.key "/candidates/baz")
  = Panicked None ErrTransport /\
  ServeHTTP Fixtures.canon Fixtures.writer Fixtures.json
            Samples.proxy_not_json (Fixtures.get Fixtures.key "/candidates/baz")
  = Panicked (Some 200) ErrJSON /\
  ServeHTTP Fixtures.canon Samples.writer_closed Fixtures.json
            (Fixtures.proxy 200) (Fixtures.get Fixtures.key "/candidates/baz")
  = Returned {| status := 200;
                header := ∅;
                sent := RawBody "{filtered body}";
                header_after := {[ "Foo" := ["bar"] ]} |}.
Proof. repeat split; vm_compute; reflexivity. Qed.

(** ** The order of the members of an object does not matter *)

Module order_facts.

Lemma mapM_related {A B : Type} (f : A -> result B)
      (R : A -> A -> Prop) (S : B -> B -> Prop) (l l' : list A) :
  Forall2 R l l' ->
  (forall x x' y, In x l -> R x x' -> f x = Ok y ->
                  exists y', f x' = Ok y' /\ S y y') ->
  forall ys, mapM f l = Ok ys ->
             exists ys', mapM f l' = Ok ys' /\ Forall2 S ys ys'.
Proof.
  induction 1 as [|x x' l l' Hx _ IH]; intros Hf ys H; cbn in H |- *.
  - injection H as <-. exists []. split; [reflexivity | constructor].
  - apply bind_Ok in H as (y & Hy & H). apply bind_Ok in H as (k & Hk & H).
    injection H as <-.
    destruct (Hf x x' y (or_introl eq_refl) Hx Hy) as (y' & -> & Hyy).
    destruct (IH (fun a a' b Hin => Hf a a' b (or_intror Hin)) k Hk)
      as (k' & -> & Hkk).
    exists (y' :: k'). split; [reflexivity | now constructor].
Qed.

Lemma mapM_cons_Ok {A B : Type} (f : A -> result B) x l ys :
  mapM f (x :: l) = Ok ys <->
  exists y k, f x = Ok y /\ mapM f l = Ok k /\ ys = y :: k.
Proof.
  cbn. split.
  - intros H. apply bind_Ok in H as (y & Hy & H).
    apply bind_Ok in H as (k & Hk & H). injection H as <-. eauto.
  - intros (y & k & -> & -> & ->). reflexivity.
Qed.

Lemma mapM_Permutation {A B : Type} (f : A -> result B) (l l' : list A) :
  Permutation l l' ->
  forall ys, mapM f l = Ok ys ->
             exists ys', mapM f l' = Ok ys' /\ Permutation ys ys'.
Proof.
  induction 1 as [|x l l' _ IH|x y l|l l' l'' _ IH1 _ IH2]; intros ys H.
  - exists ys. split; [exact H | reflexivity].
  - apply mapM_cons_Ok in H as (y & k & Hy & Hk & ->).
    destruct (IH k Hk) as (k' & Hk' & Hp).
    exists (y :: k'). split; [|now constructor].
    apply mapM_cons_Ok. eauto.
  - apply mapM_cons_Ok in H as (b & k & Hb & Hk & ->).
    apply mapM_cons_Ok in Hk as (a & k' & Ha & Hk' & ->).
    exists (a :: b :: k'). split; [|apply perm_swap].
    apply mapM_cons_Ok. exists a, (b :: k'). split; [exact Ha|]. split; [|reflexivity].
    apply mapM_cons_Ok. eauto.
  - destruct (IH1 ys H) as (ys' & H' & Hp1).
    destruct (IH2 ys' H') as (ys'' & H'' & Hp2).
    exists ys''. split; [exact H'' | now transitivity ys'].
Qed.

Lemma Permutation_list_filter {A : Type} (P : A -> bool) (l l' : list A) :
  Permutation l l' -> Permutation (List.filter P l) (List.filter P l').
Proof.
  induction 1 as [|x l l' _ IH|x y l|l l' l'' _ IH1 _ IH2]; cbn.
  - reflexivity.
  - destruct (P x); [now constructor | exact IH].
  - destruct (P x), (P y); try reflexivity. apply perm_swap.
  - now transitivity (List.filter P l').
Qed.

Lemma kept_related rs rs' :
  Forall2 (fun r r' => snd r = snd r' /\ same_json (fst r) (fst r')) rs rs' ->
  Forall2 same_json (kept rs) (kept rs').
Proof.
  unfold kept. induction 1 as [|[x m] [x' m'] rs rs' [Hm Hx] _ IH]; cbn in *.
  - constructor.
  - subst m'. destruct m; cbn; [now constructor | exact IH].
Qed.

Lemma kept_members_related rs rs' :
  Forall2 (fun r r' => fst r = fst r' /\ snd (snd r) = snd (snd r') /\
                       same_json (fst (snd r)) (fst (snd r'))) rs rs' ->
  Forall2 (fun kv kv' => fst kv = fst kv' /\ same_json (snd kv) (snd kv'))
          (kept_members rs) (kept_members rs').
Proof.
  unfold kept_members.
  induction 1 as [|[k [x m]] [k' [x' m']] rs rs' (Hk & Hm & Hx) _ IH]; cbn in *.
  - constructor.
  - subst k' m'. destruct m; cbn; [|exact IH].
    constructor; [split; [reflexivity | exact Hx] | exact IH].
Qed.

Lemma kept_members_Permutation rs rs' :
  Permutation rs rs' -> Permutation (kept_members rs) (kept_members rs').
Proof.
  intros H. unfold kept_members.
  apply Permutation_map. now apply Permutation_list_filter.
Qed.

Lemma nonempty_length {A B : Type} (l : list A) (l' : list B) :
  length l = length l' -> nonempty l = nonempty l'.
Proof. destruct l, l'; cbn; intros H; [reflexivity|discriminate..|reflexivity]. Qed.

Lemma same_json_leaf v v2 :
  is_leaf v = true -> same_json v v2 -> v2 = v.
Proof.
  intros Hl Hs. destruct Hs as [| | | | |l l' HF|m m1 m' Hp HF]; try reflexivity.
  - destruct HF; [reflexivity | discriminate].
  - destruct m as [|kv m]; [|discriminate].
    apply Permutation_nil in Hp. subst m1. inversion HF. reflexivity.
Qed.

Lemma same_json_refl_leaf v : is_leaf v = true -> same_json v v.
Proof.
  destruct v as [| | | | |[|]|[|]]; intros H; try discriminate; try constructor.
  - constructor.
  - apply (same_object [] [] []); constructor.
Qed.

Lemma same_json_refl v : same_json v v.
Proof.
  induction v as [| | | | |elems IH|members IH] using value_induction;
    try constructor.
  - induction IH; constructor; assumption.
  - apply (same_object members members members); [reflexivity|].
    induction IH; constructor; auto.
Qed.

(** Listing the members of the objects of a value in another order does
    not change what the filter answers, up to the order of the members. *)
Lemma filterJSON_same v :
  forall v2 rules keys w m,
    same_json v v2 ->
    filterJSON v rules keys = Ok (w, m) ->
    exists w2, filterJSON v2 rules keys = Ok (w2, m) /\ same_json w w2.
Proof.
  assert (Hleaf : forall v0 v2 rules keys w m,
             is_leaf v0 = true -> same_json v0 v2 ->
             filterJSON v0 rules keys = Ok (w, m) ->
             exists w2, filterJSON v2 rules keys = Ok (w2, m) /\ same_json w w2).
  { clear v. intros v v2 rules keys w m Hl Hs H.
    rewrite (same_json_leaf _ _ Hl Hs). exists w. split; [exact H|].
    rewrite filterJSON_leaf in H by exact Hl.
    apply bind_Ok in H as (b & _ & H). injection H as <- _.
    now apply same_json_refl_leaf. }
  induction v as [| | | | |elems IH|members IH] using value_induction;
    intros v2 rules keys w m Hs H;
    try (refine (Hleaf _ _ _ _ _ _ _ Hs H); reflexivity).
  - destruct elems as [|ve vt]; [refine (Hleaf _ _ _ _ _ _ _ Hs H); reflexivity|].
    inversion Hs as [| | | | |l l' HF|]; subst.
    inversion HF as [|? ve' ? vt' Hve Hvt]; subst.
    rewrite filterJSON_array_mapM in H |- *.
    apply bind_Ok in H as (results & Hmap & H). injection H as <- <-.
    destruct (mapM_related (fun x => filterJSON x rules keys) same_json
                (fun r r' => snd r = snd r' /\ same_json (fst r) (fst r'))
                (ve :: vt) (ve' :: vt') HF) with (ys := results)
      as (results' & -> & Hrel); [|exact Hmap|].
    { intros x x' [y b] Hin Hxx Hy. rewrite List.Forall_forall in IH.
      destruct (IH x Hin x' rules keys y b Hxx Hy) as (y' & Hy' & Hyy).
      exists (y', b). split; [exact Hy' | split; [reflexivity | exact Hyy]]. }
    apply kept_related in Hrel.
    exists (slice_of (kept results')). rewrite bind_Ok_eq.
    rewrite (nonempty_length _ _ (Forall2_length _ _ _ Hrel)).
    split; [reflexivity|].
    destruct Hrel; cbn; [constructor|]. constructor. now constructor.
  - destruct members as [|kv vt]; [refine (Hleaf _ _ _ _ _ _ _ Hs H); reflexivity|].
    inversion Hs as [| | | | | |m0 m1 m' Hp HF]; subst.
    assert (Hm' : exists kv' vt', m' = kv' :: vt').
    { apply Permutation_length in Hp. apply Forall2_length in HF.
      destruct m' as [|kv' vt']; [cbn in *; lia | eauto]. }
    destruct Hm' as (kv' & vt' & ->).
    rewrite filterJSON_object_mapM in H |- *.
    apply bind_Ok in H as (results & Hmap & H). injection H as <- <-.
    destruct (mapM_Permutation _ _ _ Hp results Hmap) as (results1 & Hmap1 & Hperm).
    destruct (mapM_related
                (fun kx => r ← filterJSON (snd kx) rules (keys ++ [fst kx])%list;
                           Ok (fst kx, r))
                (fun kx kx' => fst kx = fst kx' /\ same_json (snd kx) (snd kx'))
                (fun r r' => fst r = fst r' /\ snd (snd r) = snd (snd r') /\
                             same_json (fst (snd r)) (fst (snd r')))
                m1 (kv' :: vt') HF) with (ys := results1)
      as (results' & -> & Hrel); [|exact Hmap1|].
    { intros [k x] [k' x'] [k0 [y b]] Hin [Hk Hxx] Hy. cbn in Hk, Hxx. subst k'.
      cbn in Hy |- *. apply bind_Ok in Hy as ([y0 b0] & Hy & Heq).
      injection Heq as <- <- <-.
      rewrite List.Forall_forall in IH.
      assert (Hin' : In (k, x) (kv :: vt))
        by (eapply Permutation_in; [symmetry; exact Hp | exact Hin]).
      destruct (IH (k, x) Hin' x' rules (keys ++ [k])%list y0 b0 Hxx Hy)
        as (y' & -> & Hyy).
      exists (k, (y', b0)). cbn. auto. }
    apply kept_members_related in Hrel.
    apply kept_members_Permutation in Hperm.
    exists (JObject (kept_members results')). rewrite bind_Ok_eq.
    rewrite (nonempty_length (kept_members results) (kept_members results'))
      by (rewrite (Permutation_length Hperm); exact (Forall2_length _ _ _ Hrel)).
    split; [reflexivity|].
    exact (same_object _ _ _ Hperm Hrel).
Qed.

End order_facts.

(** ** Further lemmas on the codec, the filter, the handler and the outbound
    request *)

Module codec_more.
Import clean_facts codec_facts.
#[local] Arguments String.append !s1 s2 : simpl nomatch.

Lemma byte_val_range c : 0 <= byte_val c < 256.
Proof.
  unfold byte_val. pose proof (nat_ascii_bounded c). lia.
Qed.

Lemma byte_of_byte_val c z : z mod 256 = byte_val c -> byte_of z = c.
Proof.
  intros H. unfold byte_of. rewrite H. unfold byte_val.
  rewrite Nat2Z.id. apply ascii_nat_embedding.
Qed.

(** A bitwise or with low bits that are free is a sum. *)
Lemma lor_low_add x b k :
  0 <= k -> 0 <= b < 2 ^ k -> x mod 2 ^ k = 0 -> Z.lor x b = x + b.
Proof.
  intros Hk Hb Hx. symmetry. apply Z.add_nocarry_lor.
  apply Z.bits_inj'. intros n Hn. rewrite Z.land_spec, Z.bits_0.
  destruct (Z.ltb_spec n k).
  - rewrite <- (Z.mod_pow2_bits_low x k n), Hx, Z.bits_0 by lia. reflexivity.
  - replace (Z.testbit b n) with false; [apply andb_false_r|].
    symmetry. destruct (Z.eq_dec b 0) as [->|]; [apply Z.bits_0|].
    apply Z.bits_above_log2; [lia|].
    assert (Z.log2 b < k) by (apply Z.log2_lt_pow2; lia). lia.
Qed.

Lemma big_endian_sum b0 b1 b2 b3 :
  0 <= b0 < 256 -> 0 <= b1 < 256 -> 0 <= b2 < 256 -> 0 <= b3 < 256 ->
  Z.lor (Z.lor (Z.lor (Z.shiftl b0 24) (Z.shiftl b1 16)) (Z.shiftl b2 8)) b3
  = b0 * 16777216 + b1 * 65536 + b2 * 256 + b3.
Proof.
  intros H0 H1 H2 H3. rewrite !Z.shiftl_mul_pow2 by lia.
  change (2 ^ 24) with 16777216. change (2 ^ 16) with 65536.
  change (2 ^ 8) with 256.
  rewrite (lor_low_add (b0 * 16777216) (b1 * 65536) 24);
    [|lia|lia|change (2 ^ 24) with 16777216; apply Z.mod_mul; lia].
  rewrite (lor_low_add _ (b2 * 256) 16);
    [|lia|lia|change (2 ^ 16) with 65536; Z.div_mod_to_equations; lia].
  rewrite (lor_low_add _ b3 8);
    [|lia|lia|change (2 ^ 8) with 256; Z.div_mod_to_equations; lia].
  reflexivity.
Qed.

(** What [binary.Read] accepts is four bytes, the big-endian encoding of
    the value it returns, and the rest. *)
Lemma read_uint32_be_inv data v rest :
  read_uint32_be data = Ok (v, rest) ->
  data = put_uint32_be v +:+ rest /\ 0 <= v < 2 ^ 32.
Proof.
  destruct data as [|c0 [|c1 [|c2 [|c3 r]]]]; try discriminate.
  cbn [read_uint32_be]. intros H. injection H as Hv Hr. subst rest.
  pose proof (byte_val_range c0). pose proof (byte_val_range c1).
  pose proof (byte_val_range c2). pose proof (byte_val_range c3).
  rewrite big_endian_sum in Hv by assumption.
  split.
  - unfold put_uint32_be. cbn [String.append].
    rewrite !Z.shiftr_div_pow2 by lia.
    change (2 ^ 24) with 16777216. change (2 ^ 16) with 65536.
    change (2 ^ 8) with 256.
    rewrite (byte_of_byte_val c0), (byte_of_byte_val c1),
      (byte_of_byte_val c2), (byte_of_byte_val c3);
      [reflexivity|subst v; Z.div_mod_to_equations; lia..].
  - change (2 ^ 32) with 4294967296. lia.
Qed.

Lemma bytes_Split_nonempty s sep : bytes_Split s sep <> [].
Proof.
  destruct s as [|c s]; cbn [bytes_Split]; [discriminate|].
  destruct (Ascii.eqb c sep); [discriminate|].
  destruct (bytes_Split s sep); discriminate.
Qed.

(** Joining the parts of a split with the separator gives the bytes back. *)
Lemma bytes_Split_join s :
  roles_bytes (removelast (bytes_Split s NUL))
  +:+ List.last (bytes_Split s NUL) EmptyString = s.
Proof.
  induction s as [|c s IH]; cbn [bytes_Split]; [reflexivity|].
  pose proof (bytes_Split_nonempty s NUL) as Hne.
  destruct (Ascii.eqb c NUL) eqn:Hc.
  - apply Ascii.eqb_eq in Hc. subst c.
    destruct (bytes_Split s NUL) as [|part parts] eqn:Hs; [congruence|].
    cbn [removelast List.last roles_bytes String.append] in IH |- *.
    now rewrite IH.
  - destruct (bytes_Split s NUL) as [|part parts] eqn:Hs; [congruence|].
    destruct parts as [|part' parts].
    + cbn [removelast List.last roles_bytes String.append] in IH |- *.
      now rewrite IH.
    + cbn [removelast List.last roles_bytes String.append] in IH |- *.
      now rewrite IH.
Qed.

Lemma bytes_Split_no_nul s : Forall no_nul (bytes_Split s NUL).
Proof.
  induction s as [|c s IH]; cbn [bytes_Split].
  - constructor; [reflexivity|constructor].
  - destruct (Ascii.eqb c NUL) eqn:Hc.
    + constructor; [reflexivity|exact IH].
    + destruct (bytes_Split s NUL) as [|part parts]; [constructor; [|constructor]|].
      * unfold no_nul. cbn [contains_byte]. now rewrite Hc.
      * apply List.Forall_cons_iff in IH as [Hp Hps].
        constructor; [|exact Hps].
        unfold no_nul in *. cbn [contains_byte]. now rewrite Hc, Hp.
Qed.

Lemma Forall_removelast {A : Type} (P : A -> Prop) (l : list A) :
  Forall P l -> Forall P (removelast l).
Proof.
  induction 1 as [|x l Hx Hl IH]; cbn [removelast]; [constructor|].
  destruct l; [constructor|]. constructor; assumption.
Qed.

Lemma Forall_last {A : Type} (P : A -> Prop) (l : list A) (d : A) :
  l <> [] -> Forall P l -> P (List.last l d).
Proof.
  intros Hne H. induction H as [|x l Hx Hl IH]; [congruence|].
  destruct l; [exact Hx|]. apply IH. discriminate.
Qed.

(** How [Open] comes to return a key. *)
Lemma Auth_Open_inv a token key :
  Auth_Open a token = Ok key ->
  exists aead data ut rest,
    NewGCM a = Ok aead /\
    (NonceSize aead < String.length token)%nat /\
    Open aead (take (NonceSize aead) token) (skip (NonceSize aead) token)
    = Some data /\
    read_uint32_be data = Ok (ut, rest) /\
    key = {| CreatedAt := time_Unix ut 0;
             Roles := removelast (bytes_Split rest NUL);
             APIKey := List.last (bytes_Split rest NUL) EmptyString |}.
Proof.
  unfold Auth_Open. intros H.
  apply bind_Ok in H as (aead & Hgcm & H). cbn beta zeta in H.
  destruct (String.length token <=? NonceSize aead)%nat eqn:Hlen; [discriminate|].
  apply Nat.leb_gt in Hlen.
  destruct (Open aead _ _) as [data|] eqn:Hopen; [|discriminate].
  apply bind_Ok in H as ([ut rest] & Hread & H).
  injection H as <-.
  exists aead, data, ut, rest. repeat split; assumption.
Qed.

Lemma roles_bytes_length roles :
  String.length (roles_bytes roles) = roles_size roles.
Proof.
  induction roles as [|r roles IH]; cbn [roles_bytes roles_size]; [reflexivity|].
  rewrite str_length_app. cbn [String.length]. rewrite IH. lia.
Qed.

Lemma serialize_length key :
  String.length (serialize key)
  = (4 + roles_size (Roles key) + String.length (APIKey key))%nat.
Proof.
  rewrite serialize_bytes, !str_length_app, roles_bytes_length.
  unfold put_uint32_be. cbn [String.length]. lia.
Qed.

Lemma roles_bytes_snoc roles role rest :
  roles_bytes (roles ++ [role]) +:+ rest
  = roles_bytes roles +:+ (role +:+ String NUL rest).
Proof.
  induction roles as [|r roles IH]; cbn [roles_bytes app].
  - rewrite str_app_assoc. reflexivity.
  - rewrite !str_app_assoc. cbn [String.append]. now rewrite IH.
Qed.

(** The retry loop stops at the first attempt without colon. *)
Lemma generate_loop_first_clean n : forall i k aead env buf nonce,
  (i <= k < i + n)%nat ->
  rand_Read env k (NonceSize aead) = Some nonce ->
  contains_byte colon (nonce +:+ Seal aead nonce buf) = false ->
  (forall j, (i <= j < k)%nat -> attempt_has_colon aead env buf j) ->
  generate_loop n i aead env buf = Ok (nonce +:+ Seal aead nonce buf).
Proof.
  induction n as [|n IH]; intros i k aead env buf nonce Hk Hr Hc Hbefore; [lia|].
  cbn [generate_loop].
  destruct (Nat.eq_dec i k) as [->|Hne].
  - rewrite Hr, Hc. reflexivity.
  - destruct (Hbefore i ltac:(lia)) as (nonce' & -> & ->). cbn [negb].
    apply (IH (S i) k); try assumption; [lia|].
    intros j Hj. apply Hbefore. lia.
Qed.

(** The retry loop stops at the first nonce that [rand.Read] fails to
    give, with its error. *)
Lemma generate_loop_read_fails n : forall i k aead env buf,
  (i <= k < i + n)%nat ->
  rand_Read env k (NonceSize aead) = None ->
  (forall j, (i <= j < k)%nat -> attempt_has_colon aead env buf j) ->
  generate_loop n i aead env buf = Err ErrRandom.
Proof.
  induction n as [|n IH]; intros i k aead env buf Hk Hr Hbefore; [lia|].
  cbn [generate_loop].
  destruct (Nat.eq_dec i k) as [->|Hne].
  - rewrite Hr. reflexivity.
  - destruct (Hbefore i ltac:(lia)) as (nonce' & -> & ->). cbn [negb].
    apply (IH (S i) k); try assumption; [lia|].
    intros j Hj. apply Hbefore. lia.
Qed.

(** [Open] on a token that [Generate] sealed, whatever the bytes of the
    roles and of the credential. *)
Lemma Open_sealed_any a aead nonce key :
  NewGCM a = Ok aead ->
  AEAD_correct aead ->
  String.length nonce = NonceSize aead ->
  Auth_Open a (nonce +:+ Seal aead nonce (serialize key))
  = Ok {| CreatedAt := time_Unix (uint32 (Unix (CreatedAt key))) 0;
          Roles := removelast
                     (bytes_Split (roles_bytes (Roles key) +:+ APIKey key) NUL);
          APIKey := List.last
                      (bytes_Split (roles_bytes (Roles key) +:+ APIKey key) NUL)
                      EmptyString |}.
Proof.
  intros Hgcm Hae Hn. unfold Auth_Open. rewrite Hgcm. cbn.
  rewrite str_length_app, (seal_length _ Hae), <- Hn.
  pose proof (overhead_pos _ Hae) as Hov.
  replace (_ <=? _)%nat with false by (symmetry; apply Nat.leb_gt; lia).
  rewrite take_app, skip_app, (open_seal _ Hae) by exact Hn.
  rewrite serialize_bytes, read_put_uint32 by apply uint32_range. reflexivity.
Qed.

End codec_more.

Module filter_more.

Lemma kept_cons r rs :
  kept (r :: rs) = if snd r then fst r :: kept rs else kept rs.
Proof. unfold kept. cbn [List.filter]. destruct (snd r); reflexivity. Qed.

Lemma kept_members_cons r rs :
  kept_members (r :: rs)
  = if snd (snd r) then (fst r, fst (snd r)) :: kept_members rs
    else kept_members rs.
Proof.
  unfold kept_members. cbn [List.filter]. destruct (snd (snd r)); reflexivity.
Qed.

(** The leaves of the kept children are the passing leaves of all the
    children. *)
Lemma kept_leaves {X : Type} (f : value -> result (value * bool))
      (L : value -> list X) (P : X -> bool) (l : list value) :
  Forall (fun x => forall w m, f x = Ok (w, m) ->
                               (if m : bool then L w else []) = List.filter P (L x)) l ->
  forall results, mapM f l = Ok results ->
                  flat_map L (kept results) = List.filter P (flat_map L l).
Proof.
  induction 1 as [|x l Hx _ IH]; intros results Hm.
  - cbn in Hm. injection Hm as <-. reflexivity.
  - apply order_facts.mapM_cons_Ok in Hm as ([w m] & rs & Hf & Hrs & ->).
    rewrite kept_cons. cbn [fst snd flat_map].
    rewrite List.filter_app, <- (Hx _ _ Hf), <- (IH _ Hrs).
    destruct m; reflexivity.
Qed.

Lemma kept_members_leaves {X : Type}
      (f : string * value -> result (string * (value * bool)))
      (L : string * value -> list X) (P : X -> bool) (l : list (string * value)) :
  Forall (fun kv => forall k w m, f kv = Ok (k, (w, m)) ->
                                  k = fst kv /\
                                  (if m : bool then L (k, w) else [])
                                  = List.filter P (L kv)) l ->
  forall results, mapM f l = Ok results ->
                  flat_map L (kept_members results) = List.filter P (flat_map L l).
Proof.
  induction 1 as [|x l Hx _ IH]; intros results Hm.
  - cbn in Hm. injection Hm as <-. reflexivity.
  - apply order_facts.mapM_cons_Ok in Hm as ([k [w m]] & rs & Hf & Hrs & ->).
    rewrite kept_members_cons. cbn [fst snd flat_map].
    destruct (Hx _ _ _ Hf) as [-> Hl].
    rewrite List.filter_app, <- Hl, <- (IH _ Hrs).
    destruct m; reflexivity.
Qed.

Lemma leaves_leaf v keys : is_leaf v = true -> leaves v keys = [(keys, v)].
Proof. destruct v as [| | | | |[|? ?]|[|? ?]]; try discriminate; reflexivity. Qed.

Lemma nonempty_false {A : Type} (l : list A) : nonempty l = false -> l = [].
Proof. destruct l; [reflexivity|discriminate]. Qed.

Lemma leaves_filtered v :
  forall rules keys w m,
    filterJSON v rules keys = Ok (w, m) ->
    (if m then leaves w keys else []) = List.filter (passes rules) (leaves v keys).
Proof.
  assert (Hleaf : forall v rules keys w m,
             is_leaf v = true -> filterJSON v rules keys = Ok (w, m) ->
             (if m then leaves w keys else [])
             = List.filter (passes rules) (leaves v keys)).
  { intros v0 rules keys w m Hl H. rewrite filterJSON_leaf in H by exact Hl.
    apply bind_Ok in H as (b & Hb & H). injection H as <- <-.
    rewrite (leaves_leaf _ _ Hl). cbn [List.filter]. unfold passes. cbn [fst].
    rewrite Hb. destruct b; reflexivity. }
  induction v as [| | | | |elems IH|members IH] using value_induction;
    intros rules keys w m H; try (apply Hleaf; [reflexivity|exact H]).
  - destruct elems as [|ve vt]; [apply Hleaf; [reflexivity|exact H]|].
    rewrite filterJSON_array_mapM in H.
    apply bind_Ok in H as (results & Hres & H). injection H as <- <-.
    pose proof (kept_leaves (fun x => filterJSON x rules keys)
                  (fun x => leaves x keys) (passes rules) (ve :: vt)) as HK.
    cbn beta in HK.
    change (leaves (JArray (ve :: vt)) keys)
      with (flat_map (fun x => leaves x keys) (ve :: vt)).
    rewrite <- (HK ltac:(
      eapply List.Forall_impl; [|exact IH]; intros x Hx w m Hf; exact (Hx _ _ _ _ Hf))
      _ Hres).
    destruct (kept results) as [|y ys]; reflexivity.
  - destruct members as [|kv vt]; [apply Hleaf; [reflexivity|exact H]|].
    rewrite filterJSON_object_mapM in H.
    apply bind_Ok in H as (results & Hres & H). injection H as <- <-.
    pose proof (kept_members_leaves
                  (fun kx => r ← filterJSON (snd kx) rules (keys ++ [fst kx])%list;
                             Ok (fst kx, r))
                  (fun kx => leaves (snd kx) (keys ++ [fst kx])%list)
                  (passes rules) (kv :: vt)) as HK.
    cbn beta in HK.
    change (leaves (JObject (kv :: vt)) keys)
      with (flat_map (fun kx => leaves (snd kx) (keys ++ [fst kx])%list) (kv :: vt)).
    rewrite <- (HK ltac:(
      eapply List.Forall_impl; [|exact IH]; intros x Hx k w m Hf;
      apply bind_Ok in Hf as ([w0 m0] & Hf & Heq); injection Heq as <- <- <-;
      split; [reflexivity|exact (Hx _ _ _ _ Hf)]) _ Hres).
    destruct (kept_members results) as [|y ys]; reflexivity.
Qed.

Lemma mapM_Ok_all {A B : Type} (f : A -> result B) (l : list A) ys :
  mapM f l = Ok ys -> Forall (fun x => exists y, f x = Ok y) l.
Proof.
  revert ys. induction l as [|x l IH]; intros ys H; [constructor|].
  apply order_facts.mapM_cons_Ok in H as (y & k & Hf & Hk & _).
  constructor; [eauto|eauto].
Qed.

(** When the traversal succeeds, the key path of every leaf was tested
    without error. *)
Lemma leaves_tested v :
  forall rules keys r,
    filterJSON v rules keys = Ok r ->
    Forall (fun leaf => exists b, checkFilter rules (fst leaf) = Ok b)
           (leaves v keys).
Proof.
  assert (Hleaf : forall v rules keys r,
             is_leaf v = true -> filterJSON v rules keys = Ok r ->
             Forall (fun leaf => exists b, checkFilter rules (fst leaf) = Ok b)
                    (leaves v keys)).
  { intros v0 rules keys r Hl H. rewrite filterJSON_leaf in H by exact Hl.
    apply bind_Ok in H as (b & Hb & _).
    rewrite (leaves_leaf _ _ Hl). constructor; [eauto|constructor]. }
  induction v as [| | | | |elems IH|members IH] using value_induction;
    intros rules keys r H; try (eapply Hleaf; [reflexivity|exact H]).
  - destruct elems as [|ve vt]; [eapply Hleaf; [reflexivity|exact H]|].
    rewrite filterJSON_array_mapM in H.
    apply bind_Ok in H as (results & Hres & _).
    apply mapM_Ok_all in Hres.
    change (leaves (JArray (ve :: vt)) keys)
      with (flat_map (fun x => leaves x keys) (ve :: vt)).
    apply Forall_flat_map.
    rewrite List.Forall_forall in IH, Hres |- *.
    intros x Hx. destruct (Hres x Hx) as [y Hy]. exact (IH x Hx _ _ _ Hy).
  - destruct members as [|kv vt]; [eapply Hleaf; [reflexivity|exact H]|].
    rewrite filterJSON_object_mapM in H.
    apply bind_Ok in H as (results & Hres & _).
    apply mapM_Ok_all in Hres.
    change (leaves (JObject (kv :: vt)) keys)
      with (flat_map (fun kx => leaves (snd kx) (keys ++ [fst kx])%list) (kv :: vt)).
    apply Forall_flat_map.
    rewrite List.Forall_forall in IH, Hres |- *.
    intros x Hx. destruct (Hres x Hx) as [y Hy].
    apply bind_Ok in Hy as (r0 & Hr0 & _). exact (IH x Hx _ _ _ Hr0).
Qed.

Lemma leaves_nonempty v : forall keys, leaves v keys <> [].
Proof.
  induction v as [| | | | |elems IH|members IH] using value_induction;
    intros keys; try discriminate.
  - destruct elems as [|ve vt]; [discriminate|].
    change (leaves (JArray (ve :: vt)) keys)
      with (leaves ve keys ++ flat_map (fun x => leaves x keys) vt)%list.
    apply List.Forall_inv in IH. specialize (IH keys).
    destruct (leaves ve keys); [congruence|discriminate].
  - destruct members as [|kv vt]; [discriminate|].
    change (leaves (JObject (kv :: vt)) keys)
      with (leaves (snd kv) (keys ++ [fst kv])
            ++ flat_map (fun kx => leaves (snd kx) (keys ++ [fst kx])) vt)%list.
    apply List.Forall_inv in IH. specialize (IH (keys ++ [fst kv])%list).
    destruct (leaves (snd kv) (keys ++ [fst kv])); [congruence|discriminate].
Qed.

Lemma passes_whitelisted rules leaf b :
  checkFilter rules (fst leaf) = Ok b ->
  (passes rules leaf = true <-> whitelisted rules (path.Join (fst leaf))).
Proof.
  intros H. rewrite <- (checkFilter_spec _ _ _ H). unfold passes. rewrite H.
  destruct b; split; congruence.
Qed.




Lemma filter_elems_none f vt : forall vf,
  Forall (fun x => exists y, f x = Ok (y, false)) vt ->
  filter_elems f vt vf = Ok vf.
Proof.
  induction vt as [|x vt IH]; intros vf H; [reflexivity|].
  apply List.Forall_cons_iff in H as [[y Hy] Hvt].
  cbn [filter_elems]. rewrite Hy. exact (IH vf Hvt).
Qed.

Lemma filter_members_none f vt : forall vf,
  Forall (fun kv => exists y, f (fst kv) (snd kv) = Ok (y, false)) vt ->
  filter_members f vt vf = Ok vf.
Proof.
  induction vt as [|[k x] vt IH]; intros vf H; [reflexivity|].
  apply List.Forall_cons_iff in H as [[y Hy] Hvt].
  cbn [filter_members]. cbn [fst snd] in Hy. rewrite Hy. exact (IH vf Hvt).
Qed.

Lemma filter_elems_ext f g vt : forall vf,
  Forall (fun x => f x = g x) vt ->
  filter_elems f vt vf = filter_elems g vt vf.
Proof.
  induction vt as [|x vt IH]; intros vf H; [reflexivity|].
  apply List.Forall_cons_iff in H as [Hx Hvt].
  cbn [filter_elems]. rewrite Hx. destruct (g x) as [[y m]|e]; [|reflexivity].
  apply IH, Hvt.
Qed.

Lemma filter_members_ext f g vt : forall vf,
  Forall (fun kv => f (fst kv) (snd kv) = g (fst kv) (snd kv)) vt ->
  filter_members f vt vf = filter_members g vt vf.
Proof.
  induction vt as [|[k x] vt IH]; intros vf H; [reflexivity|].
  apply List.Forall_cons_iff in H as [Hx Hvt]. cbn [fst snd] in Hx.
  cbn [filter_members]. rewrite Hx. destruct (g k x) as [[y m]|e]; [|reflexivity].
  apply IH, Hvt.
Qed.

(** The traversal uses the rules through [checkFilter] only. *)
Lemma filterJSON_ext rules rules' :
  (forall keys, checkFilter rules keys = checkFilter rules' keys) ->
  forall v keys, filterJSON v rules keys = filterJSON v rules' keys.
Proof.
  intros Hsame.
  assert (Hleaf : forall v keys,
             is_leaf v = true ->
             filterJSON v rules keys = filterJSON v rules' keys).
  { intros v keys Hl. rewrite !filterJSON_leaf by exact Hl. now rewrite Hsame. }
  induction v as [| | | | |elems IH|members IH] using value_induction;
    intros keys; try (apply Hleaf; reflexivity).
  - destruct elems as [|ve vt]; [apply Hleaf; reflexivity|].
    rewrite !filterJSON_array.
    rewrite (filter_elems_ext (fun x => filterJSON x rules keys)
                              (fun x => filterJSON x rules' keys)); [reflexivity|].
    eapply List.Forall_impl; [|exact IH]. intros x Hx. apply Hx.
  - destruct members as [|kv vt]; [apply Hleaf; reflexivity|].
    rewrite !filterJSON_object.
    rewrite (filter_members_ext
               (fun k x => filterJSON x rules (keys ++ [k])%list)
               (fun k x => filterJSON x rules' (keys ++ [k])%list)); [reflexivity|].
    eapply List.Forall_impl; [|exact IH]. intros x Hx. apply Hx.
Qed.

Lemma whitelisted_patterns rules keyPath :
  whitelisted rules keyPath <->
  exists pattern, In pattern (response_patterns rules) /\
                  path.Match pattern keyPath = Ok true.
Proof.
  unfold whitelisted, response_patterns. split.
  - intros (rule & pattern & Hr & Hp & Hm). exists pattern.
    split; [|exact Hm]. apply in_flat_map. eauto.
  - intros (pattern & Hin & Hm). apply in_flat_map in Hin as (rule & Hr & Hp).
    eauto.
Qed.

Lemma rules_well_formed_patterns rules :
  rules_well_formed rules <->
  forall pattern, In pattern (response_patterns rules) ->
                  exists b, path.Match pattern EmptyString = Ok b.
Proof.
  unfold rules_well_formed, response_patterns. split.
  - intros H pattern Hin. apply in_flat_map in Hin as (rule & Hr & Hp). eauto.
  - intros H rule pattern Hr Hp. apply H, in_flat_map. eauto.
Qed.

(** With well-formed patterns, more patterns whitelist more. *)
Lemma checkFilter_incl rules rules' keys :
  rules_well_formed rules' ->
  incl (response_patterns rules) (response_patterns rules') ->
  checkFilter rules keys = Ok true -> checkFilter rules' keys = Ok true.
Proof.
  intros Hwf Hincl H.
  destruct (checkFilter_total rules' keys Hwf) as [b' Hb'].
  rewrite Hb'. f_equal. apply (checkFilter_spec _ _ _ Hb').
  pose proof (proj1 (checkFilter_spec _ _ _ H) eq_refl) as Hw.
  apply whitelisted_patterns in Hw as (pattern & Hin & Hm).
  apply whitelisted_patterns. exists pattern. split; [apply Hincl, Hin|exact Hm].
Qed.

(** For well-formed response keys, the traversal depends on their set
    only. *)
Lemma filterJSON_same_patterns rules rules' :
  rules_well_formed rules ->
  (forall pattern, In pattern (response_patterns rules) <->
                   In pattern (response_patterns rules')) ->
  forall v keys, filterJSON v rules keys = filterJSON v rules' keys.
Proof.
  intros Hwf Hsame.
  assert (Hwf' : rules_well_formed rules').
  { apply rules_well_formed_patterns. intros pattern Hin.
    apply Hsame in Hin.
    exact (proj1 (rules_well_formed_patterns rules) Hwf _ Hin). }
  apply filterJSON_ext. intros keys.
  destruct (checkFilter_total rules keys Hwf) as [b Hb].
  destruct (checkFilter_total rules' keys Hwf') as [b' Hb'].
  rewrite Hb, Hb'. f_equal.
  destruct b.
  - symmetry. eapply checkFilter_incl in Hb;
      [|exact Hwf'|intros p Hp; apply Hsame, Hp]. congruence.
  - destruct b'; [|reflexivity].
    eapply checkFilter_incl in Hb';
      [|exact Hwf|intros p Hp; apply Hsame, Hp]. congruence.
Qed.

(** The traversal uses the key path through [path.Join] only. *)
Lemma filterJSON_same_key_path rules v :
  forall keys1 keys2,
    (forall suffix, path.Join (keys1 ++ suffix)%list
                    = path.Join (keys2 ++ suffix)%list) ->
    filterJSON v rules keys1 = filterJSON v rules keys2.
Proof.
  assert (Hleaf : forall v keys1 keys2,
             is_leaf v = true ->
             (forall suffix, path.Join (keys1 ++ suffix)%list
                             = path.Join (keys2 ++ suffix)%list) ->
             filterJSON v rules keys1 = filterJSON v rules keys2).
  { intros x keys1 keys2 Hl H. rewrite !filterJSON_leaf by exact Hl.
    unfold checkFilter. specialize (H []). rewrite !app_nil_r in H.
    now rewrite H. }
  induction v as [| | | | |elems IH|members IH] using value_induction;
    intros keys1 keys2 H; try (apply Hleaf; [reflexivity|exact H]).
  - destruct elems as [|ve vt]; [apply Hleaf; [reflexivity|exact H]|].
    rewrite !filterJSON_array.
    rewrite (filter_elems_ext (fun x => filterJSON x rules keys1)
                              (fun x => filterJSON x rules keys2)); [reflexivity|].
    eapply List.Forall_impl; [|exact IH]. intros x Hx. apply Hx, H.
  - destruct members as [|kv vt]; [apply Hleaf; [reflexivity|exact H]|].
    rewrite !filterJSON_object.
    rewrite (filter_members_ext
               (fun k x => filterJSON x rules (keys1 ++ [k])%list)
               (fun k x => filterJSON x rules (keys2 ++ [k])%list)); [reflexivity|].
    eapply List.Forall_impl; [|exact IH]. intros [k x] Hx. cbn [fst snd] in *.
    apply Hx. intros suffix. rewrite <- !app_assoc. apply H.
Qed.

(** An object whose members are leaves: each member is tested under the
    key path of the object followed by its name. *)
Lemma flat_members_filtered rules keys vt : forall vf r,
  Forall (fun kv => is_leaf (snd kv) = true) vt ->
  filter_members (fun k x => filterJSON x rules (keys ++ [k])%list) vt vf = Ok r ->
  r = (vf ++ passing_members rules keys vt)%list.
Proof.
  induction vt as [|[k x] vt IH]; intros vf r Hl H.
  - cbn in H. injection H as <-. cbn. now rewrite app_nil_r.
  - apply List.Forall_cons_iff in Hl as [Hx Hvt]. cbn [snd] in Hx.
    cbn [filter_members] in H. rewrite (filterJSON_leaf _ _ _ Hx) in H.
    unfold passing_members. cbn [List.filter fst snd].
    unfold passes at 1. cbn [fst].
    destruct (checkFilter rules (keys ++ [k])%list) as [[|]|e];
      cbn in H; [| |discriminate].
    + apply IH in H; [|exact Hvt]. rewrite H, <- app_assoc. reflexivity.
    + apply IH in H; [|exact Hvt]. exact H.
Qed.

Lemma flat_object_filtered rules keys members w m :
  flat_object members ->
  filterJSON (JObject members) rules keys = Ok (w, m) ->
  w = JObject (passing_members rules keys members) /\
  m = nonempty (passing_members rules keys members).
Proof.
  intros [Hne Hl] H. destruct members as [|kv vt]; [congruence|].
  rewrite filterJSON_object in H. apply bind_Ok in H as (vf & Hvf & H).
  apply flat_members_filtered in Hvf; [|exact Hl]. cbn [app] in Hvf. subst vf.
  injection H as <- <-. auto.
Qed.

(** An array of such objects: the members of each element are tested under
    the key path of the array followed by their name; an element is kept when
    a member of it is. *)
Lemma flat_objects_filtered rules keys elems : forall vf r,
  Forall flat_object elems ->
  filter_elems (fun x => filterJSON x rules keys) (map JObject elems) vf = Ok r ->
  r = (vf ++ map JObject
                 (List.filter nonempty (map (passing_members rules keys) elems)))%list.
Proof.
  induction elems as [|members elems IH]; intros vf r Hl H.
  - cbn in H. injection H as <-. cbn. now rewrite app_nil_r.
  - apply List.Forall_cons_iff in Hl as [Hx Hvt].
    cbn [map filter_elems] in H.
    destruct (filterJSON (JObject members) rules keys) as [[w m]|e] eqn:Hf;
      [|discriminate].
    destruct (flat_object_filtered _ _ _ _ _ Hx Hf) as [-> ->].
    cbn [map List.filter].
    destruct (nonempty (passing_members rules keys members)).
    + apply IH in H; [|exact Hvt]. rewrite H, <- app_assoc. reflexivity.
    + apply IH in H; [|exact Hvt]. exact H.
Qed.

Lemma flat_array_filtered rules keys elems :
  elems <> [] ->
  Forall flat_object elems ->
  rules_well_formed rules ->
  filterJSON (JArray (map JObject elems)) rules keys
  = Ok (slice_of (map JObject
                      (List.filter nonempty
                                   (map (passing_members rules keys) elems))),
        nonempty (List.filter nonempty
                              (map (passing_members rules keys) elems))).
Proof.
  intros Hne Hl Hwf.
  destruct (filterJSON_total rules Hwf (JArray (map JObject elems)) keys)
    as [[w m] Hr].
  rewrite Hr. destruct elems as [|members elems]; [congruence|].
  cbn [map] in Hr. rewrite filterJSON_array in Hr.
  apply bind_Ok in Hr as (vf & Hvf & Hr).
  apply (flat_objects_filtered rules keys (members :: elems)) in Hvf; [|exact Hl].
  cbn [app] in Hvf. subst vf. injection Hr as <- <-.
  cbn [map List.filter].
  destruct (nonempty (passing_members rules keys members)); [reflexivity|].
  destruct (List.filter nonempty (map (passing_members rules keys) elems));
    reflexivity.
Qed.

Lemma passing_members_spec rules keys members k x :
  rules_well_formed rules ->
  In (k, x) (passing_members rules keys members) <->
  In (k, x) members /\ whitelisted rules (path.Join (keys ++ [k])%list).
Proof.
  intros Hwf. unfold passing_members. rewrite filter_In. cbn [fst snd].
  destruct (checkFilter_total rules (keys ++ [k])%list Hwf) as [b Hb].
  rewrite (passes_whitelisted rules ((keys ++ [k])%list, x) b Hb). reflexivity.
Qed.

End filter_more.

Module literal_facts.
Import path.

Lemma literal_cons c p :
  literal (String c p) = true ->
  Ascii.eqb c star_c = false /\ Ascii.eqb c qmark = false /\
  Ascii.eqb c lbracket = false /\ Ascii.eqb c backslash = false /\
  literal p = true.
Proof.
  cbn [literal]. rewrite !andb_true_iff, !negb_true_iff. tauto.
Qed.

Lemma scan_literal p : literal p = true -> scan p false = (p, EmptyString).
Proof.
  induction p as [|c p IH]; [reflexivity|]. intros H.
  apply literal_cons in H as (Hs & _ & Hl & Hb & Hp).
  cbn [scan]. rewrite Hb, Hl, Hs.
  destruct (Ascii.eqb c rbracket); rewrite (IH Hp); reflexivity.
Qed.

Lemma scanChunk_literal c p :
  literal (String c p) = true ->
  scanChunk (String c p) = (false, String c p, EmptyString).
Proof.
  intros H. unfold scanChunk.
  pose proof (literal_cons _ _ H) as (Hs & _).
  cbn [strip_stars]. rewrite Hs, (scan_literal _ H). reflexivity.
Qed.

Lemma matchChunk_loop_literal_failed fuel : forall chunk s,
  literal chunk = true -> matchChunk_loop fuel chunk s true = Ok None.
Proof.
  induction fuel as [|fuel IH]; intros chunk s H; [reflexivity|].
  destruct chunk as [|c chunk]; [reflexivity|].
  apply literal_cons in H as (_ & Hq & Hl & Hb & Hp).
  cbn [matchChunk_loop orb]. rewrite Hl, Hq, Hb. now apply IH.
Qed.

(** A chunk without metacharacter matches as a prefix. *)
Lemma matchChunk_loop_literal fuel : forall chunk s,
  literal chunk = true ->
  (String.length chunk <= fuel)%nat ->
  matchChunk_loop fuel chunk s false = Ok (strip_prefix chunk s).
Proof.
  induction fuel as [|fuel IH]; intros chunk s H Hlen.
  - destruct chunk; [reflexivity|cbn in Hlen; lia].
  - destruct chunk as [|c chunk]; [reflexivity|].
    apply literal_cons in H as (_ & Hq & Hl & Hb & Hp).
    cbn [String.length] in Hlen.
    cbn [matchChunk_loop orb]. rewrite Hl, Hq, Hb.
    destruct s as [|d s]; cbn [is_empty strip_prefix].
    + now apply matchChunk_loop_literal_failed.
    + cbn [tail skip starts_with]. destruct (Ascii.eqb d c); cbn [negb].
      * apply IH; [exact Hp|lia].
      * now apply matchChunk_loop_literal_failed.
Qed.

Lemma strip_prefix_eqb p : forall name,
  match strip_prefix p name with
  | Some t => is_empty t
  | None => false
  end = String.eqb p name.
Proof.
  induction p as [|c p IH]; intros [|d name]; cbn [strip_prefix String.eqb is_empty];
    try reflexivity.
  rewrite (Ascii.eqb_sym c d). destruct (Ascii.eqb d c); [apply IH|reflexivity].
Qed.

(** [path.Match] on a pattern without metacharacter is equality. *)
Lemma Match_literal pattern name :
  literal pattern = true -> Match pattern name = Ok (String.eqb pattern name).
Proof.
  intros H. unfold Match. destruct pattern as [|c p].
  - destruct name; reflexivity.
  - cbn [String.length Match_loop is_empty].
    rewrite (scanChunk_literal _ _ H). cbn [andb].
    unfold matchChunk.
    rewrite matchChunk_loop_literal by (exact H || lia).
    rewrite bind_Ok_eq. rewrite <- strip_prefix_eqb.
    destruct (strip_prefix (String c p) name) as [t|].
    + cbn [is_empty negb orb]. rewrite orb_false_r.
      destruct (is_empty t) eqn:Ht.
      * destruct (String.length p); cbn [Match_loop is_empty]; now rewrite Ht.
      * rewrite bind_Ok_eq. reflexivity.
    + rewrite bind_Ok_eq. reflexivity.
Qed.

End literal_facts.

Module serve_more.

Lemma authorize_UnknownRole_inv registry roles urlpath method : forall acc role,
  authorize registry roles urlpath method acc = UnknownRole role ->
  In role roles /\ registry !! role = None.
Proof.
  induction roles as [|r roles IH]; intros acc role H; cbn [authorize] in H;
    [discriminate|].
  destruct (registry !! r) as [rr|] eqn:Hr.
  - destruct (match_role rr urlpath method acc) as [matches'|e]; [|discriminate].
    destruct (IH _ _ H) as [Hin Hnone]. split; [right; exact Hin|exact Hnone].
  - injection H as <-. split; [left; reflexivity|exact Hr].
Qed.

Lemma del_hop_headers_spec canon (h : Header) (k : string) (vs : list string) :
  In (k, vs) (del_hop_headers canon h) <->
  In (k, vs) h /\ ~ In k (map canon hopHeaders).
Proof.
  unfold del_hop_headers. rewrite filter_In. cbn [fst].
  assert (Hex : existsb (String.eqb k) (map canon hopHeaders) = true <->
                In k (map canon hopHeaders)).
  { rewrite existsb_exists. split.
    - intros (x & Hx & Heq). apply String.eqb_eq in Heq. now subst.
    - intros Hin. exists k. split; [exact Hin|apply String.eqb_refl]. }
  destruct (existsb (String.eqb k) (map canon hopHeaders)); cbn [negb].
  - split; [intros [_ ?]; discriminate|]. intros [_ Hn]. destruct Hn.
    now apply Hex.
  - split; [|intros [? _]; split; [assumption|reflexivity]].
    intros [Hin _]. split; [exact Hin|]. intros Hk. apply Hex in Hk. discriminate.
Qed.

(** How [respond] ends: it returns when the writer takes the envelope, and
    panics, after the status was written, when it does not. *)
Lemma respond_unauthorized_inv canon rw message :
  (exists u,
      w_Write rw (ErrorEnvelope "unauthorized" message) = Ok u /\
      respond_unauthorized canon rw message
      = Returned
          {| status := StatusUnauthorized;
             header := Header_Set canon (w_Header rw)
                                  "Content-Type" "application/json";
             sent := ErrorEnvelope "unauthorized" message;
             header_after := Header_Set canon (w_Header rw)
                                        "Content-Type" "application/json" |}) \/
  (exists e,
      w_Write rw (ErrorEnvelope "unauthorized" message) = Err e /\
      respond_unauthorized canon rw message = Panicked (Some StatusUnauthorized) e).
Proof.
  unfold respond_unauthorized.
  destruct (w_Write rw (ErrorEnvelope "unauthorized" message)) as [u|e]; eauto.
Qed.

Lemma respond_unauthorized_Returned canon rw message w code text :
  respond_unauthorized canon rw message = Returned w ->
  sent w = ErrorEnvelope code text ->
  status w = StatusUnauthorized /\ code = "unauthorized" /\ text = message /\
  header w = Header_Set canon (w_Header rw) "Content-Type" "application/json".
Proof.
  intros H Hsent.
  destruct (respond_unauthorized_inv canon rw message)
    as [(u & _ & Heq)|(e & _ & Heq)]; rewrite Heq in H; [|discriminate].
  injection H as <-. cbn [sent] in Hsent. injection Hsent as <- <-. auto.
Qed.

Lemma respond_unauthorized_RawBody canon rw message w body :
  respond_unauthorized canon rw message = Returned w ->
  sent w <> RawBody body.
Proof.
  intros H.
  destruct (respond_unauthorized_inv canon rw message)
    as [(u & _ & Heq)|(e & _ & Heq)]; rewrite Heq in H; [|discriminate].
  injection H as <-. discriminate.
Qed.

End serve_more.

Module order_more.

(** With well-formed patterns, the loop over a role appends the rules of
    the entries that grant the request. *)
Lemma match_role_grants rr urlpath method : forall acc,
  role_well_formed_on rr urlpath ->
  match_role rr urlpath method acc
  = Ok (acc ++ map snd (List.filter (grants urlpath method) rr))%list.
Proof.
  induction rr as [|[pattern rule] rr IH]; intros acc Hwf.
  - cbn. now rewrite List.app_nil_r.
  - assert (Hwf' : role_well_formed_on rr urlpath).
    { intros p0 r0 Hin. apply (Hwf p0 r0). right. exact Hin. }
    destruct (Hwf pattern rule (or_introl eq_refl)) as [b Hb].
    cbn [match_role List.filter]. unfold grants at 1. cbn [fst snd].
    rewrite Hb, bind_Ok_eq. destruct b; cbn [negb].
    + destruct (method_allowed (Methods rule) method).
      * rewrite IH by exact Hwf'. cbn [map]. now rewrite <- List.app_assoc.
      * apply IH, Hwf'.
    + apply IH, Hwf'.
Qed.

Lemma role_well_formed_on_Permutation rr rr' urlpath :
  Permutation rr rr' ->
  role_well_formed_on rr urlpath -> role_well_formed_on rr' urlpath.
Proof.
  intros Hp Hwf pattern rule Hin. apply (Hwf pattern rule).
  eapply Permutation_in; [symmetry; exact Hp|exact Hin].
Qed.

(** The loops over the roles, in two registries that differ by the order
    of the entries: the same verdict, with the matched rules in some order. *)
Lemma authorize_same_registry registry registry' urlpath method roles :
  same_registry registry registry' ->
  registry_well_formed_on registry urlpath ->
  forall acc acc',
    Permutation acc acc' ->
    match authorize registry roles urlpath method acc,
          authorize registry' roles urlpath method acc' with
    | Matched matches, Matched matches' => Permutation matches matches'
    | UnknownRole role, UnknownRole role' => role = role'
    | _, _ => False
    end.
Proof.
  intros Hsame Hwf.
  induction roles as [|role roles IH]; intros acc acc' Hacc; cbn [authorize];
    [exact Hacc|].
  specialize (Hsame role) as Hrole.
  destruct (registry !! role) as [rr|] eqn:Hr;
    destruct (registry' !! role) as [rr'|] eqn:Hr'; try contradiction;
    [|reflexivity].
  destruct (Hwf role rr Hr) as [Hwf_rr _].
  rewrite (match_role_grants rr) by exact Hwf_rr.
  rewrite (match_role_grants rr')
    by exact (role_well_formed_on_Permutation _ _ _ Hrole Hwf_rr).
  apply IH. apply Permutation_app; [exact Hacc|].
  apply Permutation_map, order_facts.Permutation_list_filter, Hrole.
Qed.

Lemma patterns_Permutation rules rules' pattern :
  Permutation rules rules' ->
  In pattern (response_patterns rules) -> In pattern (response_patterns rules').
Proof.
  unfold response_patterns. intros Hp Hin.
  apply in_flat_map in Hin as (rule & Hr & Hk). apply in_flat_map.
  exists rule. split; [eapply Permutation_in; eassumption|exact Hk].
Qed.

End order_more.

Module api_more.

Lemma missing_role_None registry roles :
  missing_role registry roles = None <->
  Forall (fun role => is_Some (registry !! role)) roles.
Proof.
  induction roles as [|role roles IH]; cbn [missing_role].
  - split; [constructor|reflexivity].
  - destruct (registry !! role) as [rr|] eqn:Hr.
    + rewrite IH. split.
      * intros H. constructor; [rewrite Hr; eauto|exact H].
      * intros H. now apply List.Forall_cons_iff in H as [_ H].
    + split; [discriminate|]. intros H.
      apply List.Forall_cons_iff in H as [[rr Hrr] _]. congruence.
Qed.

Lemma missing_role_Some registry roles role :
  missing_role registry roles = Some role ->
  exists before after,
    roles = (before ++ role :: after)%list /\
    Forall (fun role => is_Some (registry !! role)) before /\
    registry !! role = None.
Proof.
  induction roles as [|r roles IH]; cbn [missing_role]; [discriminate|].
  destruct (registry !! r) as [rr|] eqn:Hr.
  - intros H. destruct (IH H) as (before & after & -> & Hb & Hnone).
    exists (r :: before), after. split; [reflexivity|].
    split; [|exact Hnone]. constructor; [rewrite Hr; eauto|exact Hb].
  - intros H. injection H as <-. exists [], roles.
    split; [reflexivity|]. split; [constructor|exact Hr].
Qed.

Lemma authorize_registered registry roles urlpath method acc role :
  Forall (fun role => is_Some (registry !! role)) roles ->
  authorize registry roles urlpath method acc <> UnknownRole role.
Proof.
  intros Hall H. apply serve_more.authorize_UnknownRole_inv in H as [Hin Hnone].
  rewrite List.Forall_forall in Hall. destruct (Hall role Hin) as [rr Hrr].
  congruence.
Qed.

End api_more.

Module request_more.
Section facts.
Variable canon : string -> string.

Lemma values_lookup (h : HeaderMap) key vv :
  vv <> [] -> values h key = vv -> h !! key = Some vv.
Proof.
  unfold values. destruct (h !! key) as [l|]; cbn [default]; intros Hne <-;
    [reflexivity|congruence].
Qed.

Lemma values_None (h : HeaderMap) key : h !! key = None -> values h key = [].
Proof. unfold values. now intros ->. Qed.

Lemma Header_Get_values h key :
  Header_Get canon h key
  = match values h (canon key) with v :: _ => v | [] => EmptyString end.
Proof. unfold Header_Get, values. destruct (h !! canon key) as [[|? ?]|]; reflexivity. Qed.

Lemma is_empty_true s : is_empty s = true <-> s = EmptyString.
Proof. destruct s; cbn; split; congruence. Qed.

Lemma add_all_lookup k vv : forall (dst : HeaderMap) j,
  fold_left (fun d v => Header_Add canon d k v) vv dst !! j
  = if decide (canon k = j)
    then match vv with
         | [] => dst !! j
         | _ :: _ => Some (values dst j ++ vv)%list
         end
    else dst !! j.
Proof.
  induction vv as [|v vv IH]; intros dst j; cbn [fold_left].
  - destruct (decide _); reflexivity.
  - rewrite IH. unfold Header_Add.
    destruct (decide (canon k = j)) as [<-|Hne].
    + destruct vv as [|v' vv]; [apply lookup_insert_eq|].
      unfold values at 1. rewrite lookup_insert_eq. cbn [from_option id].
      now rewrite <- List.app_assoc.
    + now rewrite lookup_insert_ne.
Qed.

Lemma copyHeader_cons dst k vv rest :
  copyHeader canon dst ((k, vv) :: rest)
  = copyHeader canon (fold_left (fun d v => Header_Add canon d k v) vv dst) rest.
Proof. reflexivity. Qed.

(** What [copyHeader] leaves under a key, for entries with distinct
    canonical keys, in whatever order. *)
Lemma copyHeader_lookup entries : forall dst,
  NoDup (map fst entries) ->
  (forall k vv, In (k, vv) entries -> canon k = k) ->
  forall j,
    (forall vv, In (j, vv) entries ->
                copyHeader canon dst entries !! j
                = match vv with
                  | [] => dst !! j
                  | _ :: _ => Some (values dst j ++ vv)%list
                  end) /\
    (~ In j (map fst entries) -> copyHeader canon dst entries !! j = dst !! j).
Proof.
  induction entries as [|[k vv0] rest IH]; intros dst Hnd Hcanon j.
  - split; [intros vv []|reflexivity].
  - rewrite copyHeader_cons. cbn [map fst] in Hnd.
    apply NoDup_cons in Hnd as [Hk Hnd].
    rewrite list_elem_of_In in Hk.
    assert (Hk' : canon k = k) by (apply (Hcanon k vv0); left; reflexivity).
    assert (Hcanon' : forall k vv, In (k, vv) rest -> canon k = k).
    { intros k1 vv1 Hin. apply (Hcanon k1 vv1). right. exact Hin. }
    destruct (IH (fold_left (fun d v => Header_Add canon d k v) vv0 dst)
                 Hnd Hcanon' j) as [IH1 IH2].
    split.
    + intros vv [Heq|Hin].
      * injection Heq as -> ->. rewrite (IH2 Hk), add_all_lookup.
        now rewrite decide_True by exact Hk'.
      * assert (Hjk : k <> j).
        { intros ->. apply Hk. apply in_map_iff. exists (j, vv). auto. }
        rewrite (IH1 vv Hin). unfold values. rewrite add_all_lookup.
        now rewrite decide_False by congruence.
    + intros Hnot. cbn [map fst] in Hnot.
      rewrite IH2 by (intros Hin; apply Hnot; right; exact Hin).
      rewrite add_all_lookup.
      rewrite decide_False; [reflexivity|].
      intros Heq. apply Hnot. left. congruence.
Qed.

Lemma enumerates_map_to_list (h : HeaderMap) : enumerates (map_to_list h) h.
Proof.
  split; [apply NoDup_fst_map_to_list|].
  intros key vv. rewrite <- list_elem_of_In. apply elem_of_map_to_list.
Qed.

(** A copy into a fresh map. *)
Lemma copyHeader_fresh src entries :
  canonical_keys canon src ->
  enumerates entries src ->
  forall key,
    copyHeader canon ∅ entries !! key
    = match src !! key with
      | Some (v :: vv) => Some (v :: vv)
      | _ => None
      end.
Proof.
  intros Hcanon [Hnd Hin] key.
  assert (Hc : forall k vv, In (k, vv) entries -> canon k = k).
  { intros k vv Hk. apply Hcanon. apply Hin in Hk. rewrite Hk. eauto. }
  destruct (copyHeader_lookup entries ∅ Hnd Hc key) as [H1 H2].
  destruct (src !! key) as [vv|] eqn:Hsrc.
  - rewrite (H1 vv) by now apply Hin.
    destruct vv; [apply lookup_empty|].
    unfold values. now rewrite lookup_empty.
  - rewrite H2; [apply lookup_empty|].
    intros Hk. apply in_map_iff in Hk as ([k vv] & <- & Hk).
    apply Hin in Hk. cbn [fst] in Hsrc. congruence.
Qed.

Lemma canonical_insert (h : HeaderMap) key vv :
  canon key = key -> canonical_keys canon h ->
  canonical_keys canon (<[key := vv]> h).
Proof.
  intros Hk Hh k Hsome. destruct (decide (key = k)) as [<-|Hne]; [exact Hk|].
  rewrite lookup_insert_ne in Hsome by exact Hne. now apply Hh.
Qed.

Lemma canonical_delete (h : HeaderMap) key :
  canonical_keys canon h -> canonical_keys canon (delete key h).
Proof.
  intros Hh k Hsome. destruct (decide (key = k)) as [<-|Hne].
  - rewrite lookup_delete_eq in Hsome. now destruct Hsome.
  - rewrite lookup_delete_ne in Hsome by exact Hne. now apply Hh.
Qed.

Lemma copy_values m :
  canonical_keys canon m ->
  forall k, values (copyHeader canon ∅ (map_to_list m)) k = values m k.
Proof.
  intros Hm k. unfold values.
  rewrite (copyHeader_fresh m _ Hm (enumerates_map_to_list m)).
  destruct (m !! k) as [[|? ?]|]; reflexivity.
Qed.

Lemma copy_None m :
  canonical_keys canon m ->
  forall k, m !! k = None -> copyHeader canon ∅ (map_to_list m) !! k = None.
Proof.
  intros Hm k Hk.
  now rewrite (copyHeader_fresh m _ Hm (enumerates_map_to_list m)), Hk.
Qed.

Lemma canonical_copy m :
  canonical_keys canon m ->
  canonical_keys canon (copyHeader canon ∅ (map_to_list m)).
Proof.
  intros Hm k Hsome. apply Hm.
  rewrite (copyHeader_fresh m _ Hm (enumerates_map_to_list m)) in Hsome.
  destruct (m !! k); [eauto|]. now destruct Hsome.
Qed.

(** One turn of the loop over the hop-by-hop headers. *)
Lemma remove_hop_spec s h :
  canon h = h ->
  canonical_keys canon (outreq_Header s) ->
  canonical_keys canon (outreq_Header (remove_hop canon s h)) /\
  r_Header (remove_hop canon s h) = r_Header s /\
  (forall k, outreq_Header s !! k = None ->
             outreq_Header (remove_hop canon s h) !! k = None) /\
  (Header_Get canon (outreq_Header s) h <> EmptyString ->
   outreq_Header (remove_hop canon s h) !! h = None /\
   copiedHeaders (remove_hop canon s h) = true) /\
  (forall k, k <> h ->
             values (outreq_Header (remove_hop canon s h)) k
             = values (outreq_Header s) k) /\
  (Header_Get canon (outreq_Header s) h = EmptyString ->
   remove_hop canon s h = s) /\
  (copiedHeaders s = true -> copiedHeaders (remove_hop canon s h) = true).
Proof.
  intros Hh Hcanon. unfold remove_hop.
  destruct (is_empty (Header_Get canon (outreq_Header s) h)) eqn:He; cbn [negb].
  - apply is_empty_true in He.
    repeat split; try reflexivity; try (intros; assumption); try congruence.
  - assert (Hne : Header_Get canon (outreq_Header s) h <> EmptyString).
    { intros Heq. rewrite Heq in He. discriminate. }
    unfold Header_Del. rewrite Hh.
    destruct s as [m|inb outb]; cbn [on_outreq outreq_Header r_Header copiedHeaders] in *.
    + split; [apply canonical_delete, canonical_copy, Hcanon|].
      split; [reflexivity|].
      split.
      { intros k Hk. destruct (decide (h = k)) as [<-|Hhk].
        - apply lookup_delete_eq.
        - rewrite lookup_delete_ne by exact Hhk. now apply copy_None. }
      split; [intros _; split; [apply lookup_delete_eq|reflexivity]|].
      split.
      { intros k Hk. unfold values at 1.
        rewrite lookup_delete_ne by congruence.
        exact (copy_values m Hcanon k). }
      split; [congruence|reflexivity].
    + split; [apply canonical_delete, Hcanon|].
      split; [reflexivity|].
      split.
      { intros k Hk. destruct (decide (h = k)) as [<-|Hhk].
        - apply lookup_delete_eq.
        - now rewrite lookup_delete_ne by exact Hhk. }
      split; [intros _; split; [apply lookup_delete_eq|reflexivity]|].
      split.
      { intros k Hk. unfold values. now rewrite lookup_delete_ne by congruence. }
      split; [congruence|reflexivity].
Qed.

(** The loop over the hop-by-hop headers. *)
Lemma remove_hops_spec l : forall s,
  NoDup l ->
  Forall (fun h => canon h = h) l ->
  canonical_keys canon (outreq_Header s) ->
  canonical_keys canon (outreq_Header (fold_left (remove_hop canon) l s)) /\
  r_Header (fold_left (remove_hop canon) l s) = r_Header s /\
  (forall k, outreq_Header s !! k = None ->
             outreq_Header (fold_left (remove_hop canon) l s) !! k = None) /\
  (forall k, In k l -> Header_Get canon (outreq_Header s) k <> EmptyString ->
             outreq_Header (fold_left (remove_hop canon) l s) !! k = None /\
             copiedHeaders (fold_left (remove_hop canon) l s) = true) /\
  (forall k, canon k = k ->
             (~ In k l \/ Header_Get canon (outreq_Header s) k = EmptyString) ->
             values (outreq_Header (fold_left (remove_hop canon) l s)) k
             = values (outreq_Header s) k) /\
  ((forall h, In h l -> Header_Get canon (outreq_Header s) h = EmptyString) ->
   fold_left (remove_hop canon) l s = s) /\
  (copiedHeaders s = true -> copiedHeaders (fold_left (remove_hop canon) l s) = true).
Proof.
  induction l as [|h l IH]; intros s Hnd Hl Hcanon; cbn [fold_left].
  - repeat split; try reflexivity; try (intros; assumption);
      intros; contradiction.
  - apply NoDup_cons in Hnd as [Hh Hnd]. rewrite list_elem_of_In in Hh.
    apply List.Forall_cons_iff in Hl as [Hch Hl].
    destruct (remove_hop_spec s h Hch Hcanon)
      as (Hc1 & Hr1 & Hn1 & Hd1 & Hv1 & He1 & Hk1).
    destruct (IH (remove_hop canon s h) Hnd Hl Hc1)
      as (Hc2 & Hr2 & Hn2 & Hd2 & Hv2 & He2 & Hk2).
    assert (Hget : forall k, canon k = k -> k <> h ->
                             Header_Get canon (outreq_Header (remove_hop canon s h)) k
                             = Header_Get canon (outreq_Header s) k).
    { intros k Hck Hkh. rewrite !Header_Get_values, Hck. now rewrite Hv1. }
    split; [exact Hc2|]. split; [congruence|].
    split; [intros k Hk; apply Hn2, Hn1, Hk|].
    split.
    { intros k [<-|Hin] Hne.
      - destruct (Hd1 Hne) as [Hnone Hcop]. split; [apply Hn2, Hnone|apply Hk2, Hcop].
      - assert (Hkh : k <> h) by (intros ->; contradiction).
        rewrite List.Forall_forall in Hl.
        apply Hd2; [exact Hin|]. rewrite Hget; auto. }
    split.
    { intros k Hck Hcase.
      destruct (decide (k = h)) as [->|Hkh].
      - destruct Hcase as [Hnot|Hempty]; [destruct Hnot; left; reflexivity|].
        rewrite (He1 Hempty) in Hv2 |- *. apply Hv2; [exact Hck|]. left. exact Hh.
      - rewrite <- (Hv1 k Hkh). apply Hv2; [exact Hck|].
        destruct Hcase as [Hnot|Hempty].
        + left. intros Hin. apply Hnot. right. exact Hin.
        + right. rewrite Hget; auto. }
    split.
    { intros Hall. rewrite (He1 (Hall h (or_introl eq_refl))) in He2 |- *.
      apply He2. intros h' Hin. apply Hall. right. exact Hin. }
    intros Hcop. apply Hk2, Hk1, Hcop.
Qed.

Lemma hopHeaders_NoDup : NoDup hopHeaders.
Proof.
  unfold hopHeaders.
  repeat (apply NoDup_cons_2; [rewrite list_elem_of_In; cbn; intuition discriminate|]).
  apply NoDup_nil_2.
Qed.

Lemma named_keys_not_hop :
  ~ In "Authorization" hopHeaders /\ ~ In "X-Forwarded-For" hopHeaders.
Proof. split; cbn; intuition discriminate. Qed.

Lemma outreq_Header_on_outreq f s :
  outreq_Header (on_outreq f s) = f (outreq_Header s).
Proof. destruct s; reflexivity. Qed.

Lemma r_Header_on_outreq f s :
  r_Header (on_outreq f s) = if copiedHeaders s then r_Header s else f (r_Header s).
Proof. destruct s; reflexivity. Qed.

Lemma shared_same s : copiedHeaders s = false -> outreq_Header s = r_Header s.
Proof. destruct s; [reflexivity|discriminate]. Qed.

Lemma outreq_Header_forward_for s clientIP :
  canon "X-Forwarded-For" = "X-Forwarded-For" ->
  outreq_Header (forward_for canon s clientIP)
  = <["X-Forwarded-For" :=
        [match outreq_Header s !! "X-Forwarded-For" with
         | Some prior => strings_Join prior ", " +:+ ", " +:+ clientIP
         | None => clientIP
         end]]> (outreq_Header s).
Proof.
  intros Hxff. unfold forward_for. rewrite outreq_Header_on_outreq.
  unfold Header_Set. now rewrite Hxff.
Qed.

Lemma Header_Get_insert_ne (h : HeaderMap) k vv key :
  k <> canon key ->
  Header_Get canon (<[k := vv]> h) key = Header_Get canon h key.
Proof. intros Hne. unfold Header_Get. now rewrite lookup_insert_ne. Qed.

(** The headers after [SetBasicAuth] and the loop over the hop-by-hop
    headers, in terms of the header map of the inbound request. *)
Lemma after_hops (h0 : HeaderMap) (credential : string) :
  canon_fixes_named_keys canon ->
  canonical_keys canon h0 ->
  forall s,
    s = fold_left (remove_hop canon) hopHeaders
                  (Shared (<["Authorization" := [credential]]> h0)) ->
    canonical_keys canon (outreq_Header s) /\
    r_Header s = <["Authorization" := [credential]]> h0 /\
    (forall k, k <> "Authorization" -> h0 !! k = None ->
               outreq_Header s !! k = None) /\
    (forall h, In h hopHeaders -> Header_Get canon h0 h <> EmptyString ->
               outreq_Header s !! h = None /\ copiedHeaders s = true) /\
    (forall h, In h hopHeaders -> Header_Get canon h0 h = EmptyString ->
               values (outreq_Header s) h = values h0 h) /\
    (forall k, ~ In k hopHeaders -> k <> "Authorization" ->
               values (outreq_Header s) k = values h0 k) /\
    outreq_Header s !! "Authorization" = Some [credential] /\
    ((forall h, In h hopHeaders -> Header_Get canon h0 h = EmptyString) ->
     copiedHeaders s = false /\
     outreq_Header s = <["Authorization" := [credential]]> h0).
Proof.
  intros Hfix Hcanon s ->.
  apply List.Forall_cons_iff in Hfix as [Hauth Hfix].
  apply List.Forall_cons_iff in Hfix as [Hxff Hhops].
  destruct named_keys_not_hop as [Hauth_hop Hxff_hop].
  set (h1 := <["Authorization" := [credential]]> h0).
  assert (Hcanon1 : canonical_keys canon h1)
    by (apply canonical_insert; assumption).
  destruct (remove_hops_spec hopHeaders (Shared h1) hopHeaders_NoDup Hhops Hcanon1)
    as (Hc & Hr & Hn & Hd & Hv & He & _).
  cbn [outreq_Header r_Header] in Hr, Hn, Hd, Hv, He.
  assert (Hget : forall h, In h hopHeaders ->
                           Header_Get canon h1 h = Header_Get canon h0 h).
  { intros h Hin. unfold Header_Get, h1.
    rewrite List.Forall_forall in Hhops. rewrite (Hhops h Hin).
    rewrite lookup_insert_ne; [reflexivity|]. intros <-. contradiction. }
  assert (Hval : forall k, k <> "Authorization" -> values h1 k = values h0 k).
  { intros k Hk. unfold values, h1. now rewrite lookup_insert_ne by congruence. }
  split; [exact Hc|]. split; [exact Hr|].
  split.
  { intros k Hk Hnone. apply Hn. unfold h1.
    now rewrite lookup_insert_ne by congruence. }
  split.
  { intros h Hin Hne. apply Hd; [exact Hin|]. now rewrite Hget. }
  split.
  { intros h Hin Hempty. rewrite List.Forall_forall in Hhops.
    rewrite Hv; [apply Hval; intros ->; contradiction|exact (Hhops h Hin)|].
    right. now rewrite Hget. }
  split.
  { intros k Hk Hka. rewrite <- (Hval k Hka).
    destruct (h0 !! k) as [vv|] eqn:Hk0.
    - apply Hv; [|left; exact Hk]. apply Hcanon. rewrite Hk0. eauto.
    - rewrite (values_None h1 k)
        by (unfold h1; now rewrite lookup_insert_ne by congruence).
      apply values_None, Hn. unfold h1.
      now rewrite lookup_insert_ne by congruence. }
  split.
  { apply values_lookup; [discriminate|].
    rewrite Hv; [|exact Hauth|left; exact Hauth_hop].
    unfold values, h1. now rewrite lookup_insert_eq. }
  intros Hall. rewrite He; [split; reflexivity|].
  intros h Hin. rewrite Hget by exact Hin. now apply Hall.
Qed.

End facts.
End request_more.

(** * The claims of the specification *)

(** ** C1: round trip of the token codec *)

Lemma tag_aead_correct : AEAD_correct Fixtures.tag_aead.
Proof.
  split; cbn; intros; [reflexivity | lia | lia].
Qed.

Lemma fill_length c n : String.length (Fixtures.fill c n) = n.
Proof. induction n as [|n IH]; cbn; [reflexivity | now rewrite IH]. Qed.

Lemma env_rand_fills : rand_fills Fixtures.env.
Proof.
  intros i n b H. cbn in H. injection H as <-. apply fill_length.
Qed.

(** C1, as the code has it.  For every key whose roles and credential
    contain no NUL byte, [Open] of a token that [Generate] returned succeeds
    with the same roles and the same credential; its [CreatedAt] is the
    32-bit Unix time of the key as [Generate] stamped it (the current time
    when the key had the zero time), which is the original truncated to
    second precision whenever the original is not the zero time and its Unix
    time lies in [0, 2^32).  With no roles the NUL-split of the payload has
    exactly one part, the credential. *)
Theorem Open_Generate_round_trip
        (a : Auth) (aead : AEAD) (env : Env) (key key' : Key) (token : string) :
  NewGCM a = Ok aead ->
  AEAD_correct aead ->
  rand_fills env ->
  Forall no_nul (Roles key) ->
  no_nul (APIKey key) ->
  Generate a env key = (key', Ok token) ->
  key' = stamp env key /\
  Auth_Open a token
  = Ok {| CreatedAt := time_Unix (uint32 (Unix (CreatedAt key'))) 0;
          Roles := Roles key;
          APIKey := APIKey key |} /\
  (IsZero (CreatedAt key) = false ->
   0 <= Unix (CreatedAt key) < 2 ^ 32 ->
   Auth_Open a token
   = Ok {| CreatedAt := truncate_second (CreatedAt key);
           Roles := Roles key;
           APIKey := APIKey key |}) /\
  (Roles key = [] ->
   bytes_Split (skip 4 (serialize (stamp env key))) NUL = [APIKey key]).
Proof.
  intros Hgcm Hae Hrand Hroles Hcred Hgen.
  unfold Generate in Hgen. apply pair_equal_spec in Hgen as [<- Hloop].
  split; [reflexivity|].
  rewrite Hgcm, bind_Ok_eq in Hloop.
  apply codec_facts.generate_loop_Ok in Hloop
    as (_ & k & nonce & _ & Hread & -> & _).
  apply Hrand in Hread.
  assert (Hsame : Roles (stamp env key) = Roles key /\
                  APIKey (stamp env key) = APIKey key).
  { unfold stamp. destruct (IsZero (CreatedAt key)); split; reflexivity. }
  destruct Hsame as [HR HA].
  assert (Hopen : Auth_Open a (nonce +:+ Seal aead nonce (serialize (stamp env key)))
                  = Ok {| CreatedAt := time_Unix (uint32 (Unix (CreatedAt (stamp env key)))) 0;
                          Roles := Roles key; APIKey := APIKey key |}).
  { rewrite (codec_facts.Open_sealed a aead nonce (stamp env key) Hgcm Hae Hread);
      rewrite ?HR, ?HA; auto. }
  split; [exact Hopen|]. split.
  - intros Hnz Hrange. rewrite Hopen. unfold stamp. rewrite Hnz.
    rewrite codec_facts.uint32_id by exact Hrange. reflexivity.
  - intros Hnil. rewrite codec_facts.serialize_bytes, HR, HA, Hnil.
    cbn [roles_bytes]. unfold put_uint32_be. cbn [String.append skip].
    apply codec_facts.bytes_Split_no_sep. exact Hcred.
Qed.

Lemma Open_Generate_round_trip_witness :
  Auth_Open Fixtures.auth (Fixtures.token_of Fixtures.key)
  = Ok {| CreatedAt := truncate_second (CreatedAt Fixtures.key);
          Roles := Roles Fixtures.key;
          APIKey := APIKey Fixtures.key |}.
Proof.
  refine (proj1 (proj2 (proj2 (Open_Generate_round_trip
                   Fixtures.auth Fixtures.tag_aead Fixtures.env Fixtures.key
                   Fixtures.key (Fixtures.token_of Fixtures.key)
                   eq_refl tag_aead_correct env_rand_fills _ _ _))) _ _).
  - repeat constructor.
  - reflexivity.
  - vm_compute. reflexivity.
  - reflexivity.
  - cbn. lia.
Defined.

(** A key stamped after 2106 comes back with the low 32 bits of its Unix
    time: the round trip does not reproduce its timestamp. *)
Lemma round_trip_timestamp_counterexample :
  Forall (fun role => role <> EmptyString /\ no_nul role) (Roles Fixtures.key_2106) /\
  no_nul (APIKey Fixtures.key_2106) /\
  exists token,
    Generate Fixtures.auth Fixtures.env Fixtures.key_2106
    = (Fixtures.key_2106, Ok token) /\
    Auth_Open Fixtures.auth token
    = Ok {| CreatedAt := time_Unix 5 0;
            Roles := Roles Fixtures.key_2106;
            APIKey := APIKey Fixtures.key_2106 |} /\
    time_Unix 5 0 <> truncate_second (CreatedAt Fixtures.key_2106).
Proof.
  split; [repeat constructor; discriminate|].
  split; [reflexivity|].
  exists (Fixtures.token_of Fixtures.key_2106).
  split; [vm_compute; reflexivity|].
  split; [vm_compute; reflexivity|].
  vm_compute. discriminate.
Qed.

(** ** C4: the filter is idempotent *)

(** C4.  The response filter is idempotent: for every parsed JSON value [v]
    and every rule set [R], [Filter (Filter v R) R] equals [Filter v R]
    (both are the same value, or both the same error).  The order in which
    the second pass visits the members of the objects of [Filter v R] does
    not matter: on every listing of that value it returns a listing of that
    value. *)
Theorem Filter_idempotent (v : value) (R : list Rule) :
  (v' ← Filter v R; Filter v' R) = Filter v R /\
  (forall v' v'',
      Filter v R = Ok v' -> same_json v' v'' ->
      exists w, Filter v'' R = Ok w /\ same_json v' w).
Proof.
  split.
  - destruct (Filter v R) as [v'|e] eqn:H; [|reflexivity].
    rewrite bind_Ok_eq. eapply Filter_fixed_point. exact H.
  - intros v' v'' H Hs. apply Filter_fixed_point in H.
    unfold Filter in H |- *.
    apply bind_Ok in H as ([w0 m] & H & Hw). injection Hw as ->.
    destruct (order_facts.filterJSON_same _ _ _ _ _ _ Hs H) as (w2 & -> & Hw2).
    exists w2. split; [reflexivity | exact Hw2].
Qed.

Lemma Filter_idempotent_witness :
  exists w,
    Filter (JObject [("jobs", Fixtures.jobs); ("id", JNumber Fixtures.float64_123)])
           [Fixtures.rule_two_segments] = Ok w /\
    same_json Fixtures.testFiltered w.
Proof.
  refine (proj2 (Filter_idempotent Fixtures.testResponse
                                   [Fixtures.rule_two_segments])
                Fixtures.testFiltered _ _ _).
  - vm_compute. reflexivity.
  - eapply same_object; [apply perm_swap|].
    repeat constructor; apply order_facts.same_json_refl.
Defined.

(** ** C8: generated tokens contain no colon *)

(** C8.  [Generate] returns a token or fails, and which of the two is
    decided by the attempts, each with its own nonce from [rand.Read].  It
    returns a token exactly when one of the first 100 attempts reads a nonce
    and seals to bytes without colon after attempts that all had a colon; the
    token is the nonce and the sealed bytes of that attempt, so no token that
    it returns contains a colon byte.  It fails exactly in three ways: with
    the error of [cipher.NewGCM]; with its generation error, when all 100
    attempts contain a colon; with the error of [rand.Read], when a nonce
    cannot be read after attempts that all had a colon. *)
Theorem Generate_token_has_no_colon (a : Auth) (env : Env) (key : Key) :
  (forall token,
      snd (Generate a env key) = Ok token <->
      exists aead k nonce,
        NewGCM a = Ok aead /\ (k < 100)%nat /\
        rand_Read env k (NonceSize aead) = Some nonce /\
        contains_byte colon (nonce +:+ Seal aead nonce (serialize (stamp env key)))
        = false /\
        token = nonce +:+ Seal aead nonce (serialize (stamp env key)) /\
        forall j, (j < k)%nat ->
                  attempt_has_colon aead env (serialize (stamp env key)) j) /\
  (forall token,
      snd (Generate a env key) = Ok token ->
      contains_byte colon token = false) /\
  (forall e,
      snd (Generate a env key) = Err e <->
      NewGCM a = Err e \/
      exists aead,
        NewGCM a = Ok aead /\
        ((e = ErrMsg "Failed to generate a valid ciphertext" /\
          forall j, (j < 100)%nat ->
                    attempt_has_colon aead env (serialize (stamp env key)) j) \/
         (e = ErrRandom /\
          exists k,
            (k < 100)%nat /\
            rand_Read env k (NonceSize aead) = None /\
            forall j, (j < k)%nat ->
                      attempt_has_colon aead env (serialize (stamp env key)) j))).
Proof.
  unfold Generate. cbn [snd]. split; [|split].
  - intros token. split.
    + intros H. apply bind_Ok in H as (aead & Hgcm & H).
      apply codec_facts.generate_loop_Ok in H
        as (Hno & k & nonce & Hk & Hread & Ht & Hbefore).
      exists aead, k, nonce.
      split; [exact Hgcm|]. split; [lia|]. split; [exact Hread|].
      split; [now rewrite <- Ht|]. split; [exact Ht|].
      intros j Hj. apply Hbefore. lia.
    + intros (aead & k & nonce & Hgcm & Hk & Hread & Hno & -> & Hbefore).
      rewrite Hgcm, bind_Ok_eq.
      apply (codec_more.generate_loop_first_clean 100 0 k);
        [lia|exact Hread|exact Hno|].
      intros j Hj. apply Hbefore. lia.
  - intros token H. apply bind_Ok in H as (aead & Hgcm & H).
    now apply codec_facts.generate_loop_Ok in H as (Hno & _).
  - intros e. split.
    + intros H. destruct (NewGCM a) as [aead|e'] eqn:Hgcm;
        [rewrite bind_Ok_eq in H | rewrite bind_Err_eq in H].
      * right. exists aead. split; [reflexivity|].
        apply codec_facts.generate_loop_Err in H
          as [(-> & Hall)|(-> & k & Hk & Hnone & Hbefore)].
        -- left. split; [reflexivity|]. intros j Hj. apply Hall. lia.
        -- right. split; [reflexivity|]. exists k. split; [lia|].
           split; [exact Hnone|]. intros j Hj. apply Hbefore. lia.
      * injection H as ->. left. reflexivity.
    + intros [Hgcm|(aead & Hgcm & [(-> & Hall)|(-> & k & Hk & Hnone & Hbefore)])];
        rewrite Hgcm; [now rewrite bind_Err_eq| |]; rewrite bind_Ok_eq.
      * apply codec_facts.generate_loop_all_colon. intros j Hj. apply Hall. lia.
      * apply (codec_more.generate_loop_read_fails 100 0 k);
          [lia|exact Hnone|]. intros j Hj. apply Hbefore. lia.
Qed.

Lemma Generate_token_has_no_colon_witness :
  contains_byte colon (Fixtures.token_of Fixtures.key) = false /\
  snd (Generate Fixtures.auth Fixtures.env_colons Fixtures.key)
  = Err (ErrMsg "Failed to generate a valid ciphertext") /\
  snd (Generate Fixtures.auth Samples.env_second_read_fails Fixtures.key)
  = Err ErrRandom.
Proof.
  split; [|split].
  - refine (proj1 (proj2 (Generate_token_has_no_colon
                            Fixtures.auth Fixtures.env Fixtures.key)) _ _).
    vm_compute. reflexivity.
  - refine (proj2 (proj2 (proj2 (Generate_token_has_no_colon
                                   Fixtures.auth Fixtures.env_colons Fixtures.key))
                         _) _).
    right. exists Fixtures.tag_aead. split; [reflexivity|]. left.
    split; [reflexivity|].
    intros j _. exists (Fixtures.fill ":"%char 12). split; reflexivity.
  - refine (proj2 (proj2 (proj2 (Generate_token_has_no_colon
                                   Fixtures.auth Samples.env_second_read_fails
                                   Fixtures.key))
                         _) _).
    right. exists Fixtures.tag_aead. split; [reflexivity|]. right.
    split; [reflexivity|]. exists 1%nat. split; [lia|]. split; [reflexivity|].
    intros j Hj. assert (j = 0)%nat as -> by lia.
    exists (Fixtures.fill ":"%char 12). split; reflexivity.
Defined.

(** ** C2: a role that is absent from the registry *)

Lemma ServeHTTP_authorized canon rw json p r key :
  authenticate p r = Ok key ->
  ServeHTTP canon rw json p r =
  match authorize (ProxyRoles p) (Roles key) (URLPath r) (Method r) [] with
  | UnknownRole role =>
      respond_unauthorized canon rw ("Role " +:+ role +:+ " does not exist")
  | MatchPanic e => Panicked None e
  | Matched matches =>
      if (length matches =? 0)%nat then
        respond_unauthorized canon rw "You do not have permission to access this resource"
      else
        match request p r (APIKey key) with
        | Err err => Panicked None err
        | Ok (body, res) =>
            if StatusCode res <? 300 then
              match filterBytes json body matches with
              | Err err => Panicked (Some (StatusCode res)) err
              | Ok body' =>
                  Returned {| status := StatusCode res;
                              header := w_Header rw;
                              sent := RawBody body';
                              header_after :=
                                copyHeader canon (w_Header rw)
                                  (del_hop_headers canon (ResHeader res)) |}
              end
            else
              Returned {| status := StatusCode res;
                          header := w_Header rw;
                          sent := RawBody body;
                          header_after :=
                            copyHeader canon (w_Header rw)
                              (del_hop_headers canon (ResHeader res)) |}
        end
  end.
Proof. intros H. unfold ServeHTTP. rewrite H. reflexivity. Qed.

(** A failed round trip to the upstream makes the handler panic, before
    anything was written to the client. *)
Lemma ServeHTTP_transport_error canon rw json p r key matches e :
  authenticate p r = Ok key ->
  authorize (ProxyRoles p) (Roles key) (URLPath r) (Method r) [] = Matched matches ->
  matches <> [] ->
  request p r (APIKey key) = Err e ->
  ServeHTTP canon rw json p r = Panicked None e.
Proof.
  intros Hauth Hm Hne Hreq. rewrite (ServeHTTP_authorized _ _ _ _ _ _ Hauth), Hm.
  destruct matches; [congruence|]. cbn [length Nat.eqb]. now rewrite Hreq.
Qed.




(** ** C3: the matched rules *)

(** C3.  When the roles of the key all exist in the registry, the rules
    that the loops collect are exactly the rules of those roles whose
    pattern matches the path, by [path.Match], and whose methods contain the
    wildcard or the method of the request; the loops do complete when no
    pattern is malformed; neither a star nor a question mark of a pattern
    matches across a slash, so that a matching path has as many segments as
    the pattern; and with no rule collected the handler answers 401.  In the
    scenario of the tests, GET /candidates/baz/boz is answered 401. *)
Theorem matched_rules_are_the_selected
        (canon : string -> string) (rw : ResponseWriter)
        (json : JSONCodec) (p : Proxy) (r : Request) (key : Key) :
  authenticate p r = Ok key ->
  Forall (fun role => is_Some (ProxyRoles p !! role)) (Roles key) ->
  (forall matches,
      authorize (ProxyRoles p) (Roles key) (URLPath r) (Method r) [] = Matched matches ->
      (forall rule,
          In rule matches <->
          exists role rr,
            In role (Roles key) /\ ProxyRoles p !! role = Some rr /\
            selects rr (URLPath r) (Method r) rule) /\
      (matches = [] ->
       ServeHTTP canon rw json p r
       = respond_unauthorized canon rw
           "You do not have permission to access this resource")) /\
  ((forall role rr, In role (Roles key) -> ProxyRoles p !! role = Some rr ->
                    role_well_formed_on rr (URLPath r)) ->
   exists matches,
     authorize (ProxyRoles p) (Roles key) (URLPath r) (Method r) []
     = Matched matches) /\
  (forall pattern name,
      plain pattern = true -> path.Match pattern name = Ok true ->
      count_slash name = count_slash pattern) /\
  (ProxyRoles p = Fixtures.registry ->
   Roles key = ["candidates"] ->
   URLPath r = "/candidates/baz/boz" ->
   Method r = "GET" ->
   path.Match "/candidates/*" (URLPath r) = Ok false /\
   ServeHTTP canon rw json p r
   = respond_unauthorized canon rw "You do not have permission to access this resource").
Proof.
  intros Hauth Hall. rewrite (ServeHTTP_authorized _ _ _ _ _ _ Hauth).
  split; [|split; [|split]].
  - intros matches Hm. rewrite Hm. split.
    + intros rule. destruct (authorize_Matched _ _ _ _ _ _ Hm) as [_ Hrules].
      rewrite (Hrules rule). cbn [In]. tauto.
    + intros ->. reflexivity.
  - intros Hwf. apply authorize_total.
    rewrite List.Forall_forall in Hall |- *. intros role Hin.
    destruct (Hall role Hin) as (rr & Hrr). exists rr. split; [exact Hrr|].
    eapply Hwf; eassumption.
  - exact segment_facts.Match_same_segments.
  - intros -> -> -> ->. split; vm_compute; reflexivity.
Qed.

Lemma matched_rules_are_the_selected_witness :
  ServeHTTP Fixtures.canon Fixtures.writer Fixtures.json (Fixtures.proxy 200)
            (Fixtures.get Fixtures.key "/candidates/baz/boz")
  = respond_unauthorized Fixtures.canon Fixtures.writer
                         "You do not have permission to access this resource".
Proof.
  refine (proj2 (proj2 (proj2 (proj2 (matched_rules_are_the_selected
            Fixtures.canon Fixtures.writer
            Fixtures.json (Fixtures.proxy 200)
            (Fixtures.get Fixtures.key "/candidates/baz/boz")
            Fixtures.key_opened _ _)))
          eq_refl _ eq_refl eq_refl)).
  - vm_compute. reflexivity.
  - constructor; [vm_compute; eauto | constructor].
  - vm_compute. reflexivity.
Defined.

(** ** C5: array elements inherit the key path *)

(** C5.  The elements of a non-empty array are each filtered under the key
    path of the array itself, nothing being appended.  The leaves that the
    filter keeps of an array are the leaves of its elements that pass the
    whitelist test under the key path of the array followed by the names of
    the members that lead to them.  In an array of objects whose members are
    leaves, a member named [k] of any element is kept when some response key
    matches the key path of the array followed by [k], and only then; the
    elements that keep a member stay, in their order, and the array is dropped
    when none does.  So under the response key [jobs/*] the members [name],
    [day] and [other] of the objects in the array [jobs] are all retained, in
    their objects and in the array; under [jobs/name] the member [name] alone
    is, and the second object goes; under response keys with a segment for the
    index nothing is retained. *)
Theorem array_elements_inherit_key_path :
  (forall ve vt rules keys w m,
      filterJSON (JArray (ve :: vt)) rules keys = Ok (w, m) ->
      (if m then leaves w keys else [])
      = List.filter (passes rules)
                    (flat_map (fun x => leaves x keys) (ve :: vt))) /\
  (forall elems rules keys,
      elems <> [] ->
      Forall flat_object elems ->
      rules_well_formed rules ->
      filterJSON (JArray (map JObject elems)) rules keys
      = Ok (slice_of
              (map JObject
                   (List.filter nonempty
                                (map (passing_members rules keys) elems))),
            nonempty (List.filter nonempty
                                  (map (passing_members rules keys) elems)))) /\
  (forall rules keys members k x,
      rules_well_formed rules ->
      In (k, x) (passing_members rules keys members) <->
      In (k, x) members /\ whitelisted rules (path.Join (keys ++ [k])%list)) /\
  Filter (JObject [("jobs", Fixtures.jobs)])
         [{| Methods := ["GET"]; ResponseKeys := ["jobs/*"] |}]
  = Ok (JObject [("jobs", Fixtures.jobs)]) /\
  Filter (JObject [("jobs", Fixtures.jobs)])
         [{| Methods := ["GET"]; ResponseKeys := ["jobs/name"] |}]
  = Ok (JObject [("jobs", JArray [JObject [("name", JString "me")]])]) /\
  Filter (JObject [("jobs", Fixtures.jobs)])
         [{| Methods := ["GET"]; ResponseKeys := ["jobs/other"] |}]
  = Ok (JObject [("jobs", JArray [JObject [("other", JString "stuff")]])]) /\
  Filter (JObject [("jobs", Fixtures.jobs)])
         [{| Methods := ["GET"]; ResponseKeys := ["jobs/0/*"] |}]
  = Ok (JObject []) /\
  Filter (JObject [("jobs", Fixtures.jobs)])
         [{| Methods := ["GET"];
             ResponseKeys := ["jobs/*/*"; "jobs/0/name"; "jobs/1/other"] |}]
  = Ok (JObject []) /\
  (forall ve vt rules keys,
      filterJSON (JArray (ve :: vt)) rules keys =
      (results ← mapM (fun x => filterJSON x rules keys) (ve :: vt);
       Ok (slice_of (kept results), nonempty (kept results)))) /\
  path.Join ["jobs"; "name"] = "jobs/name" /\
  path.Match "jobs/*" "jobs/name" = Ok true /\
  path.Match "jobs/*" "jobs/0/name" = Ok false.
Proof.
  split.
  { intros ve vt rules keys w m H.
    exact (filter_more.leaves_filtered (JArray (ve :: vt)) rules keys w m H). }
  split.
  { intros elems rules keys. apply filter_more.flat_array_filtered. }
  split; [exact filter_more.passing_members_spec|].
  do 5 (split; [vm_compute; reflexivity|]).
  split; [exact filterJSON_array_mapM|].
  repeat split; vm_compute; reflexivity.
Qed.

Lemma array_elements_inherit_key_path_witness :
  filterJSON Fixtures.jobs
             [{| Methods := ["GET"]; ResponseKeys := ["jobs/name"] |}] ["jobs"]
  = Ok (JArray [JObject [("name", JString "me")]], true).
Proof.
  refine (proj1 (proj2 array_elements_inherit_key_path)
                [[("name", JString "me"); ("day", JString "night")];
                 [("other", JString "stuff")]]
                [{| Methods := ["GET"]; ResponseKeys := ["jobs/name"] |}]
                ["jobs"] _ _ _).
  - discriminate.
  - repeat constructor; discriminate.
  - intros rule pattern [<-|[]] [<-|[]]. eexists. vm_compute. reflexivity.
Defined.

(** ** C6: leaves are tested, containers are pruned *)

Lemma filterJSON_container_kept v rules keys w :
  is_leaf v = false ->
  filterJSON v rules keys = Ok (w, true) -> is_leaf w = false.
Proof.
  destruct v as [| | | | |[|ve vt]|[|kv vt]]; try discriminate; intros _ H.
  - rewrite filterJSON_array in H.
    apply bind_Ok in H as ([|x vf] & _ & Hres); [discriminate|].
    now injection Hres as <-.
  - rewrite filterJSON_object in H.
    apply bind_Ok in H as ([|x vf] & _ & Hres); [discriminate|].
    now injection Hres as <-.
Qed.

Lemma filterJSON_container_dropped v rules keys w :
  is_leaf v = false ->
  filterJSON v rules keys = Ok (w, false) -> w = JNilSlice \/ w = JObject [].
Proof.
  destruct v as [| | | | |[|ve vt]|[|kv vt]]; try discriminate; intros _ H.
  - rewrite filterJSON_array in H.
    apply bind_Ok in H as ([|x vf] & _ & Hres); [|discriminate].
    injection Hres as <-. now left.
  - rewrite filterJSON_object in H.
    apply bind_Ok in H as ([|x vf] & _ & Hres); [|discriminate].
    injection Hres as <-. now right.
Qed.

(** C6, as the code has it.  An empty array, an empty object, a scalar or
    null is tested as a leaf: [filterJSON] returns it with the flag that
    says whether some response key of some rule matches its key path, and it
    does return when no response key is malformed.  A non-empty array or
    object is rebuilt from the children whose flag is set (the elements
    under the same key path, the members under the key path extended by
    their name); its own flag says whether any child is left, so that its
    parent drops it when none is, and when its flag is set it is not empty.
    The flag of the root has no parent to act on it: [Filter] returns the
    root value whatever its flag. *)
Theorem leaves_tested_containers_pruned (rules : list Rule) (keys : list string) :
  (forall v, is_leaf v = true ->
             filterJSON v rules keys
             = (matched ← checkFilter rules keys; Ok (v, matched))) /\
  (forall matched, checkFilter rules keys = Ok matched ->
                   (matched = true <-> whitelisted rules (path.Join keys))) /\
  (rules_well_formed rules ->
   forall v, exists result, filterJSON v rules keys = Ok result) /\
  (forall ve vt,
      filterJSON (JArray (ve :: vt)) rules keys =
      (results ← mapM (fun x => filterJSON x rules keys) (ve :: vt);
       Ok (slice_of (kept results), nonempty (kept results)))) /\
  (forall kv vt,
      filterJSON (JObject (kv :: vt)) rules keys =
      (results ← mapM (fun kx => r ← filterJSON (snd kx) rules (keys ++ [fst kx])%list;
                                 Ok (fst kx, r)) (kv :: vt);
       Ok (JObject (kept_members results), nonempty (kept_members results)))) /\
  (forall v w, is_leaf v = false ->
               filterJSON v rules keys = Ok (w, true) -> is_leaf w = false) /\
  (forall v w, is_leaf v = false ->
               filterJSON v rules keys = Ok (w, false) ->
               w = JNilSlice \/ w = JObject []) /\
  (forall v w flag, filterJSON v rules [] = Ok (w, flag) -> Filter v rules = Ok w).
Proof.
  split; [intros v Hv; now apply filterJSON_leaf|].
  split; [intros m; apply checkFilter_spec|].
  split; [intros Hwf v; now apply filterJSON_total|].
  split; [intros; apply filterJSON_array_mapM|].
  split; [intros; apply filterJSON_object_mapM|].
  split; [intros v w; apply filterJSON_container_kept|].
  split; [intros v w; apply filterJSON_container_dropped|].
  intros v w flag H. unfold Filter. now rewrite H.
Qed.

Lemma leaves_tested_containers_pruned_witness :
  exists result,
    filterJSON Fixtures.testResponse [Fixtures.rule_two_segments] [] = Ok result.
Proof.
  refine (proj1 (proj2 (proj2 (leaves_tested_containers_pruned
                                 [Fixtures.rule_two_segments] [])))
                _ Fixtures.testResponse).
  intros rule pattern [<-|[]] [<-|[<-|[<-|[]]]]; vm_compute; eauto.
Defined.

Lemma not_whitelisted_root :
  ~ whitelisted [Fixtures.rule_two_segments] (path.Join []).
Proof.
  intros (rule & pattern & [<-|[]] & Hp & Hm).
  destruct Hp as [<-|[<-|[<-|[]]]]; vm_compute in Hm; discriminate.
Qed.

(** At the root the flag is not acted upon: a string that no response key
    matches is returned all the same, and a non-empty object none of whose
    members is left is returned as an empty object. *)
Lemma root_flag_discarded_counterexample :
  ~ whitelisted [Fixtures.rule_two_segments] (path.Join []) /\
  Filter (JString "stuff") [Fixtures.rule_two_segments] = Ok (JString "stuff") /\
  Filter (JObject [("secret", JString "stuff")]) [Fixtures.rule_two_segments]
  = Ok (JObject []) /\
  Filter (JArray [JString "stuff"]) [Fixtures.rule_two_segments] = Ok JNilSlice.
Proof.
  split; [exact not_whitelisted_root|].
  repeat split; vm_compute; reflexivity.
Qed.

(** ** C7: which bodies are filtered *)

(** C7.  For a request that passed authentication and authorization and
    whose round trip to the upstream returned: with a status of 300 or more
    the upstream body is written as it is; with a status below 300 the body
    written is the serialization of the filtered parse of the upstream body,
    under the matched rules, and the handler panics when parsing, filtering
    or serializing fails. *)
Theorem body_filtered_below_300
        (canon : string -> string) (rw : ResponseWriter)
        (json : JSONCodec) (p : Proxy) (r : Request) (key : Key)
        (matches : list Rule) (body : string) (res : Response) :
  authenticate p r = Ok key ->
  authorize (ProxyRoles p) (Roles key) (URLPath r) (Method r) [] = Matched matches ->
  matches <> [] ->
  request p r (APIKey key) = Ok (body, res) ->
  (300 <= StatusCode res ->
   ServeHTTP canon rw json p r
   = Returned {| status := StatusCode res;
                 header := w_Header rw;
                 sent := RawBody body;
                 header_after :=
                   copyHeader canon (w_Header rw)
                              (del_hop_headers canon (ResHeader res)) |}) /\
  (StatusCode res < 300 ->
   forall parsed filtered flag output,
     Unmarshal json body = Ok parsed ->
     filterJSON parsed matches [] = Ok (filtered, flag) ->
     Marshal json filtered = Ok output ->
     ServeHTTP canon rw json p r
     = Returned {| status := StatusCode res;
                   header := w_Header rw;
                   sent := RawBody output;
                   header_after :=
                     copyHeader canon (w_Header rw)
                                (del_hop_headers canon (ResHeader res)) |}) /\
  (StatusCode res < 300 ->
   forall e, filterBytes json body matches = Err e ->
             ServeHTTP canon rw json p r = Panicked (Some (StatusCode res)) e).
Proof.
  intros Hauth Hm Hne Hreq. rewrite (ServeHTTP_authorized _ _ _ _ _ _ Hauth), Hm.
  destruct matches as [|rule matches]; [congruence|]. cbn [length Nat.eqb].
  rewrite Hreq. split; [|split].
  - intros Hge. apply Z.ltb_ge in Hge. now rewrite Hge.
  - intros Hlt parsed filtered flag output Hu Hf Hmar.
    apply Z.ltb_lt in Hlt. rewrite Hlt.
    unfold filterBytes. rewrite Hu, bind_Ok_eq, Hf, bind_Ok_eq, Hmar. reflexivity.
  - intros Hlt e He. apply Z.ltb_lt in Hlt. now rewrite Hlt, He.
Qed.

Lemma body_filtered_below_300_witness :
  ServeHTTP Fixtures.canon Fixtures.writer Fixtures.json (Fixtures.proxy 404)
            (Fixtures.get Fixtures.key "/candidates/baz")
  = Returned {| status := 404;
                header := ∅;
                sent := RawBody Fixtures.upstream_body;
                header_after := {[ "Foo" := ["bar"] ]} |}.
Proof.
  refine (proj1 (body_filtered_below_300
                   Fixtures.canon Fixtures.writer
                   Fixtures.json (Fixtures.proxy 404)
                   (Fixtures.get Fixtures.key "/candidates/baz")
                   Fixtures.key_opened [Fixtures.rule_two_segments]
                   Fixtures.upstream_body
                   {| StatusCode := 404;
                      ResHeader := [("Foo", ["bar"]); ("Connection", ["close"])] |}
                   _ _ _ eq_refl) _).
  - vm_compute. reflexivity.
  - vm_compute. reflexivity.
  - discriminate.
  - cbn. lia.
Defined.

(** ** C9: what the handler does when the upstream or the filter fails *)

(** C9.  For a request that passed authentication and authorization, to an
    upstream whose statuses [WriteHeader] accepts, from 100 to 999, the
    handler reports none of these failures itself: it panics with the error.
    When the round trip to the upstream fails, it panics before anything was
    written.  When the upstream answered with a status under 300 and the body
    does not parse as JSON, or the filter fails on it, or the filtered value
    does not serialize, [filterBytes] fails and the handler panics after
    [WriteHeader] was called with the status of the upstream: the status
    that the client is sent is that status, under 300.  An authorized request
    makes the handler panic in these two ways only. *)
Theorem failure_panics_after_the_status_is_written
        (canon : string -> string) (rw : ResponseWriter)
        (json : JSONCodec) (p : Proxy) (r : Request)
        (key : Key) (matches : list Rule) :
  (forall apikey body res,
      request p r apikey = Ok (body, res) -> 100 <= StatusCode res <= 999) ->
  authenticate p r = Ok key ->
  authorize (ProxyRoles p) (Roles key) (URLPath r) (Method r) []
  = Matched matches ->
  matches <> [] ->
  (forall e,
      request p r (APIKey key) = Err e ->
      ServeHTTP canon rw json p r = Panicked None e) /\
  (forall body res e,
      request p r (APIKey key) = Ok (body, res) ->
      StatusCode res < 300 ->
      (Unmarshal json body = Err e \/
       exists parsed,
         Unmarshal json body = Ok parsed /\
         (Filter parsed matches = Err e \/
          exists filtered,
            Filter parsed matches = Ok filtered /\
            Marshal json filtered = Err e)) ->
      filterBytes json body matches = Err e /\
      ServeHTTP canon rw json p r = Panicked (Some (StatusCode res)) e) /\
  (forall c e,
      ServeHTTP canon rw json p r = Panicked c e ->
      (c = None /\ request p r (APIKey key) = Err e) \/
      (exists body res,
          request p r (APIKey key) = Ok (body, res) /\
          StatusCode res < 300 /\
          c = Some (StatusCode res) /\
          filterBytes json body matches = Err e)).
Proof.
  intros _ Hauth Hm Hne.
  rewrite (ServeHTTP_authorized _ _ _ _ _ _ Hauth), Hm.
  destruct matches as [|rule matches]; [congruence|]. cbn [length Nat.eqb].
  split; [|split].
  - intros e Hreq. now rewrite Hreq.
  - intros body res e Hreq Hlt Hfail. rewrite Hreq.
    apply Z.ltb_lt in Hlt. rewrite Hlt.
    assert (Hf : filterBytes json body (rule :: matches) = Err e).
    { unfold filterBytes.
      destruct Hfail as [Hu|(parsed & Hu & Hfail)]; rewrite Hu;
        [now rewrite bind_Err_eq|].
      rewrite bind_Ok_eq. unfold Filter in Hfail.
      destruct (filterJSON parsed (rule :: matches) []) as [[filtered m]|e0];
        cbn in Hfail |- *.
      - destruct Hfail as [Hfail|(filtered' & Hfail & Hmarshal)];
          [discriminate|]. injection Hfail as <-. exact Hmarshal.
      - destruct Hfail as [Hfail|(filtered' & Hfail & _)];
          [now injection Hfail as ->|discriminate]. }
    split; [exact Hf|]. now rewrite Hf.
  - intros c e H.
    destruct (request p r (APIKey key)) as [[body res]|e0] eqn:Hreq.
    + right. exists body, res. split; [reflexivity|].
      destruct (StatusCode res <? 300) eqn:Hlt; [|discriminate].
      apply Z.ltb_lt in Hlt.
      destruct (filterBytes json body (rule :: matches)) as [out|e1];
        [discriminate|].
      injection H as <- <-. auto.
    + left. injection H as <- <-. auto.
Qed.

Lemma failure_panics_after_the_status_is_written_witness :
  filterBytes Fixtures.json "<html>" [Fixtures.rule_two_segments] = Err ErrJSON /\
  ServeHTTP Fixtures.canon Fixtures.writer Fixtures.json Samples.proxy_not_json
            (Fixtures.get Fixtures.key "/candidates/baz")
  = Panicked (Some 200) ErrJSON.
Proof.
  refine (proj1 (proj2 (failure_panics_after_the_status_is_written
                          Fixtures.canon Fixtures.writer Fixtures.json
                          Samples.proxy_not_json
                          (Fixtures.get Fixtures.key "/candidates/baz")
                          Fixtures.key_opened [Fixtures.rule_two_segments]
                          _ _ _ _))
                "<html>" {| StatusCode := 200; ResHeader := [("Foo", ["bar"])] |}
                ErrJSON _ _ _).
  - intros apikey body res H. injection H as _ <-. cbn [StatusCode]. lia.
  - vm_compute. reflexivity.
  - vm_compute. reflexivity.
  - discriminate.
  - reflexivity.
  - cbn [StatusCode]. lia.
  - left. reflexivity.
Defined.

(** ** C10: the key path is a cleaned join *)

(** C10.  The key path that is tested is [path.Join] of the member names
    from the root, a cleaned path and not their plain concatenation.  In an
    object whose members are leaves, at any key path, the member named [k] is
    kept when some response key matches [path.Join] of the key path of the
    object followed by [k], and only then.  Two sequences of member names that
    [path.Join] does not tell apart, whatever is appended to both, are filtered
    alike: so a member whose name contains a slash is filtered like nested
    members (a top-level member [a/b] has the key path [a/b] of member [b] in
    member [a]; the response key [a/*] retains it, the response key [*] does
    not), and a member named with the empty string is filtered under the key
    path of its object, contributing no segment; dot segments are resolved;
    different sequences of member names have the same key path. *)
Theorem key_path_is_cleaned_join :
  (forall rules keys,
      checkFilter rules keys = check_rules rules (path.Join keys)) /\
  (forall rules keys members,
      flat_object members ->
      rules_well_formed rules ->
      filterJSON (JObject members) rules keys
      = Ok (JObject (passing_members rules keys members),
            nonempty (passing_members rules keys members))) /\
  (forall rules keys members k x,
      rules_well_formed rules ->
      In (k, x) (passing_members rules keys members) <->
      In (k, x) members /\ whitelisted rules (path.Join (keys ++ [k])%list)) /\
  (forall rules v keys1 keys2,
      (forall suffix, path.Join (keys1 ++ suffix)%list
                      = path.Join (keys2 ++ suffix)%list) ->
      filterJSON v rules keys1 = filterJSON v rules keys2) /\
  (forall rules v keys a b,
      a <> EmptyString -> b <> EmptyString ->
      filterJSON v rules (keys ++ [a +:+ "/" +:+ b])%list
      = filterJSON v rules (keys ++ [a; b])%list) /\
  (forall rules v keys,
      filterJSON v rules (keys ++ [EmptyString])%list = filterJSON v rules keys) /\
  (forall before after,
      path.Join (before ++ EmptyString :: after)%list
      = path.Join (before ++ after)%list) /\
  (path.Join ["a/b"] = "a/b" /\
   path.Join ["a"; "b"] = "a/b" /\
   path.Join ["a"; "."; "b"] = "a/b" /\
   path.Join ["a"; "c"; ".."; "b"] = "a/b") /\
  (Filter (JObject [("a/b", JString "x")])
          [{| Methods := ["GET"]; ResponseKeys := ["a/*"] |}]
   = Ok (JObject [("a/b", JString "x")]) /\
   Filter (JObject [("a/b", JString "x")])
          [{| Methods := ["GET"]; ResponseKeys := ["*"] |}]
   = Ok (JObject []) /\
   Filter (JObject [("a", JObject [("b", JString "x")])])
          [{| Methods := ["GET"]; ResponseKeys := ["a/b"] |}]
   = Ok (JObject [("a", JObject [("b", JString "x")])]) /\
   Filter (JObject [("a/b", JString "x")])
          [{| Methods := ["GET"]; ResponseKeys := ["a/b"] |}]
   = Ok (JObject [("a/b", JString "x")]) /\
   Filter (JObject [("a", JObject [(EmptyString, JString "x")])])
          [{| Methods := ["GET"]; ResponseKeys := ["a"] |}]
   = Ok (JObject [("a", JObject [(EmptyString, JString "x")])]) /\
   Filter (JObject [("a", JObject [(EmptyString, JString "x")])])
          [{| Methods := ["GET"]; ResponseKeys := ["a/*"] |}]
   = Ok (JObject []) /\
   Filter (JObject [("a", JObject [("b/c", JString "x")])])
          [{| Methods := ["GET"]; ResponseKeys := ["a/b/c"] |}]
   = Ok (JObject [("a", JObject [("b/c", JString "x")])]) /\
   Filter (JObject [("a", JObject [("b/c", JString "x")])])
          [{| Methods := ["GET"]; ResponseKeys := ["b/c"; "a/*"] |}]
   = Ok (JObject [])) /\
  (exists keys1 keys2 : list string,
      keys1 <> keys2 /\ path.Join keys1 = path.Join keys2 /\
      forall rules v, filterJSON v rules keys1 = filterJSON v rules keys2).
Proof.
  split; [reflexivity|].
  split.
  { intros rules keys members Hflat Hwf.
    destruct (filterJSON_total rules Hwf (JObject members) keys) as [[w m] Hr].
    rewrite Hr.
    now destruct (filter_more.flat_object_filtered _ _ _ _ _ Hflat Hr) as [-> ->]. }
  split; [exact filter_more.passing_members_spec|].
  split; [intros rules v; exact (filter_more.filterJSON_same_key_path rules v)|].
  split.
  { intros rules v keys a b Ha Hb. apply filter_more.filterJSON_same_key_path.
    intros suffix. rewrite <- !app_assoc. cbn [app].
    now apply clean_facts.Join_slash_element. }
  split.
  { intros rules v keys. apply filter_more.filterJSON_same_key_path.
    intros suffix. rewrite <- !app_assoc. cbn [app].
    apply clean_facts.Join_empty_element. }
  split; [exact clean_facts.Join_empty_element|].
  split; [repeat split; vm_compute; reflexivity|].
  split; [repeat split; vm_compute; reflexivity|].
  exists ["a/b"], ["a"; "b"]. split; [discriminate|].
  split; [vm_compute; reflexivity|].
  intros rules v.
  apply (filter_more.filterJSON_same_key_path rules v ["a/b"] ["a"; "b"]).
  intros suffix.
  exact (clean_facts.Join_slash_element [] "a" "b" suffix
           ltac:(discriminate) ltac:(discriminate)).
Qed.

Lemma key_path_is_cleaned_join_witness :
  filterJSON (JObject [("b/c", JString "x"); ("d", JString "y")])
             [{| Methods := ["GET"]; ResponseKeys := ["a/*/c"] |}] ["a"]
  = Ok (JObject [("b/c", JString "x")], true).
Proof.
  refine (proj1 (proj2 key_path_is_cleaned_join)
                [{| Methods := ["GET"]; ResponseKeys := ["a/*/c"] |}] ["a"]
                [("b/c", JString "x"); ("d", JString "y")] _ _).
  - split; [discriminate|repeat constructor].
  - intros rule pattern [<-|[]] [<-|[]]. eexists. vm_compute. reflexivity.
Defined.

(** * Further properties of the code *)

(** ** The token codec: what [Open] accepts and what it returns *)

(** X1: a key that [Open] returns is the decoding of an authenticated
    plaintext: the token is longer than a nonce, the AEAD opened what follows
    the nonce under that nonce, and serializing the returned key as [Generate]
    does gives exactly the plaintext back (which therefore has four bytes at
    least). *)
Theorem Open_returns_the_sealed_payload (a : Auth) (token : string) (key : Key) :
  Auth_Open a token = Ok key ->
  exists aead data,
    NewGCM a = Ok aead /\
    (NonceSize aead < String.length token)%nat /\
    Open aead (take (NonceSize aead) token) (skip (NonceSize aead) token)
    = Some data /\
    serialize key = data /\
    (4 <= String.length data)%nat.
Proof.
  intros H.
  apply codec_more.Auth_Open_inv in H
    as (aead & data & ut & rest & Hgcm & Hlen & Hopen & Hread & ->).
  apply codec_more.read_uint32_be_inv in Hread as [-> Hut].
  exists aead, (put_uint32_be ut +:+ rest).
  assert (Hser : serialize
                   {| CreatedAt := time_Unix ut 0;
                      Roles := removelast (bytes_Split rest NUL);
                      APIKey := List.last (bytes_Split rest NUL) EmptyString |}
                 = put_uint32_be ut +:+ rest).
  { rewrite codec_facts.serialize_bytes. cbn [CreatedAt Roles APIKey].
    unfold Unix, time_Unix. cbn [sec].
    rewrite codec_facts.uint32_id by exact Hut.
    now rewrite codec_more.bytes_Split_join. }
  repeat split; try assumption.
  rewrite <- Hser, codec_more.serialize_length. lia.
Qed.

Lemma Open_returns_the_sealed_payload_witness :
  exists aead data,
    NewGCM Fixtures.auth = Ok aead /\
    (NonceSize aead < String.length (Fixtures.token_of Fixtures.key))%nat /\
    Open aead (take (NonceSize aead) (Fixtures.token_of Fixtures.key))
         (skip (NonceSize aead) (Fixtures.token_of Fixtures.key))
    = Some data /\
    serialize Fixtures.key_opened = data /\
    (4 <= String.length data)%nat.
Proof.
  apply (Open_returns_the_sealed_payload Fixtures.auth
           (Fixtures.token_of Fixtures.key) Fixtures.key_opened).
  vm_compute. reflexivity.
Defined.

(** X2: every key that [Open] returns has roles and a credential without
    NUL byte, and a creation time of whole seconds that fits the 32 bits of
    the wire format; whatever bytes were sealed. *)
Theorem Open_key_is_normalized (a : Auth) (token : string) (key : Key) :
  Auth_Open a token = Ok key ->
  Forall no_nul (Roles key) /\
  no_nul (APIKey key) /\
  nsec (CreatedAt key) = 0 /\
  0 <= sec (CreatedAt key) < 2 ^ 32.
Proof.
  intros H.
  apply codec_more.Auth_Open_inv in H
    as (aead & data & ut & rest & Hgcm & Hlen & Hopen & Hread & ->).
  apply codec_more.read_uint32_be_inv in Hread as [_ Hut].
  cbn [CreatedAt Roles APIKey time_Unix sec nsec].
  split; [apply codec_more.Forall_removelast, codec_more.bytes_Split_no_nul|].
  split; [|split; [reflexivity|exact Hut]].
  apply codec_more.Forall_last;
    [apply codec_more.bytes_Split_nonempty|apply codec_more.bytes_Split_no_nul].
Qed.

Lemma Open_key_is_normalized_witness :
  Forall no_nul (Roles Fixtures.key_opened) /\
  no_nul (APIKey Fixtures.key_opened) /\
  nsec (CreatedAt Fixtures.key_opened) = 0 /\
  0 <= sec (CreatedAt Fixtures.key_opened) < 2 ^ 32.
Proof.
  apply (Open_key_is_normalized Fixtures.auth (Fixtures.token_of Fixtures.key)).
  vm_compute. reflexivity.
Defined.

(** X3: a NUL byte in the credential moves what precedes it into the
    roles.  For a key whose roles have no NUL and whose credential is
    [a], a NUL, [b] (neither with a NUL), the token that [Generate] returns
    opens to the roles followed by [a], with the credential [b]. *)
Theorem credential_NUL_adds_a_role
        (a : Auth) (env : Env) (aead : AEAD) (key key' : Key)
        (token before after : string) :
  NewGCM a = Ok aead ->
  AEAD_correct aead ->
  rand_fills env ->
  Forall no_nul (Roles key) ->
  APIKey key = before +:+ String NUL after ->
  no_nul before -> no_nul after ->
  Generate a env key = (key', Ok token) ->
  exists created,
    Auth_Open a token
    = Ok {| CreatedAt := created;
            Roles := (Roles key ++ [before])%list;
            APIKey := after |}.
Proof.
  intros Hgcm Hae Hfill Hroles Hcred Hb Ha Hgen.
  unfold Generate in Hgen. apply pair_equal_spec in Hgen as [<- Hgen].
  rewrite Hgcm, bind_Ok_eq in Hgen.
  apply codec_facts.generate_loop_Ok in Hgen
    as (_ & k & nonce & _ & Hr & -> & _).
  apply Hfill in Hr.
  rewrite (codec_more.Open_sealed_any a aead nonce _ Hgcm Hae Hr).
  assert (Hsame : Roles (stamp env key) = Roles key /\
                  APIKey (stamp env key) = APIKey key).
  { unfold stamp. destruct (IsZero (CreatedAt key)); split; reflexivity. }
  destruct Hsame as [-> ->]. rewrite Hcred.
  assert (Hsplit :
            bytes_Split (roles_bytes (Roles key) +:+ (before +:+ String NUL after)) NUL
            = ((Roles key ++ [before]) ++ [after])%list).
  { rewrite <- (codec_facts.split_payload (Roles key ++ [before]) after).
    - now rewrite codec_more.roles_bytes_snoc.
    - apply List.Forall_app. split; [exact Hroles|]. constructor; [exact Hb|constructor].
    - exact Ha. }
  rewrite Hsplit, removelast_last, last_last.
  eexists. reflexivity.
Qed.

Lemma credential_NUL_adds_a_role_witness :
  exists created,
    Auth_Open Fixtures.auth (Fixtures.token_of Samples.key_nul)
    = Ok {| CreatedAt := created;
            Roles := ["candidates"; "admin"];
            APIKey := "bar" |}.
Proof.
  apply (credential_NUL_adds_a_role
           Fixtures.auth Fixtures.env Fixtures.tag_aead Samples.key_nul
           (fst (Generate Fixtures.auth Fixtures.env Samples.key_nul))
           (Fixtures.token_of Samples.key_nul) "admin" "bar").
  - reflexivity.
  - exact tag_aead_correct.
  - exact env_rand_fills.
  - constructor; [reflexivity|constructor].
  - reflexivity.
  - reflexivity.
  - reflexivity.
  - vm_compute. reflexivity.
Defined.

(** X4: the length of a token.  A token that [Generate] returns has the
    bytes of the nonce, four bytes of timestamp, every role and a NUL after
    it, the credential, and the tag of the AEAD. *)
Theorem Generate_token_length
        (a : Auth) (env : Env) (aead : AEAD) (key key' : Key) (token : string) :
  NewGCM a = Ok aead ->
  AEAD_correct aead ->
  rand_fills env ->
  Generate a env key = (key', Ok token) ->
  String.length token
  = (NonceSize aead
     + (4 + roles_size (Roles key) + String.length (APIKey key))
     + Overhead aead)%nat.
Proof.
  intros Hgcm Hae Hfill Hgen.
  unfold Generate in Hgen. apply pair_equal_spec in Hgen as [<- Hgen].
  rewrite Hgcm, bind_Ok_eq in Hgen.
  apply codec_facts.generate_loop_Ok in Hgen
    as (_ & k & nonce & _ & Hr & -> & _).
  apply Hfill in Hr.
  rewrite clean_facts.str_length_app, (seal_length _ Hae),
    codec_more.serialize_length, Hr.
  unfold stamp. destruct (IsZero (CreatedAt key)); cbn [Roles APIKey]; lia.
Qed.

Lemma Generate_token_length_witness :
  String.length (Fixtures.token_of Fixtures.key) = (12 + (4 + 11 + 3) + 1)%nat.
Proof.
  apply (Generate_token_length
           Fixtures.auth Fixtures.env Fixtures.tag_aead Fixtures.key
           (fst (Generate Fixtures.auth Fixtures.env Fixtures.key))
           (Fixtures.token_of Fixtures.key)).
  - reflexivity.
  - exact tag_aead_correct.
  - exact env_rand_fills.
  - vm_compute. reflexivity.
Defined.

(** X5: [Generate] succeeds as soon as it can.  When one of the first
    hundred attempts reads a nonce and seals to bytes without colon, and every
    attempt before it read a nonce and sealed to bytes with a colon, [Generate]
    returns the token of that attempt: the nonce followed by the sealed
    plaintext of the stamped key. *)
Theorem Generate_returns_first_colon_free_attempt
        (a : Auth) (env : Env) (aead : AEAD) (key : Key) (k : nat)
        (nonce : string) :
  NewGCM a = Ok aead ->
  (k < 100)%nat ->
  rand_Read env k (NonceSize aead) = Some nonce ->
  contains_byte colon (nonce +:+ Seal aead nonce (serialize (stamp env key)))
  = false ->
  (forall j, (j < k)%nat ->
             attempt_has_colon aead env (serialize (stamp env key)) j) ->
  Generate a env key
  = (stamp env key,
     Ok (nonce +:+ Seal aead nonce (serialize (stamp env key)))).
Proof.
  intros Hgcm Hk Hr Hc Hbefore. unfold Generate.
  apply pair_equal_spec. split; [reflexivity|].
  rewrite Hgcm, bind_Ok_eq.
  apply (codec_more.generate_loop_first_clean 100 0 k); try assumption; [lia|].
  intros j Hj. apply Hbefore. lia.
Qed.

Lemma Generate_returns_first_colon_free_attempt_witness :
  Generate Fixtures.auth Fixtures.env Fixtures.key
  = (stamp Fixtures.env Fixtures.key,
     Ok (Fixtures.fill "N"%char 12
         +:+ Seal Fixtures.tag_aead (Fixtures.fill "N"%char 12)
                  (serialize (stamp Fixtures.env Fixtures.key)))).
Proof.
  apply (Generate_returns_first_colon_free_attempt
           Fixtures.auth Fixtures.env Fixtures.tag_aead Fixtures.key 3).
  - reflexivity.
  - lia.
  - reflexivity.
  - vm_compute. reflexivity.
  - intros j Hj. exists (Fixtures.fill ":"%char 12).
    assert (Hj3 : (j <? 3)%nat = true) by (apply Nat.ltb_lt; exact Hj).
    split.
    + cbn [Fixtures.env rand_Read Fixtures.tag_aead NonceSize]. now rewrite Hj3.
    + vm_compute. reflexivity.
Defined.

(** X26: the plaintext determines the key.  Two keys whose roles and
    credentials have no NUL byte and which serialize to the same plaintext have
    the same roles, in the same order, the same credential, and creation times
    that agree in their 32-bit Unix seconds: distinct grants never share a
    plaintext. *)
Theorem serialize_is_injective_without_NUL (key1 key2 : Key) :
  Forall no_nul (Roles key1) -> no_nul (APIKey key1) ->
  Forall no_nul (Roles key2) -> no_nul (APIKey key2) ->
  serialize key1 = serialize key2 ->
  Roles key1 = Roles key2 /\
  APIKey key1 = APIKey key2 /\
  uint32 (Unix (CreatedAt key1)) = uint32 (Unix (CreatedAt key2)).
Proof.
  intros Hr1 Hc1 Hr2 Hc2 Heq.
  rewrite !codec_facts.serialize_bytes in Heq.
  pose proof (codec_facts.read_put_uint32
                (uint32 (Unix (CreatedAt key1)))
                (roles_bytes (Roles key1) +:+ APIKey key1)
                (codec_facts.uint32_range _)) as H1.
  pose proof (codec_facts.read_put_uint32
                (uint32 (Unix (CreatedAt key2)))
                (roles_bytes (Roles key2) +:+ APIKey key2)
                (codec_facts.uint32_range _)) as H2.
  rewrite Heq, H2 in H1. injection H1 as Ht Hrest.
  pose proof (codec_facts.split_payload _ _ Hr1 Hc1) as S1.
  pose proof (codec_facts.split_payload _ _ Hr2 Hc2) as S2.
  rewrite <- Hrest, S2 in S1.
  apply app_inj_tail in S1 as [Hroles Hcred].
  auto.
Qed.

Lemma serialize_is_injective_without_NUL_witness :
  Roles Fixtures.key = Roles Fixtures.key_opened /\
  APIKey Fixtures.key = APIKey Fixtures.key_opened /\
  uint32 (Unix (CreatedAt Fixtures.key))
  = uint32 (Unix (CreatedAt Fixtures.key_opened)).
Proof.
  apply (serialize_is_injective_without_NUL Fixtures.key Fixtures.key_opened).
  - constructor; [reflexivity|constructor].
  - reflexivity.
  - constructor; [reflexivity|constructor].
  - reflexivity.
  - reflexivity.
Defined.

(** ** The filter: what is kept and what is removed *)

(** X6: the leaves of the filtered value.  When the traversal returns a
    value and the flag true, the leaves of that value, with their key paths,
    are the leaves of the input for whose key path [checkFilter] answers true,
    in the order of the input; when it returns the flag false, no leaf of the
    input passes.  A leaf passes exactly when some response key of some rule
    matches its joined key path. *)
Theorem filtered_leaves_are_the_passing_leaves
        (v : value) (rules : list Rule) (keys : list string) (w : value) (m : bool) :
  filterJSON v rules keys = Ok (w, m) ->
  (m = true -> leaves w keys = List.filter (passes rules) (leaves v keys)) /\
  (m = false -> List.filter (passes rules) (leaves v keys) = []) /\
  (forall leaf, In leaf (leaves v keys) ->
                (passes rules leaf = true <->
                 whitelisted rules (path.Join (fst leaf)))).
Proof.
  intros H. pose proof (filter_more.leaves_filtered _ _ _ _ _ H) as Hl.
  split; [intros ->; exact Hl|]. split; [intros ->; symmetry; exact Hl|].
  intros leaf Hin.
  pose proof (filter_more.leaves_tested _ _ _ _ H) as Ht.
  rewrite List.Forall_forall in Ht. destruct (Ht leaf Hin) as [b Hb].
  exact (filter_more.passes_whitelisted _ _ _ Hb).
Qed.

Lemma filtered_leaves_are_the_passing_leaves_witness :
  (true = true ->
   leaves Fixtures.testFiltered []
   = List.filter (passes [Fixtures.rule_two_segments])
                 (leaves Fixtures.testResponse [])) /\
  (true = false ->
   List.filter (passes [Fixtures.rule_two_segments])
               (leaves Fixtures.testResponse []) = []) /\
  (forall leaf, In leaf (leaves Fixtures.testResponse []) ->
                (passes [Fixtures.rule_two_segments] leaf = true <->
                 whitelisted [Fixtures.rule_two_segments] (path.Join (fst leaf)))).
Proof.
  apply (filtered_leaves_are_the_passing_leaves
           Fixtures.testResponse [Fixtures.rule_two_segments] []
           Fixtures.testFiltered true).
  vm_compute. reflexivity.
Defined.



(** X8: rules without response keys keep nothing.  When no rule of the
    list has a response key (in particular for the empty list), the traversal
    of any value succeeds with the flag false, and [Filter] returns the value
    itself for a leaf, a nil slice for an array and an empty map for an
    object. *)
Theorem rules_without_response_keys_keep_nothing
        (rules : list Rule) (v : value) (keys : list string) :
  (forall rule, In rule rules -> ResponseKeys rule = []) ->
  filterJSON v rules keys = Ok (emptied v, false) /\
  Filter v rules = Ok (emptied v).
Proof.
  intros Hnone.
  assert (Hcheck : forall keyPath, check_rules rules keyPath = Ok false).
  { intros keyPath. induction rules as [|rule rules IH]; [reflexivity|].
    cbn [check_rules]. rewrite (Hnone rule) by (left; reflexivity).
    cbn [check_keys]. rewrite bind_Ok_eq. apply IH.
    intros r Hr. apply Hnone. right. exact Hr. }
  assert (Hall : forall v keys, filterJSON v rules keys = Ok (emptied v, false)).
  { clear v keys.
    assert (Hleaf : forall v keys,
               is_leaf v = true -> filterJSON v rules keys = Ok (emptied v, false)).
    { intros v keys Hl. rewrite filterJSON_leaf by exact Hl.
      unfold checkFilter. rewrite Hcheck, bind_Ok_eq.
      destruct v as [| | | | |[|? ?]|[|? ?]]; try discriminate; reflexivity. }
    induction v as [| | | | |elems IH|members IH] using value_induction;
      intros keys; try (apply Hleaf; reflexivity).
    - destruct elems as [|ve vt]; [apply Hleaf; reflexivity|].
      rewrite filterJSON_array, filter_more.filter_elems_none; [reflexivity|].
      eapply List.Forall_impl; [|exact IH]. intros x Hx. eexists. apply Hx.
    - destruct members as [|kv vt]; [apply Hleaf; reflexivity|].
      rewrite filterJSON_object, filter_more.filter_members_none; [reflexivity|].
      eapply List.Forall_impl; [|exact IH]. intros x Hx. eexists. apply Hx. }
  split; [apply Hall|]. unfold Filter. rewrite Hall. reflexivity.
Qed.

Lemma rules_without_response_keys_keep_nothing_witness :
  filterJSON Fixtures.testResponse [Samples.rule_no_keys] []
  = Ok (JObject [], false) /\
  Filter Fixtures.testResponse [Samples.rule_no_keys] = Ok (JObject []).
Proof.
  apply (rules_without_response_keys_keep_nothing
           [Samples.rule_no_keys] Fixtures.testResponse []).
  intros rule [<-|[]]. reflexivity.
Defined.

(** X9: the filter depends on the set of response keys only.  For rules
    none of whose response keys is malformed, two lists of rules with the same
    response key patterns filter every value alike: neither the order of the
    rules (that of the iteration over the roles' maps), nor a rule matched
    twice, nor the rule a pattern belongs to makes a difference. *)
Theorem filter_depends_on_the_response_keys_only
        (rules rules' : list Rule) (v : value) (keys : list string) :
  rules_well_formed rules ->
  (forall pattern, In pattern (response_patterns rules) <->
                   In pattern (response_patterns rules')) ->
  filterJSON v rules keys = filterJSON v rules' keys.
Proof.
  intros Hwf Hsame. now apply filter_more.filterJSON_same_patterns.
Qed.

Lemma filter_depends_on_the_response_keys_only_witness :
  filterJSON Fixtures.testResponse [Fixtures.rule_two_segments] []
  = filterJSON Fixtures.testResponse Samples.rules_split [].
Proof.
  apply (filter_depends_on_the_response_keys_only
           [Fixtures.rule_two_segments] Samples.rules_split).
  - intros rule pattern [<-|[]] [<-|[<-|[<-|[]]]]; eexists; vm_compute; reflexivity.
  - intros pattern. cbn. tauto.
Defined.

(** X10: more response keys never hide a leaf.  When the response keys of
    one list of rules are among those of a second list, none of which is
    malformed, and the traversal under the first list succeeds, then the
    traversal under the second list succeeds too, and every leaf kept under
    the first is kept under the second. *)
Theorem more_response_keys_keep_more
        (rules rules' : list Rule) (v : value) (keys : list string)
        (w : value) (m : bool) :
  rules_well_formed rules' ->
  incl (response_patterns rules) (response_patterns rules') ->
  filterJSON v rules keys = Ok (w, m) ->
  exists w' m',
    filterJSON v rules' keys = Ok (w', m') /\
    (m = true -> m' = true /\ incl (leaves w keys) (leaves w' keys)).
Proof.
  intros Hwf Hincl H.
  destruct (filterJSON_total rules' Hwf v keys) as [[w' m'] H'].
  exists w', m'. split; [exact H'|]. intros ->.
  pose proof (filter_more.leaves_filtered _ _ _ _ _ H) as Hl.
  pose proof (filter_more.leaves_filtered _ _ _ _ _ H') as Hl'.
  cbn iota in Hl.
  assert (Hsub : incl (leaves w keys)
                      (List.filter (passes rules') (leaves v keys))).
  { rewrite Hl. intros leaf Hin. apply filter_In in Hin as [Hin Hp].
    apply filter_In. split; [exact Hin|].
    unfold passes in Hp |- *.
    destruct (checkFilter rules (fst leaf)) as [[|]|] eqn:Hc; try discriminate.
    now rewrite (filter_more.checkFilter_incl _ _ _ Hwf Hincl Hc). }
  destruct m'.
  - split; [reflexivity|]. rewrite Hl'. exact Hsub.
  - rewrite <- Hl' in Hsub. pose proof (filter_more.leaves_nonempty w keys) as Hne.
    destruct (leaves w keys) as [|leaf ls]; [congruence|].
    destruct (Hsub leaf (or_introl eq_refl)).
Qed.

Lemma more_response_keys_keep_more_witness :
  exists w' m',
    filterJSON Fixtures.testResponse
               [Fixtures.rule_four_segments; Fixtures.rule_two_segments] []
    = Ok (w', m') /\
    (true = true ->
     m' = true /\ incl (leaves Fixtures.testFilteredName []) (leaves w' [])).
Proof.
  apply (more_response_keys_keep_more
           [Fixtures.rule_four_segments]
           [Fixtures.rule_four_segments; Fixtures.rule_two_segments]
           Fixtures.testResponse [] Fixtures.testFilteredName true).
  - intros rule pattern [<-|[<-|[]]] Hp; cbn in Hp;
      repeat (destruct Hp as [<-|Hp]; [eexists; vm_compute; reflexivity|]);
      destruct Hp.
  - intros pattern Hp. cbn in Hp |- *. tauto.
  - vm_compute. reflexivity.
Defined.

(** ** Patterns without metacharacters *)

(** X24: response keys without metacharacters are exact.  When no response
    key of the rules contains a star, a question mark, an opening bracket or a
    backslash, [checkFilter] never fails, and it answers true exactly when the
    joined key path is equal, byte for byte, to one of the response keys. *)
Theorem literal_response_keys_match_exactly
        (rules : list Rule) (keys : list string) :
  Forall (fun pattern => literal pattern = true) (response_patterns rules) ->
  checkFilter rules keys
  = Ok (existsb (fun pattern => String.eqb pattern (path.Join keys))
                (response_patterns rules)).
Proof.
  unfold checkFilter, response_patterns. generalize (path.Join keys) as keyPath.
  intros keyPath. induction rules as [|rule rules IH]; intros H; [reflexivity|].
  cbn [flat_map] in H |- *. apply List.Forall_app in H as [Hrule Hrules].
  cbn [check_rules]. rewrite existsb_app.
  assert (Hkeys : check_keys (ResponseKeys rule) keyPath
                  = Ok (existsb (fun pattern => String.eqb pattern keyPath)
                                (ResponseKeys rule))).
  { clear IH Hrules. induction (ResponseKeys rule) as [|pattern patterns IHp];
      [reflexivity|].
    apply List.Forall_cons_iff in Hrule as [Hp Hps].
    cbn [check_keys existsb]. rewrite (literal_facts.Match_literal _ _ Hp).
    rewrite bind_Ok_eq. destruct (String.eqb pattern keyPath); [reflexivity|].
    now apply IHp. }
  rewrite Hkeys, bind_Ok_eq.
  destruct (existsb _ (ResponseKeys rule)); [reflexivity|]. now apply IH.
Qed.

Lemma literal_response_keys_match_exactly_witness :
  checkFilter [Fixtures.rule_four_segments] ["name"; "first"]
  = Ok (existsb (fun pattern => String.eqb pattern (path.Join ["name"; "first"]))
                (response_patterns [Fixtures.rule_four_segments])).
Proof.
  apply (literal_response_keys_match_exactly
           [Fixtures.rule_four_segments] ["name"; "first"]).
  repeat constructor.
Defined.

(** X25: a path pattern without metacharacters grants one path.  The loop
    over the entries of a role appends the rule of an entry whose pattern has
    no star, question mark, opening bracket or backslash exactly when the path
    of the request is equal to the pattern and the methods of the rule cover
    the method: such an entry grants nothing below or beside its path. *)
Theorem literal_path_pattern_grants_one_path
        (pattern : string) (rule : Rule) (rr : Role)
        (urlpath method : string) (matches : list Rule) :
  literal pattern = true ->
  match_role ((pattern, rule) :: rr) urlpath method matches
  = match_role rr urlpath method
      (if String.eqb pattern urlpath && method_allowed (Methods rule) method
       then (matches ++ [rule])%list else matches).
Proof.
  intros H. cbn [match_role].
  rewrite (literal_facts.Match_literal _ _ H), bind_Ok_eq.
  destruct (String.eqb pattern urlpath); cbn [negb andb]; [|reflexivity].
  destruct (method_allowed (Methods rule) method); reflexivity.
Qed.

Lemma literal_path_pattern_grants_one_path_witness :
  match_role [("/candidates", Fixtures.rule_two_segments)]
             "/candidates/baz" "GET" []
  = match_role [] "/candidates/baz" "GET"
      (if String.eqb "/candidates" "/candidates/baz"
          && method_allowed (Methods Fixtures.rule_two_segments) "GET"
       then ([] ++ [Fixtures.rule_two_segments])%list else []).
Proof.
  apply (literal_path_pattern_grants_one_path
           "/candidates" Fixtures.rule_two_segments [] "/candidates/baz" "GET" []).
  reflexivity.
Defined.

(** ** The handler of the proxy: what reaches the upstream and what comes
    back *)

(** X11: the upstream is asked once, with the credential of the token, and
    only for a request that some rule authorizes.  The outcome of the handler
    depends on the transport only through its answer to the request with the
    credential of the opened key, and only when the key opened, all its roles
    exist and some rule matched; for every other request the outcome is the
    same whatever the transport would do. *)
Theorem upstream_is_asked_only_when_authorized
        (canon : string -> string) (rw : ResponseWriter)
        (json : JSONCodec) (p : Proxy) (r : Request)
        (f g : Request -> string -> result (string * Response)) :
  (forall key matches,
      authenticate p r = Ok key ->
      authorize (ProxyRoles p) (Roles key) (URLPath r) (Method r) []
      = Matched matches ->
      matches <> [] ->
      f r (APIKey key) = g r (APIKey key)) ->
  ServeHTTP canon rw json (with_request p f) r
  = ServeHTTP canon rw json (with_request p g) r.
Proof.
  intros Hsame. unfold ServeHTTP.
  change (authenticate (with_request p f) r) with (authenticate p r).
  change (authenticate (with_request p g) r) with (authenticate p r).
  cbn [with_request ProxyRoles request].
  destruct (authenticate p r) as [key|e] eqn:Hauth; [|reflexivity].
  destruct (authorize (ProxyRoles p) (Roles key) (URLPath r) (Method r) [])
    as [matches|role|e] eqn:Hz; try reflexivity.
  destruct matches as [|rule matches]; [reflexivity|].
  cbn [length Nat.eqb].
  now rewrite (Hsame key (rule :: matches) eq_refl Hz).
Qed.

Lemma upstream_is_asked_only_when_authorized_witness :
  ServeHTTP Fixtures.canon Fixtures.writer Fixtures.json
            (with_request (Fixtures.proxy 200) (Fixtures.upstream 200))
            (Fixtures.get Fixtures.key "/foo")
  = ServeHTTP Fixtures.canon Fixtures.writer Fixtures.json
              (with_request (Fixtures.proxy 200) (fun _ _ => Err ErrTransport))
              (Fixtures.get Fixtures.key "/foo").
Proof.
  apply (upstream_is_asked_only_when_authorized
           Fixtures.canon Fixtures.writer
           Fixtures.json (Fixtures.proxy 200) (Fixtures.get Fixtures.key "/foo")).
  intros key matches Hauth Hz Hne.
  vm_compute in Hauth. injection Hauth as <-.
  vm_compute in Hz. injection Hz as <-. congruence.
Defined.

(** X12: the error responses of the proxy.  Every error envelope that the
    handler writes has status 401, the code [unauthorized] and the JSON
    content type, set in the header map of the writer before the status is
    written, and one of four messages: the Authorization header could not be
    parsed; the token did not open (whatever the error of the opener, which
    is not revealed); a role of the opened key, which is named, is absent from
    the registry; or no rule matched. *)
Theorem error_envelopes_are_unauthorized
        (canon : string -> string) (rw : ResponseWriter)
        (json : JSONCodec) (p : Proxy) (r : Request) (w : Written)
        (code message : string) :
  ServeHTTP canon rw json p r = Returned w ->
  sent w = ErrorEnvelope code message ->
  status w = StatusUnauthorized /\
  code = "unauthorized" /\
  header w = Header_Set canon (w_Header rw) "Content-Type" "application/json" /\
  ((BasicAuth r = None /\ message = "Unable to parse Authorization header") \/
   (exists user password e,
       BasicAuth r = Some (user, password) /\ KeyOpener p user = Err e /\
       message = "Invalid password provided") \/
   (exists key role,
       authenticate p r = Ok key /\ In role (Roles key) /\
       ProxyRoles p !! role = None /\
       message = "Role " +:+ role +:+ " does not exist") \/
   (exists key,
       authenticate p r = Ok key /\
       authorize (ProxyRoles p) (Roles key) (URLPath r) (Method r) []
       = Matched [] /\
       message = "You do not have permission to access this resource")).
Proof.
  unfold ServeHTTP. intros H Hsent.
  destruct (authenticate p r) as [key|e] eqn:Hauth.
  - destruct (authorize (ProxyRoles p) (Roles key) (URLPath r) (Method r) [])
      as [matches|role|e] eqn:Hz.
    + destruct matches as [|rule matches].
      * cbn [length Nat.eqb] in H.
        destruct (serve_more.respond_unauthorized_Returned _ _ _ _ _ _ H Hsent)
          as (Hs & Hc & Hm & Hh).
        repeat (split; [assumption|]). right. right. right. exists key. auto.
      * cbn [length Nat.eqb] in H.
        destruct (request p r (APIKey key)) as [[body res]|e]; [|discriminate].
        destruct (StatusCode res <? 300).
        -- destruct (filterBytes json body (rule :: matches)); [|discriminate].
           injection H as <-. discriminate.
        -- injection H as <-. discriminate.
    + destruct (serve_more.respond_unauthorized_Returned _ _ _ _ _ _ H Hsent)
        as (Hs & Hc & Hm & Hh).
      apply serve_more.authorize_UnknownRole_inv in Hz as [Hin Hnone].
      repeat (split; [assumption|]). right. right. left. exists key, role. auto.
    + discriminate.
  - destruct (serve_more.respond_unauthorized_Returned _ _ _ _ _ _ H Hsent)
      as (Hs & Hc & Hm & Hh).
    repeat (split; [assumption|]). unfold authenticate in Hauth.
    destruct (BasicAuth r) as [[user password]|].
    + destruct (KeyOpener p user) as [key|e'] eqn:Hopen; [discriminate|].
      injection Hauth as <-. right. left. exists user, password, e'. auto.
    + injection Hauth as <-. left. auto.
Qed.

Lemma error_envelopes_are_unauthorized_witness :
  status {| status := StatusUnauthorized;
            header := {[ "Content-Type" := ["application/json"] ]};
            sent := ErrorEnvelope "unauthorized" "Role unknown does not exist";
            header_after := {[ "Content-Type" := ["application/json"] ]} |}
  = StatusUnauthorized.
Proof.
  refine (proj1 (error_envelopes_are_unauthorized
                   Fixtures.canon Fixtures.writer
                   Fixtures.json (Fixtures.proxy 200)
                   (Fixtures.get Fixtures.key_unknown "/candidates/baz")
                   _ "unauthorized" "Role unknown does not exist" _ _)).
  - vm_compute. reflexivity.
  - reflexivity.
Defined.

(** X13: what a relayed response is made of.  When the handler returns
    having written a body that is not an error envelope, the key opened, some
    rule matched, and the transport answered the request made with the
    credential of the key; the status is that of the upstream; the response
    goes out with the header map as the writer had it, since [WriteHeader] is
    called before [copyHeader]: no header of the upstream is in it; after the
    call the header map of the writer is that map with the headers of the
    upstream added by [copyHeader], except those deleted under the canonical
    names of the hop-by-hop headers; and the body is that of the upstream when
    the status is 300 or more, the filtered body otherwise.  For an upstream
    whose header keys are distinct and canonical, [copyHeader] appends the
    values of each key that stays to those of the writer, and leaves every
    other key of the writer, and the keys without value, as they were. *)
Theorem relayed_response_comes_from_upstream
        (canon : string -> string) (rw : ResponseWriter)
        (json : JSONCodec) (p : Proxy) (r : Request) (w : Written)
        (body' : string) :
  ServeHTTP canon rw json p r = Returned w ->
  sent w = RawBody body' ->
  exists key matches body res,
    authenticate p r = Ok key /\
    authorize (ProxyRoles p) (Roles key) (URLPath r) (Method r) []
    = Matched matches /\
    matches <> [] /\
    request p r (APIKey key) = Ok (body, res) /\
    status w = StatusCode res /\
    header w = w_Header rw /\
    header_after w
    = copyHeader canon (w_Header rw) (del_hop_headers canon (ResHeader res)) /\
    (forall k vs, In (k, vs) (del_hop_headers canon (ResHeader res)) <->
                  In (k, vs) (ResHeader res) /\ ~ In k (map canon hopHeaders)) /\
    (NoDup (map fst (ResHeader res)) ->
     (forall k vs, In (k, vs) (ResHeader res) -> canon k = k) ->
     forall k,
       (forall vs, In (k, vs) (ResHeader res) ->
                   ~ In k (map canon hopHeaders) ->
                   header_after w !! k
                   = match vs with
                     | [] => w_Header rw !! k
                     | _ :: _ => Some (values (w_Header rw) k ++ vs)%list
                     end) /\
       ((In k (map canon hopHeaders) \/ ~ In k (map fst (ResHeader res))) ->
        header_after w !! k = w_Header rw !! k)) /\
    (300 <= StatusCode res -> body' = body) /\
    (StatusCode res < 300 -> filterBytes json body matches = Ok body').
Proof.
  unfold ServeHTTP. intros H Hsent.
  destruct (authenticate p r) as [key|e] eqn:Hauth;
    [|now apply serve_more.respond_unauthorized_RawBody with (body := body') in H].
  destruct (authorize (ProxyRoles p) (Roles key) (URLPath r) (Method r) [])
    as [matches|role|e] eqn:Hz;
    [|now apply serve_more.respond_unauthorized_RawBody with (body := body') in H
     |discriminate].
  destruct matches as [|rule matches];
    [now apply serve_more.respond_unauthorized_RawBody with (body := body') in H|].
  cbn [length Nat.eqb] in H.
  destruct (request p r (APIKey key)) as [[body res]|e] eqn:Hreq; [|discriminate].
  exists key, (rule :: matches), body, res.
  assert (Hcopy :
            NoDup (map fst (ResHeader res)) ->
            (forall k vs, In (k, vs) (ResHeader res) -> canon k = k) ->
            forall k,
              (forall vs, In (k, vs) (ResHeader res) ->
                          ~ In k (map canon hopHeaders) ->
                          copyHeader canon (w_Header rw)
                                     (del_hop_headers canon (ResHeader res)) !! k
                          = match vs with
                            | [] => w_Header rw !! k
                            | _ :: _ => Some (values (w_Header rw) k ++ vs)%list
                            end) /\
              ((In k (map canon hopHeaders) \/ ~ In k (map fst (ResHeader res))) ->
               copyHeader canon (w_Header rw)
                          (del_hop_headers canon (ResHeader res)) !! k
               = w_Header rw !! k)).
  { intros Hnd Hcanon k.
    assert (Hnd' : NoDup (map fst (del_hop_headers canon (ResHeader res)))).
    { unfold del_hop_headers. clear -Hnd.
      induction (ResHeader res) as [|kv l IH]; [constructor|].
      cbn [map fst] in Hnd. apply NoDup_cons in Hnd as [Hk Hl].
      rewrite list_elem_of_In in Hk. cbn [List.filter].
      destruct (negb _); [|exact (IH Hl)].
      cbn [map fst]. apply NoDup_cons. split; [|exact (IH Hl)].
      rewrite list_elem_of_In. intros Hin. apply Hk.
      apply in_map_iff in Hin as (x & Hx & Hin). apply in_map_iff.
      exists x. split; [exact Hx|]. now apply filter_In in Hin as [Hin _]. }
    assert (Hcanon' : forall k vs,
               In (k, vs) (del_hop_headers canon (ResHeader res)) -> canon k = k).
    { intros k0 vs Hin. apply serve_more.del_hop_headers_spec in Hin as [Hin _].
      exact (Hcanon k0 vs Hin). }
    destruct (request_more.copyHeader_lookup
                canon _ (w_Header rw) Hnd' Hcanon' k) as [H1 H2].
    split.
    - intros vs Hin Hhop. apply H1. apply serve_more.del_hop_headers_spec. auto.
    - intros Hcase. apply H2. intros Hin.
      apply in_map_iff in Hin as ([k0 vs] & Hk0 & Hin). cbn [fst] in Hk0. subst k0.
      apply serve_more.del_hop_headers_spec in Hin as [Hin Hhop].
      destruct Hcase as [Hh|Hn]; [contradiction|]. apply Hn.
      apply in_map_iff. exists (k, vs). auto. }
  destruct (StatusCode res <? 300) eqn:Hlt.
  - apply Z.ltb_lt in Hlt.
    destruct (filterBytes json body (rule :: matches)) as [out|e] eqn:Hf;
      [|discriminate].
    injection H as <-. cbn [sent status header header_after] in Hsent |- *.
    injection Hsent as <-.
    split; [reflexivity|]. split; [exact Hz|]. split; [discriminate|].
    split; [first [reflexivity|exact Hreq]|].
    split; [reflexivity|]. split; [reflexivity|]. split; [reflexivity|].
    split; [intros k vs; apply serve_more.del_hop_headers_spec|].
    split; [exact Hcopy|].
    split; [intros Hge; lia|intros _; first [reflexivity|exact Hf]].
  - apply Z.ltb_ge in Hlt. injection H as <-.
    cbn [sent status header header_after] in Hsent |- *. injection Hsent as <-.
    split; [reflexivity|]. split; [exact Hz|]. split; [discriminate|].
    split; [first [reflexivity|exact Hreq]|].
    split; [reflexivity|]. split; [reflexivity|]. split; [reflexivity|].
    split; [intros k vs; apply serve_more.del_hop_headers_spec|].
    split; [exact Hcopy|].
    split; [intros _; reflexivity|intros Hlt'; lia].
Qed.

Lemma relayed_response_comes_from_upstream_witness :
  exists key matches body res,
    authenticate (Fixtures.proxy 200) (Fixtures.get Fixtures.key "/candidates/baz")
    = Ok key /\
    authorize Fixtures.registry (Roles key) "/candidates/baz" "GET" []
    = Matched matches /\
    matches <> [] /\
    Fixtures.upstream 200 (Fixtures.get Fixtures.key "/candidates/baz") (APIKey key)
    = Ok (body, res) /\
    200 = StatusCode res /\
    (∅ : HeaderMap) = w_Header Fixtures.writer /\
    ({[ "Foo" := ["bar"] ]} : HeaderMap)
    = copyHeader Fixtures.canon (w_Header Fixtures.writer)
                 (del_hop_headers Fixtures.canon (ResHeader res)) /\
    (forall k vs,
        In (k, vs) (del_hop_headers Fixtures.canon (ResHeader res)) <->
        In (k, vs) (ResHeader res) /\ ~ In k (map Fixtures.canon hopHeaders)) /\
    (NoDup (map fst (ResHeader res)) ->
     (forall k vs, In (k, vs) (ResHeader res) -> Fixtures.canon k = k) ->
     forall k,
       (forall vs, In (k, vs) (ResHeader res) ->
                   ~ In k (map Fixtures.canon hopHeaders) ->
                   ({[ "Foo" := ["bar"] ]} : HeaderMap) !! k
                   = match vs with
                     | [] => w_Header Fixtures.writer !! k
                     | _ :: _ => Some (values (w_Header Fixtures.writer) k ++ vs)%list
                     end) /\
       ((In k (map Fixtures.canon hopHeaders) \/
         ~ In k (map fst (ResHeader res))) ->
        ({[ "Foo" := ["bar"] ]} : HeaderMap) !! k = w_Header Fixtures.writer !! k)) /\
    (300 <= StatusCode res -> "{filtered body}" = body) /\
    (StatusCode res < 300 ->
     filterBytes Fixtures.json body matches = Ok "{filtered body}").
Proof.
  refine (relayed_response_comes_from_upstream
            Fixtures.canon Fixtures.writer
            Fixtures.json (Fixtures.proxy 200)
            (Fixtures.get Fixtures.key "/candidates/baz")
            {| status := 200;
               header := ∅;
               sent := RawBody "{filtered body}";
               header_after := {[ "Foo" := ["bar"] ]} |}
            "{filtered body}" _ _).
  - vm_compute. reflexivity.
  - reflexivity.
Defined.

(** X23: when the handler panics.  Take an upstream whose statuses
    [WriteHeader] accepts, from 100 to 999.  The handler panics in one of four
    ways, and in each of them it does.  From [respond], with the error of the
    write of the envelope, after the status 401 was written: when the key does
    not open, when a role of the key is not in the registry, and when no rule
    matched.  With the error of [path.Match] on a pattern of a role, after the
    key opened and before anything was written.  With the error of the
    transport, after some rule matched and before anything was written.  With
    the error of [filterBytes] on the body of an upstream response with a
    status under 300, after that status was written with [WriteHeader]. *)
Theorem handler_panics_in_four_ways
        (canon : string -> string) (rw : ResponseWriter)
        (json : JSONCodec) (p : Proxy) (r : Request) (c : option Z) (e : error) :
  (forall apikey body res,
      request p r apikey = Ok (body, res) -> 100 <= StatusCode res <= 999) ->
  ServeHTTP canon rw json p r = Panicked c e <->
  ((exists message,
       c = Some StatusUnauthorized /\
       w_Write rw (ErrorEnvelope "unauthorized" message) = Err e /\
       ((exists err, authenticate p r = Err err /\ message = error_string err) \/
        (exists key,
            authenticate p r = Ok key /\
            ((exists role,
                 authorize (ProxyRoles p) (Roles key) (URLPath r) (Method r) []
                 = UnknownRole role /\
                 message = "Role " +:+ role +:+ " does not exist") \/
             (authorize (ProxyRoles p) (Roles key) (URLPath r) (Method r) []
              = Matched [] /\
              message = "You do not have permission to access this resource"))))) \/
   (exists key,
       authenticate p r = Ok key /\
       ((c = None /\
         authorize (ProxyRoles p) (Roles key) (URLPath r) (Method r) []
         = MatchPanic e) \/
        (exists matches,
            authorize (ProxyRoles p) (Roles key) (URLPath r) (Method r) []
            = Matched matches /\
            matches <> [] /\
            ((c = None /\ request p r (APIKey key) = Err e) \/
             (exists body res,
                 request p r (APIKey key) = Ok (body, res) /\
                 StatusCode res < 300 /\
                 c = Some (StatusCode res) /\
                 filterBytes json body matches = Err e)))))).
Proof.
  intros _. unfold ServeHTTP. split.
  - intros H.
    destruct (authenticate p r) as [key|e0] eqn:Hauth.
    2:{ left. exists (error_string e0).
        destruct (serve_more.respond_unauthorized_inv canon rw (error_string e0))
          as [(u & _ & Hr)|(e1 & Hw & Hr)];
          rewrite Hr in H; [discriminate|]. injection H as <- <-.
        split; [reflexivity|]. split; [exact Hw|]. left. eauto. }
    destruct (authorize (ProxyRoles p) (Roles key) (URLPath r) (Method r) [])
      as [matches|role|e0] eqn:Hz.
    + destruct matches as [|rule matches].
      * cbn [length Nat.eqb] in H. left.
        exists "You do not have permission to access this resource".
        destruct (serve_more.respond_unauthorized_inv
                    canon rw "You do not have permission to access this resource")
          as [(u & _ & Hr)|(e1 & Hw & Hr)];
          rewrite Hr in H; [discriminate|]. injection H as <- <-.
        split; [reflexivity|]. split; [exact Hw|]. right. exists key.
        split; [reflexivity|]. right. split; [exact Hz|reflexivity].
      * cbn [length Nat.eqb] in H. right. exists key. split; [reflexivity|].
        right. exists (rule :: matches). split; [exact Hz|].
        split; [discriminate|].
        destruct (request p r (APIKey key)) as [[body res]|e0] eqn:Hreq.
        -- right. exists body, res. split; [first [reflexivity|exact Hreq]|].
           destruct (StatusCode res <? 300) eqn:Hlt; [|discriminate].
           apply Z.ltb_lt in Hlt.
           destruct (filterBytes json body (rule :: matches)) as [out|e1];
             [discriminate|].
           injection H as <- <-. auto.
        -- left. injection H as <- <-. auto.
    + left. exists ("Role " +:+ role +:+ " does not exist").
      destruct (serve_more.respond_unauthorized_inv
                  canon rw ("Role " +:+ role +:+ " does not exist"))
        as [(u & _ & Hr)|(e1 & Hw & Hr)];
        rewrite Hr in H; [discriminate|]. injection H as <- <-.
      split; [reflexivity|]. split; [exact Hw|]. right. exists key.
      split; [reflexivity|]. left. exists role. split; [exact Hz|reflexivity].
    + right. exists key. split; [reflexivity|]. left. injection H as <- <-.
      split; [reflexivity|exact Hz].
  - intros [(message & -> & Hw & Hcase)|(key & Hauth & Hcase)].
    + assert (Hr : respond_unauthorized canon rw message
                   = Panicked (Some StatusUnauthorized) e).
      { unfold respond_unauthorized. now rewrite Hw. }
      destruct Hcase as [(err & -> & ->)|(key & -> & [(role & -> & ->)|[-> ->]])];
        exact Hr.
    + rewrite Hauth.
      destruct Hcase as [[-> ->]|(matches & -> & Hne & Hcase)]; [reflexivity|].
      destruct matches as [|rule matches]; [contradiction|].
      cbn [length Nat.eqb].
      destruct Hcase as [[-> ->]|(body & res & -> & Hlt & -> & ->)];
        [reflexivity|].
      apply Z.ltb_lt in Hlt. now rewrite Hlt.
Qed.

Lemma handler_panics_in_four_ways_witness :
  (forall apikey body res,
      request Samples.proxy_not_json
              (Fixtures.get Fixtures.key "/candidates/baz") apikey
      = Ok (body, res) -> 100 <= StatusCode res <= 999) /\
  ServeHTTP Fixtures.canon Fixtures.writer Fixtures.json Samples.proxy_not_json
            (Fixtures.get Fixtures.key "/candidates/baz")
  = Panicked (Some 200) ErrJSON.
Proof.
  assert (Hrange : forall apikey body res,
             request Samples.proxy_not_json
                     (Fixtures.get Fixtures.key "/candidates/baz") apikey
             = Ok (body, res) -> 100 <= StatusCode res <= 999).
  { intros apikey body res H. injection H as _ <-. cbn [StatusCode]. lia. }
  split; [exact Hrange|].
  apply (handler_panics_in_four_ways
           Fixtures.canon Fixtures.writer Fixtures.json Samples.proxy_not_json
           (Fixtures.get Fixtures.key "/candidates/baz")
           (Some 200) ErrJSON Hrange).
  right. exists Fixtures.key_opened. split; [vm_compute; reflexivity|].
  right. exists [Fixtures.rule_two_segments].
  split; [vm_compute; reflexivity|]. split; [discriminate|].
  right. exists "<html>", {| StatusCode := 200; ResHeader := [("Foo", ["bar"])] |}.
  split; [reflexivity|]. split; [cbn [StatusCode]; lia|].
  split; [reflexivity|]. vm_compute. reflexivity.
Defined.

(** ** The order in which Go iterates over the maps of the registry *)

(** X14: the outcome does not depend on the order of the maps.  The
    entries of a role are the entries of a Go map, which a loop visits in an
    order that varies from run to run.  When no path pattern of the registry is
    malformed on the path of the request and no response key is malformed, two
    proxies whose registries hold the same roles with the same entries, listed
    in different orders, and which share the opener and the transport, serve
    every such request alike: the same status, headers and body. *)
Theorem outcome_is_independent_of_map_order
        (canon : string -> string) (rw : ResponseWriter)
        (json : JSONCodec) (p p' : Proxy) (r : Request) :
  same_registry (ProxyRoles p) (ProxyRoles p') ->
  registry_well_formed_on (ProxyRoles p) (URLPath r) ->
  KeyOpener p' = KeyOpener p ->
  request p' = request p ->
  ServeHTTP canon rw json p' r = ServeHTTP canon rw json p r.
Proof.
  intros Hsame Hwf Hopen Hreq. unfold ServeHTTP, authenticate.
  rewrite Hopen, Hreq.
  destruct (BasicAuth r) as [[user password]|]; [|reflexivity].
  destruct (KeyOpener p user) as [key|e]; [|reflexivity].
  pose proof (order_more.authorize_same_registry
                _ _ (URLPath r) (Method r) (Roles key) Hsame Hwf [] []
                (Permutation_refl _)) as Hz.
  pose proof (authorize_Matched (ProxyRoles p) (Roles key) (URLPath r) (Method r) [])
    as Hspec.
  destruct (authorize (ProxyRoles p) (Roles key) (URLPath r) (Method r) [])
    as [matches|role|e];
    destruct (authorize (ProxyRoles p') (Roles key) (URLPath r) (Method r) [])
    as [matches'|role'|e']; try contradiction; [|now subst].
  rewrite (Permutation_length Hz).
  destruct (length matches' =? 0)%nat; [reflexivity|].
  destruct (request p r (APIKey key)) as [[body res]|e]; [|reflexivity].
  assert (Hfilter : filterBytes json body matches' = filterBytes json body matches).
  { unfold filterBytes. destruct (Unmarshal json body) as [parsed|e]; [|reflexivity].
    rewrite !bind_Ok_eq.
    rewrite (filter_more.filterJSON_same_patterns matches matches'); [reflexivity| |].
    - intros rule pattern Hin Hk.
      destruct (Hspec matches eq_refl) as [_ Hm].
      apply Hm in Hin as [[]|(role & rr & _ & Hrr & (pat & Hentry & _))].
      destruct (Hwf role rr Hrr) as [_ Hrules].
      apply (Hrules rule pattern); [|exact Hk].
      apply in_map_iff. exists (pat, rule). split; [reflexivity|exact Hentry].
    - intros pattern. split; apply order_more.patterns_Permutation;
        [exact Hz|symmetry; exact Hz]. }
  rewrite Hfilter. reflexivity.
Qed.

Lemma outcome_is_independent_of_map_order_witness :
  ServeHTTP Fixtures.canon Fixtures.writer Fixtures.json Samples.proxy_reversed
            (Fixtures.get Fixtures.key "/candidates/baz")
  = ServeHTTP Fixtures.canon Fixtures.writer Fixtures.json (Fixtures.proxy 200)
              (Fixtures.get Fixtures.key "/candidates/baz").
Proof.
  apply (outcome_is_independent_of_map_order
           Fixtures.canon Fixtures.writer
           Fixtures.json (Fixtures.proxy 200) Samples.proxy_reversed).
  - intros role. cbn [Fixtures.proxy Samples.proxy_reversed ProxyRoles].
    unfold Fixtures.registry.
    destruct (decide (role = "candidates")) as [->|Hne].
    + rewrite !lookup_singleton. apply Permutation_rev.
    + rewrite !lookup_singleton_ne by congruence. exact I.
  - intros role rr Hrr. cbn [Fixtures.proxy ProxyRoles] in Hrr.
    unfold Fixtures.registry in Hrr.
    apply lookup_singleton_Some in Hrr as [_ <-]. split.
    + intros pattern rule [Hin|[Hin|[]]]; injection Hin as <- <-;
        eexists; vm_compute; reflexivity.
    + intros rule pattern [<-|[<-|[]]] Hk; cbn in Hk;
        repeat (destruct Hk as [<-|Hk]; [eexists; vm_compute; reflexivity|]);
        destruct Hk.
  - reflexivity.
  - reflexivity.
Defined.

(** ** The key issuance API *)

Example generateKey_tests :
  generateKey (Samples.decode_request ["foo"] "bar") Samples.test_api
              (Samples.post "{request}")
  = APIReturned
      {| api_status := 200;
         api_header := [("Content-Type", ["application/json"])];
         api_sent := KeyBody ("foo" +:+ String NUL "bar")
                             {| req_Roles := ["foo"]; req_APIKey := "bar" |} |}.
Proof. vm_compute. reflexivity. Qed.

(** X15: a key is issued only for registered roles.  When [generateKey]
    answers 200, the method was POST, the body decoded to a request all of
    whose roles are in the registry, [KeyGen] returned a token for the key
    made of the roles and the credential of the request with a zero creation
    time, and the response carries the encoded token and echoes the
    request. *)
Theorem key_is_issued_only_for_registered_roles
        (decode : string -> result keyRequest) (a : API) (r : APIRequest)
        (w : APIWritten) :
  generateKey decode a r = APIReturned w ->
  api_status w = StatusOK ->
  exists req ciphertext,
    api_Method r = "POST" /\
    decode (api_Body r) = Ok req /\
    Forall (fun role => is_Some (APIRoles a !! role)) (req_Roles req) /\
    snd (KeyGen a {| CreatedAt := zero_time;
                     Roles := req_Roles req;
                     APIKey := req_APIKey req |}) = Ok ciphertext /\
    api_sent w = KeyBody (KeyEncoder a ciphertext) req.
Proof.
  unfold generateKey, respond. intros H Hstatus.
  destruct (String.eqb (api_Method r) "POST") eqn:Hm; cbn [negb] in H;
    [|injection H as <-; discriminate].
  apply String.eqb_eq in Hm.
  destruct (decode (api_Body r)) as [req|e] eqn:Hd;
    [|injection H as <-; discriminate].
  destruct (missing_role (APIRoles a) (req_Roles req)) as [role|] eqn:Hmiss;
    [injection H as <-; discriminate|].
  destruct (snd (KeyGen a _)) as [ciphertext|e] eqn:Hgen; [|discriminate].
  injection H as <-. exists req, ciphertext.
  split; [exact Hm|]. split; [reflexivity|].
  split; [now apply api_more.missing_role_None|].
  split; [exact Hgen|reflexivity].
Qed.

Lemma key_is_issued_only_for_registered_roles_witness :
  exists req ciphertext,
    api_Method (Samples.post "{request}") = "POST" /\
    Samples.decode_request ["candidates"] "bar" (api_Body (Samples.post "{request}"))
    = Ok req /\
    Forall (fun role => is_Some (APIRoles Samples.api !! role)) (req_Roles req) /\
    snd (KeyGen Samples.api {| CreatedAt := zero_time;
                               Roles := req_Roles req;
                               APIKey := req_APIKey req |}) = Ok ciphertext /\
    KeyBody (Fixtures.token_of Fixtures.key)
            {| req_Roles := ["candidates"]; req_APIKey := "bar" |}
    = KeyBody (KeyEncoder Samples.api ciphertext) req.
Proof.
  apply (key_is_issued_only_for_registered_roles
           (Samples.decode_request ["candidates"] "bar") Samples.api
           (Samples.post "{request}")
           {| api_status := 200;
              api_header := [("Content-Type", ["application/json"])];
              api_sent := KeyBody (Fixtures.token_of Fixtures.key)
                                  {| req_Roles := ["candidates"];
                                     req_APIKey := "bar" |} |}).
  - vm_compute. reflexivity.
  - reflexivity.
Defined.

(** X16: the error responses of the API.  Every error body that
    [generateKey] writes goes with status 404: for a method other than POST
    (code [not_found], no message), for a body that does not decode (code
    [invalid_request]: not a 400), and for a requested role that the registry
    does not have (code [not_found]); in that case the role named is the first
    of the requested roles that is missing. *)
Theorem api_errors_are_not_found
        (decode : string -> result keyRequest) (a : API) (r : APIRequest)
        (w : APIWritten) (code message : string) :
  generateKey decode a r = APIReturned w ->
  api_sent w = ErrorBody code message ->
  api_status w = StatusNotFound /\
  ((api_Method r <> "POST" /\ code = "not_found" /\ message = "") \/
   (api_Method r = "POST" /\
    (exists e, decode (api_Body r) = Err e) /\
    code = "invalid_request" /\ message = "Unable to parse body as JSON.") \/
   (api_Method r = "POST" /\
    exists req before role after,
      decode (api_Body r) = Ok req /\
      req_Roles req = (before ++ role :: after)%list /\
      Forall (fun role => is_Some (APIRoles a !! role)) before /\
      APIRoles a !! role = None /\
      code = "not_found" /\
      message = "Role " +:+ role +:+ " does not exist")).
Proof.
  unfold generateKey, respond. intros H Hsent.
  destruct (String.eqb (api_Method r) "POST") eqn:Hm; cbn [negb] in H.
  - apply String.eqb_eq in Hm.
    destruct (decode (api_Body r)) as [req|e] eqn:Hd.
    + destruct (missing_role (APIRoles a) (req_Roles req)) as [role|] eqn:Hmiss.
      * injection H as <-. cbn [api_sent api_status] in Hsent |- *.
        injection Hsent as <- <-. split; [reflexivity|]. right. right.
        split; [exact Hm|].
        apply api_more.missing_role_Some in Hmiss
          as (before & after & Hroles & Hb & Hnone).
        exists req, before, role, after. auto 10.
      * destruct (snd (KeyGen a _)) as [ciphertext|e]; [|discriminate].
        injection H as <-. discriminate.
    + injection H as <-. cbn [api_sent api_status] in Hsent |- *.
      injection Hsent as <- <-. split; [reflexivity|]. right. left. eauto 10.
  - apply String.eqb_neq in Hm. injection H as <-.
    cbn [api_sent api_status] in Hsent |- *. injection Hsent as <- <-.
    split; [reflexivity|]. left. auto.
Qed.

Lemma api_errors_are_not_found_witness :
  api_status {| api_status := 404;
                api_header := [("Content-Type", ["application/json"])];
                api_sent := ErrorBody "not_found" "Role unknown does not exist" |}
  = StatusNotFound.
Proof.
  refine (proj1 (api_errors_are_not_found
                   (Samples.decode_request ["candidates"; "unknown"; "other"] "bar")
                   Samples.api (Samples.post "{request}") _
                   "not_found" "Role unknown does not exist" _ _)).
  - vm_compute. reflexivity.
  - reflexivity.
Defined.

(** X17: [KeyGen] is called at most once, and only for a POST whose body
    decodes to roles that all exist: the outcome of [generateKey] is the same
    for two APIs with the same registry and encoder whose generators agree on
    the key of such a request. *)
Theorem KeyGen_is_called_only_for_valid_requests
        (decode : string -> result keyRequest) (a a' : API) (r : APIRequest) :
  APIRoles a' = APIRoles a ->
  KeyEncoder a' = KeyEncoder a ->
  (forall req,
      api_Method r = "POST" ->
      decode (api_Body r) = Ok req ->
      Forall (fun role => is_Some (APIRoles a !! role)) (req_Roles req) ->
      snd (KeyGen a' {| CreatedAt := zero_time;
                        Roles := req_Roles req;
                        APIKey := req_APIKey req |})
      = snd (KeyGen a {| CreatedAt := zero_time;
                         Roles := req_Roles req;
                         APIKey := req_APIKey req |})) ->
  generateKey decode a' r = generateKey decode a r.
Proof.
  intros Hroles Henc Hgen. unfold generateKey. rewrite Hroles, Henc.
  destruct (String.eqb (api_Method r) "POST") eqn:Hm; [|reflexivity].
  apply String.eqb_eq in Hm. cbn [negb].
  destruct (decode (api_Body r)) as [req|e] eqn:Hd; [|reflexivity].
  destruct (missing_role (APIRoles a) (req_Roles req)) as [role|] eqn:Hmiss;
    [reflexivity|].
  rewrite (Hgen req Hm eq_refl) by now apply api_more.missing_role_None.
  reflexivity.
Qed.

Lemma KeyGen_is_called_only_for_valid_requests_witness :
  generateKey (Samples.decode_request ["candidates"; "unknown"] "bar")
              {| KeyGen := fun key => (key, Err ErrRandom);
                 KeyEncoder := KeyEncoder Samples.api;
                 APIRoles := APIRoles Samples.api |}
              (Samples.post "{request}")
  = generateKey (Samples.decode_request ["candidates"; "unknown"] "bar")
                Samples.api (Samples.post "{request}").
Proof.
  apply (KeyGen_is_called_only_for_valid_requests
           (Samples.decode_request ["candidates"; "unknown"] "bar") Samples.api).
  - reflexivity.
  - reflexivity.
  - intros req _ Hd Hall. vm_compute in Hd. injection Hd as <-.
    cbn [req_Roles] in Hall.
    apply List.Forall_cons_iff in Hall as [_ Hall].
    apply List.Forall_cons_iff in Hall as [[rr Hrr] _].
    vm_compute in Hrr. discriminate.
Defined.

(** X18: a key that the API issues opens at the proxy.  With the API and
    the proxy wired as [build] wires them (one [Auth], one registry), an AEAD
    that opens what it seals and an encoder that can be decoded: when
    [generateKey] answers with a key for a request whose roles and credential
    have no NUL byte, the decoded key presented as the user name of basic
    authentication, with any password, authenticates at the proxy; the opened
    key has the roles and the credential of the request, in order, and the
    time of issue at second precision; and the proxy does not answer that one
    of its roles does not exist. *)
Theorem issued_key_opens_at_the_proxy
        (auth : Auth) (aead : AEAD) (env : Env)
        (encode decode_key : string -> string)
        (roles : gmap string Role)
        (transport : Request -> string -> result (string * Response))
        (decode : string -> result keyRequest) (r : APIRequest)
        (w : APIWritten) (k : string) (req : keyRequest) (r' : Request)
        (password : string) :
  NewGCM auth = Ok aead ->
  AEAD_correct aead ->
  rand_fills env ->
  (forall token, decode_key (encode token) = token) ->
  generateKey decode (build_api auth env encode roles) r = APIReturned w ->
  api_sent w = KeyBody k req ->
  Forall no_nul (req_Roles req) ->
  no_nul (req_APIKey req) ->
  BasicAuth r' = Some (decode_key k, password) ->
  exists key,
    authenticate (build_proxy auth roles transport) r' = Ok key /\
    Roles key = req_Roles req /\
    APIKey key = req_APIKey req /\
    CreatedAt key = time_Unix (uint32 (Unix (Now env))) 0 /\
    forall role,
      authorize roles (Roles key) (URLPath r') (Method r') [] <> UnknownRole role.
Proof.
  intros Hgcm Hae Hfill Hdec H Hsent Hroles Hcred Hbasic.
  unfold generateKey, respond in H.
  destruct (String.eqb (api_Method r) "POST"); cbn [negb] in H;
    [|injection H as <-; discriminate].
  destruct (decode (api_Body r)) as [req0|e] eqn:Hd;
    [|injection H as <-; discriminate].
  cbn [build_api APIRoles KeyGen KeyEncoder] in H.
  destruct (missing_role roles (req_Roles req0)) as [role|] eqn:Hmiss;
    [injection H as <-; discriminate|].
  apply api_more.missing_role_None in Hmiss.
  destruct (snd (Generate auth env _)) as [token|e] eqn:Hgen; [|discriminate].
  injection H as <-. cbn [api_sent] in Hsent. injection Hsent as <- <-.
  unfold Generate in Hgen. cbn [snd] in Hgen.
  rewrite Hgcm, bind_Ok_eq in Hgen.
  apply codec_facts.generate_loop_Ok in Hgen
    as (_ & j & nonce & _ & Hr & -> & _).
  apply Hfill in Hr.
  unfold authenticate. rewrite Hbasic, Hdec.
  cbn [build_proxy KeyOpener].
  assert (Hstamp : stamp env {| CreatedAt := zero_time;
                                Roles := req_Roles req0;
                                APIKey := req_APIKey req0 |}
                   = {| CreatedAt := Now env;
                        Roles := req_Roles req0;
                        APIKey := req_APIKey req0 |}) by reflexivity.
  rewrite Hstamp.
  rewrite (codec_facts.Open_sealed
             auth aead nonce
             {| CreatedAt := Now env;
                Roles := req_Roles req0;
                APIKey := req_APIKey req0 |} Hgcm Hae Hr Hroles Hcred).
  eexists. split; [reflexivity|]. cbn [Roles APIKey CreatedAt].
  split; [reflexivity|]. split; [reflexivity|]. split; [reflexivity|].
  intros role. now apply api_more.authorize_registered.
Qed.

Lemma issued_key_opens_at_the_proxy_witness :
  exists key,
    authenticate (build_proxy Fixtures.auth Fixtures.registry (Fixtures.upstream 200))
                 (Fixtures.get Fixtures.key "/candidates/baz") = Ok key /\
    Roles key = ["candidates"] /\
    APIKey key = "bar" /\
    CreatedAt key = time_Unix (uint32 (Unix (Now Fixtures.env))) 0 /\
    forall role,
      authorize Fixtures.registry (Roles key) "/candidates/baz" "GET" []
      <> UnknownRole role.
Proof.
  apply (issued_key_opens_at_the_proxy
           Fixtures.auth Fixtures.tag_aead Fixtures.env (fun b => b) (fun b => b)
           Fixtures.registry (Fixtures.upstream 200)
           (Samples.decode_request ["candidates"] "bar")
           (Samples.post "{request}")
           {| api_status := 200;
              api_header := [("Content-Type", ["application/json"])];
              api_sent := KeyBody (Fixtures.token_of Fixtures.key)
                                  {| req_Roles := ["candidates"];
                                     req_APIKey := "bar" |} |}
           (Fixtures.token_of Fixtures.key)
           {| req_Roles := ["candidates"]; req_APIKey := "bar" |}
           (Fixtures.get Fixtures.key "/candidates/baz") "").
  - reflexivity.
  - exact tag_aead_correct.
  - exact env_rand_fills.
  - reflexivity.
  - vm_compute. reflexivity.
  - reflexivity.
  - constructor; [reflexivity|constructor].
  - reflexivity.
  - reflexivity.
Defined.

(** ** The outbound request: headers, credentials and aliasing *)

(** X19: what [copyHeader] copies.  For a source whose keys are all
    canonical, copied into a fresh map, the copy holds under every key the
    values that the source holds under it, in their order, and does not have
    the keys under which the source holds no value; the order in which the
    entries of the source are visited makes no difference. *)
Theorem copyHeader_copies_the_keys_with_values
        (canon : string -> string) (src : HeaderMap)
        (entries : list (string * list string)) (key : string) :
  canonical_keys canon src ->
  enumerates entries src ->
  copyHeader canon ∅ entries !! key
  = match src !! key with
    | Some (v :: vv) => Some (v :: vv)
    | _ => None
    end.
Proof.
  intros Hcanon Henum. now apply request_more.copyHeader_fresh.
Qed.

(** X20: no hop-by-hop header goes upstream.  For an inbound request whose
    header keys are canonical, the header map of the request that is passed to
    the transport gives the empty string for each of the eight hop-by-hop
    headers; each of them for which the inbound request gives a value that is
    not empty is absent from it; and every header other than these,
    [Authorization] and [X-Forwarded-For] has the values of the inbound
    request. *)
Theorem outbound_request_has_no_hop_by_hop_header
        (canon base64 : string -> string)
        (SplitHostPort : string -> result (string * string))
        (up : Upstream) (r : Incoming) (apiKey : string) :
  canon_fixes_named_keys canon ->
  canonical_keys canon (in_Header r) ->
  (forall h, In h hopHeaders ->
             Header_Get canon
               (out_Header (outreq canon base64 SplitHostPort up r apiKey)) h
             = EmptyString /\
             (Header_Get canon (in_Header r) h <> EmptyString ->
              out_Header (outreq canon base64 SplitHostPort up r apiKey) !! h
              = None)) /\
  (forall key, ~ In key hopHeaders ->
               key <> "Authorization" -> key <> "X-Forwarded-For" ->
               values (out_Header (outreq canon base64 SplitHostPort up r apiKey))
                      key
               = values (in_Header r) key).
Proof.
  intros Hfix Hcanon. cbn [outreq out_Header]. unfold prepare_headers, SetBasicAuth.
  cbn [on_outreq]. unfold Header_Set.
  pose proof Hfix as Hfix'.
  apply List.Forall_cons_iff in Hfix' as [Hauth Hfix'].
  apply List.Forall_cons_iff in Hfix' as [Hxff Hhops].
  rewrite List.Forall_forall in Hhops.
  destruct request_more.named_keys_not_hop as [_ Hxff_hop].
  rewrite Hauth.
  destruct (request_more.after_hops
              canon (in_Header r)
              ("Basic " +:+ base64 (apiKey +:+ ":" +:+ EmptyString))
              Hfix Hcanon _ eq_refl)
    as (_ & _ & _ & Hd & He & Hv & _ & _).
  set (s := fold_left (remove_hop canon) hopHeaders _) in *.
  assert (Hhop : forall h, In h hopHeaders ->
                           Header_Get canon (outreq_Header s) h = EmptyString /\
                           (Header_Get canon (in_Header r) h <> EmptyString ->
                            outreq_Header s !! h = None)).
  { intros h Hin. split; [|intros Hne; now apply Hd].
    destruct (string_dec (Header_Get canon (in_Header r) h) EmptyString) as [Hempty|Hne].
    - rewrite request_more.Header_Get_values, (Hhops h Hin), (He h Hin Hempty).
      rewrite request_more.Header_Get_values, (Hhops h Hin) in Hempty.
      exact Hempty.
    - destruct (Hd h Hin Hne) as [Hnone _].
      unfold Header_Get. now rewrite (Hhops h Hin), Hnone. }
  destruct (SplitHostPort (in_RemoteAddr r)) as [[clientIP port]|e].
  - rewrite (request_more.outreq_Header_forward_for canon s clientIP Hxff). split.
    + intros h Hin.
      assert (Hne : "X-Forwarded-For" <> h) by (intros <-; contradiction).
      rewrite request_more.Header_Get_insert_ne by now rewrite (Hhops h Hin).
      rewrite lookup_insert_ne by exact Hne. now apply Hhop.
    + intros key Hk Hka Hkx. unfold values at 1.
      rewrite lookup_insert_ne by congruence. now apply Hv.
  - split; [exact Hhop|]. intros key Hk Hka _. now apply Hv.
Qed.

Lemma outbound_request_has_no_hop_by_hop_header_witness :
  (forall h, In h hopHeaders ->
             Header_Get Samples.canon
               (out_Header (outreq Samples.canon Samples.base64 Samples.SplitHostPort
                                   Samples.upstream_site Samples.inbound "bar")) h
             = EmptyString /\
             (Header_Get Samples.canon (in_Header Samples.inbound) h <> EmptyString ->
              out_Header (outreq Samples.canon Samples.base64 Samples.SplitHostPort
                                 Samples.upstream_site Samples.inbound "bar") !! h
              = None)) /\
  (forall key, ~ In key hopHeaders ->
               key <> "Authorization" -> key <> "X-Forwarded-For" ->
               values (out_Header (outreq Samples.canon Samples.base64
                                          Samples.SplitHostPort
                                          Samples.upstream_site Samples.inbound "bar"))
                      key
               = values (in_Header Samples.inbound) key).
Proof.
  apply (outbound_request_has_no_hop_by_hop_header
           Samples.canon Samples.base64 Samples.SplitHostPort
           Samples.upstream_site Samples.inbound "bar").
  - repeat constructor.
  - intros key _. reflexivity.
Defined.

Lemma copyHeader_copies_the_keys_with_values_witness :
  copyHeader Samples.canon ∅ (map_to_list Samples.inbound_header) !! "Accept"
  = match Samples.inbound_header !! "Accept" with
    | Some (v :: vv) => Some (v :: vv)
    | _ => None
    end.
Proof.
  apply (copyHeader_copies_the_keys_with_values
           Samples.canon Samples.inbound_header
           (map_to_list Samples.inbound_header) "Accept").
  - intros key _. reflexivity.
  - apply request_more.enumerates_map_to_list.
Defined.

(** The request of the scenario as it goes upstream, and the header map of
    the inbound request afterwards. *)
Example Proxy_request_tests :
  map (fun key => out_Header (outreq Samples.canon Samples.base64
                                     Samples.SplitHostPort Samples.upstream_site
                                     Samples.inbound "bar") !! key)
      ["Authorization"; "Connection"; "Accept"; "X-Forwarded-For"; "X-Empty"]
  = [Some ["Basic bar:"]; None; Some ["*/*"];
     Some ["1.1.1.1, 2.2.2.2, 10.0.0.7"]; None] /\
  map (fun key => fst (Proxy_request Samples.canon Samples.base64
                                     Samples.SplitHostPort Samples.upstream_site
                                     Samples.inbound "bar") !! key)
      ["Authorization"; "Connection"; "Accept"; "X-Forwarded-For"; "X-Empty"]
  = [Some ["Basic bar:"]; Some ["close"]; Some ["*/*"];
     Some ["1.1.1.1"; "2.2.2.2"]; Some []] /\
  map (fun key => fst (Proxy_request Samples.canon Samples.base64
                                     Samples.SplitHostPort Samples.upstream_site
                                     Samples.inbound_plain "bar") !! key)
      ["Authorization"; "Accept"; "X-Forwarded-For"]
  = [Some ["Basic bar:"]; Some ["*/*"]; Some ["10.0.0.7"]].
Proof. repeat split; vm_compute; reflexivity. Qed.

(** X21: the credential of the upstream replaces the token, also in the
    inbound request.  The request that goes upstream carries as its only
    [Authorization] value the basic credential made of the API key and an
    empty password; whatever the client sent under that key is not forwarded.
    The header map of the inbound request is written through the shared map:
    after the call it holds the same [Authorization] value, and agrees with
    what it held before under every key other than [Authorization] and
    [X-Forwarded-For]; it is the very map that went upstream when the inbound
    request gave no hop-by-hop header, and keeps its [X-Forwarded-For] when it
    gave one. *)
Theorem upstream_credential_replaces_the_token
        (canon base64 : string -> string)
        (SplitHostPort : string -> result (string * string))
        (up : Upstream) (r : Incoming) (apiKey : string) :
  canon_fixes_named_keys canon ->
  canonical_keys canon (in_Header r) ->
  out_Header (outreq canon base64 SplitHostPort up r apiKey) !! "Authorization"
  = Some ["Basic " +:+ base64 (apiKey +:+ ":")] /\
  fst (Proxy_request canon base64 SplitHostPort up r apiKey) !! "Authorization"
  = Some ["Basic " +:+ base64 (apiKey +:+ ":")] /\
  (forall key, key <> "Authorization" -> key <> "X-Forwarded-For" ->
               fst (Proxy_request canon base64 SplitHostPort up r apiKey) !! key
               = in_Header r !! key) /\
  ((forall h, In h hopHeaders -> Header_Get canon (in_Header r) h = EmptyString) ->
   fst (Proxy_request canon base64 SplitHostPort up r apiKey)
   = out_Header (outreq canon base64 SplitHostPort up r apiKey)) /\
  ((exists h, In h hopHeaders /\ Header_Get canon (in_Header r) h <> EmptyString) ->
   fst (Proxy_request canon base64 SplitHostPort up r apiKey) !! "X-Forwarded-For"
   = in_Header r !! "X-Forwarded-For").
Proof.
  intros Hfix Hcanon. cbn [Proxy_request fst outreq out_Header].
  unfold prepare_headers, SetBasicAuth. cbn [on_outreq]. unfold Header_Set.
  pose proof Hfix as Hfix'.
  apply List.Forall_cons_iff in Hfix' as [Hauth Hfix'].
  apply List.Forall_cons_iff in Hfix' as [Hxff _].
  rewrite Hauth.
  change (apiKey +:+ ":" +:+ EmptyString) with (apiKey +:+ ":").
  destruct (request_more.after_hops
              canon (in_Header r) ("Basic " +:+ base64 (apiKey +:+ ":"))
              Hfix Hcanon _ eq_refl)
    as (_ & Hr & _ & Hd & _ & _ & Ha & Hshared).
  set (s := fold_left (remove_hop canon) hopHeaders _) in *.
  destruct (SplitHostPort (in_RemoteAddr r)) as [[clientIP port]|e].
  - rewrite (request_more.outreq_Header_forward_for canon s clientIP Hxff).
    unfold forward_for. rewrite request_more.r_Header_on_outreq.
    unfold Header_Set. rewrite Hxff.
    split; [now rewrite lookup_insert_ne by discriminate|].
    split.
    { destruct (copiedHeaders s); rewrite Hr.
      - apply lookup_insert_eq.
      - rewrite lookup_insert_ne by discriminate. apply lookup_insert_eq. }
    split.
    { intros key Hka Hkx. destruct (copiedHeaders s); rewrite Hr.
      - now rewrite lookup_insert_ne by congruence.
      - now rewrite !lookup_insert_ne by congruence. }
    split.
    { intros Hall. destruct (Hshared Hall) as [-> Hout]. now rewrite Hout, Hr. }
    intros (h & Hin & Hne). destruct (Hd h Hin Hne) as [_ ->].
    rewrite Hr. now rewrite lookup_insert_ne by discriminate.
  - split; [exact Ha|]. rewrite Hr.
    split; [apply lookup_insert_eq|].
    split; [intros key Hka _; now rewrite lookup_insert_ne by congruence|].
    split.
    { intros Hall. destruct (Hshared Hall) as [_ Hout]. now rewrite Hout. }
    intros _. now rewrite lookup_insert_ne by discriminate.
Qed.

Lemma upstream_credential_replaces_the_token_witness :
  out_Header (outreq Samples.canon Samples.base64 Samples.SplitHostPort
                     Samples.upstream_site Samples.inbound "bar") !! "Authorization"
  = Some ["Basic " +:+ Samples.base64 ("bar" +:+ ":")].
Proof.
  refine (proj1 (upstream_credential_replaces_the_token
                   Samples.canon Samples.base64 Samples.SplitHostPort
                   Samples.upstream_site Samples.inbound "bar" _ _)).
  - repeat constructor.
  - intros key _. reflexivity.
Defined.

(** X22: the address of the client is appended to [X-Forwarded-For].  When
    the remote address of the inbound request splits into a host and a port,
    the request that goes upstream has a single [X-Forwarded-For] value: the
    host alone when the inbound request has no such header, and otherwise the
    values of the inbound request joined by a comma and a space, followed by a
    comma, a space and the host.  When the remote address does not split, the
    values of the inbound request go upstream unchanged. *)
Theorem client_address_is_appended_to_forwarded_for
        (canon base64 : string -> string)
        (SplitHostPort : string -> result (string * string))
        (up : Upstream) (r : Incoming) (apiKey : string) :
  canon_fixes_named_keys canon ->
  canonical_keys canon (in_Header r) ->
  in_Header r !! "X-Forwarded-For" <> Some [] ->
  match SplitHostPort (in_RemoteAddr r) with
  | Ok (clientIP, _) =>
      out_Header (outreq canon base64 SplitHostPort up r apiKey) !! "X-Forwarded-For"
      = Some [match in_Header r !! "X-Forwarded-For" with
              | Some prior => strings_Join prior ", " +:+ ", " +:+ clientIP
              | None => clientIP
              end]
  | Err _ =>
      out_Header (outreq canon base64 SplitHostPort up r apiKey) !! "X-Forwarded-For"
      = in_Header r !! "X-Forwarded-For"
  end.
Proof.
  intros Hfix Hcanon Hprior. cbn [outreq out_Header].
  unfold prepare_headers, SetBasicAuth. cbn [on_outreq]. unfold Header_Set.
  pose proof Hfix as Hfix'.
  apply List.Forall_cons_iff in Hfix' as [Hauth Hfix'].
  apply List.Forall_cons_iff in Hfix' as [Hxff _].
  destruct request_more.named_keys_not_hop as [_ Hxff_hop].
  rewrite Hauth.
  destruct (request_more.after_hops
              canon (in_Header r)
              ("Basic " +:+ base64 (apiKey +:+ ":" +:+ EmptyString))
              Hfix Hcanon _ eq_refl)
    as (_ & _ & Hn & _ & _ & Hv & _ & _).
  set (s := fold_left (remove_hop canon) hopHeaders _) in *.
  assert (Hsame : outreq_Header s !! "X-Forwarded-For"
                  = in_Header r !! "X-Forwarded-For").
  { destruct (in_Header r !! "X-Forwarded-For") as [prior|] eqn:Hin.
    - apply request_more.values_lookup; [congruence|].
      rewrite Hv by (exact Hxff_hop || discriminate).
      unfold values. now rewrite Hin.
    - apply Hn; [discriminate|exact Hin]. }
  destruct (SplitHostPort (in_RemoteAddr r)) as [[clientIP port]|e];
    [|exact Hsame].
  rewrite (request_more.outreq_Header_forward_for canon s clientIP Hxff).
  rewrite lookup_insert_eq, Hsame. reflexivity.
Qed.

Lemma client_address_is_appended_to_forwarded_for_witness :
  match Samples.SplitHostPort (in_RemoteAddr Samples.inbound) with
  | Ok (clientIP, _) =>
      out_Header (outreq Samples.canon Samples.base64 Samples.SplitHostPort
                         Samples.upstream_site Samples.inbound "bar")
      !! "X-Forwarded-For"
      = Some [match in_Header Samples.inbound !! "X-Forwarded-For" with
              | Some prior => strings_Join prior ", " +:+ ", " +:+ clientIP
              | None => clientIP
              end]
  | Err _ =>
      out_Header (outreq Samples.canon Samples.base64 Samples.SplitHostPort
                         Samples.upstream_site Samples.inbound "bar")
      !! "X-Forwarded-For"
      = in_Header Samples.inbound !! "X-Forwarded-For"
  end.
Proof.
  apply (client_address_is_appended_to_forwarded_for
           Samples.canon Samples.base64 Samples.SplitHostPort
           Samples.upstream_site Samples.inbound "bar").
  - repeat constructor.
  - intros key _. reflexivity.
  - vm_compute. discriminate.
Defined.
